(** * Morpho: the [scaleproc] routine of [src/CubeStuff.cpp]

    A shallow embedding of [scaleproc] and the properties of the weight
    vector it returns.

    Conventions of the embedding.
    - A [double] is idealised as a real number: arithmetic is exact and
      there is no NaN or infinity.  Where the C++ divides by zero the
      embedding has the value of the total division of the reals
      ([x / 0 = 0]); such values carry no meaning, and a statement that
      looks at one says so.  Line 45 is the exception.  There a sample
      whose entries are all equal (its variance is 0) is multiplied by
      the root of [1 / 0], and all its entries become values that are
      not numbers.  No line after it accepts such a matrix: the solver
      returns no eigenvectors for it and the call ends in an error, the
      result [None].
    - An Armadillo matrix is held as the list of its rows, a vector as
      the list of its elements.  A matrix without rows has no columns
      here, so the column count of a matrix that may be empty is passed
      along with it.
    - Armadillo checks indices and sizes at run time (its default).  An
      error it raises is the result [None]; so is a read past the end of
      the caller's buffer, which in the C++ is undefined.
    - [eig_sym] is the symmetric eigen-solver of the linear-algebra
      library.  It is not part of this program: it is a parameter of
      the embedding, a function from a matrix to eigenvalues and
      eigenvectors.  Statements that need more of it say what: the size
      of what it returns ([eig_sized]), or that what it returns are
      eigenpairs in ascending order ([eigenpairs], [ascending]) with
      orthonormal eigenvectors ([orthogonal]; all three: [exact_on]).
    - [sort_index] keeps equal elements in their original order, as the
      library's sort does on short vectors.
    - The extents are R integers; [unsigned int] has 32 bits.
    - The numeric buffer of the R array is memory shared with the
      caller; the cube is a view on it.  It lives in the [world]
      together with the values written by [Rprintf]. *)

From Stdlib Require Import Reals ZArith List Lia Lra Bool Arith Permutation.
Import ListNotations.
Local Open Scope R_scope.

(** ** Armadillo primitives *)

Module Arma.

Definition vec := list R.
Definition mat := list (list R).

(** [M.n_rows] and [M.n_cols]. *)
Definition n_rows (M : mat) : nat := length M.
Definition n_cols (M : mat) : nat := length (hd [] M).

(** [accu] and [sum]: the sum of all elements. *)
Definition accu (v : vec) : R := fold_right Rplus 0 v.

(** Element-wise (Schur) product [%] of two equally long vectors. *)
Definition schur_raw (u v : vec) : vec :=
  map (fun p => fst p * snd p) (combine u v).

Definition schur (u v : vec) : option vec :=
  if (length u =? length v)%nat then Some (schur_raw u v) else None.

Definition dot (u v : vec) : R := accu (schur_raw u v).

Definition mean (v : vec) : R := accu v / INR (length v).

(** [var(v, 0)]: normalisation by [n - 1]; fewer than two elements give 0. *)
Definition var (v : vec) : R :=
  if (length v <? 2)%nat then 0
  else accu (map (fun x => (x - mean v) * (x - mean v)) v) / INR (length v - 1).

(** Column [j] of a matrix, unchecked and checked ([M.col(j)]). *)
Definition col_raw (j : nat) (M : mat) : vec := map (fun r => nth j r 0) M.

Definition col (j : nat) (M : mat) : option vec :=
  if (j <? n_cols M)%nat then Some (col_raw j M) else None.

(** [M.t()] for a matrix of [k] columns. *)
Definition t (k : nat) (M : mat) : mat := map (fun j => col_raw j M) (seq 0 k).

(** [A * B] for [B] of [k] columns; the sizes are checked by the caller. *)
Definition mul (A B : mat) (k : nat) : mat :=
  map (fun ra => map (fun j => dot ra (col_raw j B)) (seq 0 k)) A.

(** [M / x]. *)
Definition mat_div (M : mat) (x : R) : mat := map (map (fun y => y / x)) M.

(** [cor(X)]: rows are observations, the [k] columns are variables,
    normalisation by the number of observations less one.  A matrix
    without elements gives one without elements; a vector is one
    variable and gives the 1 x 1 matrix [1]. *)
Definition cor (k : nat) (X : mat) : mat :=
  if (length X =? 0)%nat || (k =? 0)%nat then []
  else if (length X =? 1)%nat || (k =? 1)%nat then [[1]]
  else
    let norm_val := INR (length X - 1) in
    let mu := map (fun j => mean (col_raw j X)) (seq 0 k) in
    let tmp := map (fun r => map (fun p => fst p - snd p) (combine r mu)) X in
    let out := mat_div (mul (t k tmp) tmp k) norm_val in
    let s := map (fun j => sqrt (nth j (nth j out []) 0)) (seq 0 k) in
    map (fun i => map (fun j => nth j (nth i out []) 0 / (nth i s 0 * nth j s 0))
                      (seq 0 k))
        (seq 0 k).

(** [sort_index(v, "descend")]: the indices of [v] in descending order
    of value, equal values in their original order.  The library sorts
    packets of a value and its index; so does the insertion below. *)
Definition packet := (R * nat)%type.

Fixpoint insert_descend (p : packet) (l : list packet) : list packet :=
  match l with
  | [] => [p]
  | q :: l' =>
    if Rlt_dec (fst p) (fst q) then q :: insert_descend p l' else p :: q :: l'
  end.

Definition sort_index_descend (v : vec) : list nat :=
  map snd (fold_right insert_descend [] (combine v (seq 0 (length v)))).

(** The size of a matrix or vector. *)
Record size := { sz_rows : nat; sz_cols : nat }.

(** The size of a default-constructed [vec].  A [vec] is a column
    vector, [Col<double>]; the library constructs an empty one as a
    matrix of vector state 1, with [n_rows = 0], [n_cols = 1] and
    [n_elem = 0]. *)
Definition empty_vec_size : size := {| sz_rows := 0; sz_cols := 1 |}.

End Arma.

(** ** The world: the caller's array and the console *)

(** The R object [array_]: its numeric data and its [dim] attribute. *)
Record rarray := { rdata : list R; rdim : list Z }.

Record world := { array_ : rarray; console : list R }.

(** Computations that read the world, may write to it and may stop with
    an Armadillo error. *)
Definition M (A : Type) : Type := world -> option A * world.

Definition ret {A} (x : A) : M A := fun w => (Some x, w).

Definition bind {A B} (c : M A) (f : A -> M B) : M B :=
  fun w => match c w with
           | (Some x, w') => f x w'
           | (None, w') => (None, w')
           end.

Definition lift {A} (o : option A) : M A := fun w => (o, w).

Notation "x <- c ;; k" := (bind c (fun x => k))
  (at level 61, c at next level, right associativity).

(** A computation that leaves the caller's array as it is. *)
Definition keeps_array {A} (c : M A) : Prop :=
  forall w, array_ (snd (c w)) = array_ w.

(** [for (i = 0; i < n; i++) body] over a loop state. *)
Definition for_loop {S} (n : nat) (body : nat -> S -> S) (s : S) : S :=
  fold_left (fun s i => body i s) (seq 0 n) s.

Fixpoint for_loopM {S} (l : list nat) (body : nat -> S -> M S) (s : S) : M S :=
  match l with
  | [] => ret s
  | i :: l' => s' <- body i s ;; for_loopM l' body s'
  end.

(** Assignment to element [i] of a vector, row [i] or column [i] of a matrix. *)
Fixpoint upd {A} (i : nat) (x : A) (l : list A) : list A :=
  match l, i with
  | [], _ => []
  | _ :: l', O => x :: l'
  | y :: l', S i' => y :: upd i' x l'
  end.

(** [V.col(i) = c]. *)
Definition set_col (i : nat) (c : Arma.vec) (V : Arma.mat) : Arma.mat :=
  map (fun p => upd i (snd p) (fst p)) (combine V c).

(** The value of an integer as [unsigned int]. *)
Definition uint (z : Z) : Z := (z mod 2 ^ 32)%Z.

(** [myCube.slice(i)]: the cube is a view on the caller's buffer, so a
    slice is read from the world each time it is used.  Its elements in
    memory order are the [k] values from offset [i * k]. *)
Definition cube_slice (k i : nat) : M Arma.vec :=
  fun w => (Some (firstn k (skipn (i * k) (rdata (array_ w)))), w).

(** [arrayDims[i]], element [i] of the [dim] attribute. *)
Definition arrayDims (i : nat) : M Z :=
  fun w => (Some (nth i (rdim (array_ w)) 0%Z), w).

(** [Rprintf("%f\n", x)]. *)
Definition Rprintf (x : R) : M unit :=
  fun w => (Some tt, {| array_ := array_ w; console := console w ++ [x] |}).

(** ** scaleproc *)

Section Scaleproc.

Import Arma.

Variable eig_sym : mat -> vec * mat.

(** Lines 41 to 44: the variance of each row, and each row centred. *)
Definition center_rows (nn : nat) (df : R) (omat : mat) : vec * mat :=
  for_loop nn (fun i '(qq, omat) =>
                 let r := nth i omat [] in
                 (upd i (var r * df) qq,
                  upd i (map (fun x => x - mean r) r) omat))
           (repeat 0 nn, omat).

(** Line 45: [diagmat(sqrt(1/qq)) * omat].  When some [qq(i)] is not
    positive, row [i] is constant, line 44 has made it a row of zeros,
    and its product with the root of [1 / qq(i)] is a row of values that
    are not numbers: the result [None]. *)
Definition positive (x : R) : bool := if Rlt_dec 0 x then true else false.

Definition scale_rows (qq : vec) (omat : mat) : option mat :=
  if forallb positive qq
  then Some (map (fun p => map (fun x => sqrt (1 / fst p) * x) (snd p))
                 (combine qq omat))
  else None.

(** Lines 59 to 63: the norm of each column, and each column divided by it. *)
Definition normalise_cols (kk : nat) (V : mat) : vec * mat :=
  for_loop kk (fun i '(vv, V) =>
                 let n := sqrt (dot (col_raw i V) (col_raw i V)) in
                 (upd i n vv, set_col i (map (fun x => x / n) (col_raw i V)) V))
           (repeat 0 kk, V).

(** [abs(sqrt(aasum/aa) % c)], the last step of both branches. *)
Definition weights (aasum : R) (aa c : vec) : option vec :=
  match schur (map (fun a => sqrt (aasum / a)) aa) c with
  | None => None
  | Some h => Some (map Rabs h)
  end.

(** Lines 46 to 64, on the centred and scaled [omat]: the eigenvalues
    in reversed order, the column norms [vv], the matrix [V] with its
    columns normalised, and [delta]. *)
Definition eigen_basis (omat : mat) (kk : nat)
  : option (vec * vec * mat * vec) :=
  let df := INR kk in
  let Lmat := mul (t kk omat) (mat_div omat df) kk in
  let '(lambda, U) := eig_sym Lmat in
  let nlam := length lambda in
  let usort := map (fun i => (nlam - 1 - i)%nat) (seq 0 nlam) in
  if negb (forallb (fun j => (j <? n_cols U)%nat) usort) then None else
  let U := map (fun r => map (fun j => nth j r 0) usort) U in
  let lambda := map (fun j => nth j lambda 0) usort in
  if negb (kk =? n_rows U)%nat then None else
  let V := mul omat U nlam in
  if negb (kk <=? nlam)%nat then None else
  let '(vv, V) := normalise_cols kk V in
  match schur (map (fun x => sqrt (Rabs (x / df))) lambda) vv with
  | None => None
  | Some delta => Some (lambda, vv, V, delta)
  end.

(** Lines 41 to 64. *)
Definition samples_rich_basis (omat : mat) (nn kk : nat)
  : option (vec * vec * mat * vec) :=
  let df := (INR nn - 1) / INR nn in
  let '(qq, omat) := center_rows nn df omat in
  match scale_rows qq omat with
  | None => None
  | Some omat => eigen_basis omat kk
  end.

(** Lines 40 to 69: more samples than features. *)
Definition samples_rich (aasum : R) (aa : vec) (omat : mat) (nn kk : nat)
  : option vec :=
  match samples_rich_basis omat nn kk with
  | None => None
  | Some (lambda, vv, V, delta) =>
    let od := sort_index_descend delta in
    match od with
    | [] => None
    | od0 :: _ =>
      match col od0 V with
      | None => None
      | Some c => weights aasum aa c
      end
    end
  end.

(** Lines 71 to 75: the eigenvectors of the correlation matrix of the
    samples, and the index read from the empty [eigval]. *)
Definition feature_rich_basis (omatorig : mat) (nn kk : nat) : nat * mat :=
  let zz := cor nn (t kk omatorig) in
  let maxval := sz_cols empty_vec_size in
  let '(eigval, eigvec) := eig_sym zz in
  (maxval, eigvec).

(** Lines 71 to 76: at most as many samples as features. *)
Definition feature_rich (aasum : R) (aa : vec) (omatorig : mat) (nn kk : nat)
  : option vec :=
  let '(maxval, eigvec) := feature_rich_basis omatorig nn kk in
  match col maxval eigvec with
  | None => None
  | Some c => weights aasum aa c
  end.

(** Lines 27 to 31: the sum of squares and the flattened form of each
    slice.  The assignment to [omat.row(i)] needs a slice of [k]
    elements. *)
Definition read_samples (n k : nat) : M (vec * mat) :=
  for_loopM (seq 0 n)
    (fun i '(aa, omat) =>
       sl <- cube_slice k i ;;
       sq <- lift (schur sl sl) ;;
       tmp <- cube_slice k i ;;
       if (length tmp =? k)%nat
       then ret (upd i (accu sq) aa, upd i tmp omat)
       else lift None)
    (repeat 0 n, repeat (repeat 0 k) n).

(** Lines 18 to 79.  [n] is [myCube.n_slices] as [unsigned int], [k]
    the product of the first two extents as the column count of
    [omat]. *)
Definition scaleproc : M vec :=
  d0 <- arrayDims 0 ;;
  d1 <- arrayDims 1 ;;
  d2 <- arrayDims 2 ;;
  let n := Z.to_nat (uint d2) in
  let k := Z.to_nat (uint (d0 * d1)) in
  s <- read_samples n k ;;
  let '(aa, omat) := s in
  let omatorig := omat in
  let nn := n in
  let kk := k in
  let aasum := accu aa in
  if (kk <? nn)%nat then
    h <- lift (samples_rich aasum aa omat nn kk) ;;
    _ <- Rprintf (nth 0 aa 0) ;;
    ret h
  else
    lift (feature_rich aasum aa omatorig nn kk).

End Scaleproc.


(** ** The closed form of a call *)

(** The two branches of line 40. *)
Inductive branch := SamplesRich | FeatureRich.

Section Closed.

Import Arma.

Variable eig_sym : mat -> vec * mat.

(** The samples as the first loop reads them: slice [i] of a cube of
    [k] elements per slice, and its sum of squares. *)
Definition slice_of (data : list R) (k i : nat) : vec :=
  firstn k (skipn (i * k) data).

Definition sumsq (v : vec) : R := accu (schur_raw v v).

Definition slices_ok (data : list R) (n k : nat) : bool :=
  forallb (fun i => (length (slice_of data k i) =? k)%nat) (seq 0 n).

Definition samples_of (data : list R) (n k : nat) : mat :=
  map (slice_of data k) (seq 0 n).

(** Extent [i] of the input array. *)
Definition extent (w : world) (i : nat) : Z := nth i (rdim (array_ w)) 0%Z.

(** The sample count [nn] and the feature count [kk] of a call. *)
Definition nn_of (w : world) : nat := Z.to_nat (uint (extent w 2)).
Definition kk_of (w : world) : nat := Z.to_nat (uint (extent w 0 * extent w 1)).

(** [omat] and [aa] after the first loop. *)
Definition omat_of (w : world) : mat :=
  samples_of (rdata (array_ w)) (nn_of w) (kk_of w).
Definition aa_of (w : world) : vec := map sumsq (omat_of w).
Definition aasum_of (w : world) : R := accu (aa_of w).

(** What a call returns, and the world it leaves. *)
Definition result_of (w : world) : option vec :=
  if slices_ok (rdata (array_ w)) (nn_of w) (kk_of w) then
    if (kk_of w <? nn_of w)%nat
    then samples_rich eig_sym (aasum_of w) (aa_of w) (omat_of w) (nn_of w) (kk_of w)
    else feature_rich eig_sym (aasum_of w) (aa_of w) (omat_of w) (nn_of w) (kk_of w)
  else None.

(** A row of positive variance after lines 41 to 45: centred, and
    scaled by its variance.  [rows_vary] says that every row of [omat]
    has a positive variance, that is, that line 45 returns. *)
Definition standardise (df : R) (r : vec) : vec :=
  map (fun x => sqrt (1 / (var r * df)) * (x - mean r)) r.

Definition rows_vary (df : R) (omat : mat) : bool :=
  forallb (fun r => positive (var r * df)) omat.

(** The norm of column [j], and a row with its leading entries divided
    by the norms [vv], as the loop of lines 60 to 63 leaves them. *)
Definition col_norm (j : nat) (V : mat) : R :=
  sqrt (dot (col_raw j V) (col_raw j V)).

Fixpoint normalised_row (vv : vec) (r : list R) : list R :=
  match vv, r with
  | n :: vv', x :: r' => x / n :: normalised_row vv' r'
  | _, _ => r
  end.

(** No sample has all its entries equal. *)
Definition samples_vary (w : world) : Prop :=
  forall i, (i < nn_of w)%nat -> 0 < var (nth i (omat_of w) []).

(** The branch that a call takes. *)
Definition branch_of (w : world) : branch :=
  if (kk_of w <? nn_of w)%nat then SamplesRich else FeatureRich.

(** The column that is scaled into the weights: column [od(0)] of [V]
    in the samples-rich branch, column [maxval] of [eigvec] in the
    feature-rich one. *)
Definition selected_column (w : world) : option vec :=
  match branch_of w with
  | SamplesRich =>
    match samples_rich_basis eig_sym (omat_of w) (nn_of w) (kk_of w) with
    | Some (lambda, vv, V, delta) =>
      match sort_index_descend delta with
      | [] => None
      | od0 :: _ => col od0 V
      end
    | None => None
    end
  | FeatureRich =>
    let '(maxval, eigvec) :=
      feature_rich_basis eig_sym (omat_of w) (nn_of w) (kk_of w) in
    col maxval eigvec
  end.

Definition world_after (w : world) : world :=
  match result_of w with
  | Some _ =>
    if (kk_of w <? nn_of w)%nat
    then {| array_ := array_ w; console := console w ++ [nth 0 (aa_of w) 0] |}
    else w
  | None => w
  end.

End Closed.

(** ** Eigen-solvers and inputs *)

(** What the embedding asks of a solver where it asks anything: on a
    matrix of [n] rows it returns [n] eigenvalues and an [n] x [n]
    matrix of eigenvectors. *)
Definition eig_sized (eig : Arma.mat -> Arma.vec * Arma.mat) (M : Arma.mat)
  : Prop :=
  length (fst (eig M)) = length M /\
  length (snd (eig M)) = length M /\
  Forall (fun r => length r = length M) (snd (eig M)).

Definition eig_wf (eig : Arma.mat -> Arma.vec * Arma.mat) : Prop :=
  forall M, eig_sized eig M.

(** The matrices handed to the solver: [Lmat] in the samples-rich
    branch, [zz] in the feature-rich one. *)
Definition Lmat_of (w : world) : Arma.mat :=
  let Z := map (standardise ((INR (nn_of w) - 1) / INR (nn_of w))) (omat_of w) in
  Arma.mul (Arma.t (kk_of w) Z) (Arma.mat_div Z (INR (kk_of w))) (kk_of w).

Definition zz_of (w : world) : Arma.mat :=
  Arma.cor (nn_of w) (Arma.t (kk_of w) (omat_of w)).

Definition identity (n : nat) : Arma.mat :=
  map (fun i => map (fun j => if (i =? j)%nat then 1 else 0) (seq 0 n)) (seq 0 n).

(** A solver that is exact on identity matrices: eigenvalues 1, the
    unit vectors as eigenvectors. *)
Definition eig_identity (M : Arma.mat) : Arma.vec * Arma.mat :=
  (map (fun _ => 1) M, identity (length M)).

(** Two samples of three features, uncorrelated: (1, -1, 0) and (1, 1, -2). *)
Definition two_samples : world :=
  {| array_ := {| rdata := [1; -1; 0; 1; 1; -2]; rdim := [3; 1; 2]%Z |};
     console := [] |}.

(** One sample of one feature. *)
Definition one_sample : world :=
  {| array_ := {| rdata := [1]; rdim := [1; 1; 1]%Z |}; console := [] |}.

(** ** Transformations of the input *)

(** Every sample matrix multiplied by [s]. *)
Definition scale_world (s : R) (w : world) : world :=
  {| array_ := {| rdata := map (Rmult s) (rdata (array_ w));
                  rdim := rdim (array_ w) |};
     console := console w |}.

(** The list whose element [i] is element [p[i]] of [l]. *)
Definition permute {A} (d : A) (p : list nat) (l : list A) : list A :=
  map (fun j => nth j l d) p.

(** Three samples of two features: (1, -1), (-1, 1) and (1, -1). *)
Definition three_samples : world :=
  {| array_ := {| rdata := [1; -1; -1; 1; 1; -1]; rdim := [2; 1; 3]%Z |};
     console := [] |}.

(** The same three samples, the first one moved to the end. *)
Definition three_samples_rotated : world :=
  {| array_ := {| rdata := [-1; 1; 1; -1; 1; -1]; rdim := [2; 1; 3]%Z |};
     console := [] |}.

(** The eigenpairs of [Lmat_of three_samples], exact, listed with the
    largest eigenvalue first, as R's [eigen] lists them: 9/4 with
    (1, -1)/sqrt 2, then 0 with (1, 1)/sqrt 2. *)
Definition eig_descending (M : Arma.mat) : Arma.vec * Arma.mat :=
  ([9 / 4; 0], [[/ sqrt 2; / sqrt 2]; [- / sqrt 2; / sqrt 2]]).

(** The same eigenpairs listed with the smallest eigenvalue first, as
    the library's solver lists them. *)
Definition eig_ascending (M : Arma.mat) : Arma.vec * Arma.mat :=
  ([0; 9 / 4], [[/ sqrt 2; / sqrt 2]; [/ sqrt 2; - / sqrt 2]]).

(** [lambda] and the columns of [U] are eigenpairs of [M]: each column
    is a unit vector that [M] maps to its multiple by the eigenvalue of
    the same index. *)
Definition eigenpairs (M : Arma.mat) (lambda : Arma.vec) (U : Arma.mat) : Prop :=
  length lambda = length M /\
  length U = length M /\
  Forall (fun r => length r = length M) U /\
  forall j, (j < length M)%nat ->
    Arma.dot (Arma.col_raw j U) (Arma.col_raw j U) = 1 /\
    forall a, (a < length M)%nat ->
      Arma.dot (nth a M []) (Arma.col_raw j U)
      = nth j lambda 0 * nth a (Arma.col_raw j U) 0.

Definition ascending (l : Arma.vec) : Prop :=
  forall i j, (i <= j)%nat -> (j < length l)%nat -> nth i l 0 <= nth j l 0.

(** The matrix of eigenvectors of an exact solver is orthogonal: its
    rows are unit vectors orthogonal to each other, and so are its
    columns. *)
Definition kronecker (i j : nat) : R := if (i =? j)%nat then 1 else 0.

Definition orthogonal (U : Arma.mat) : Prop :=
  forall i j, (i < length U)%nat -> (j < length U)%nat ->
    Arma.dot (nth i U []) (nth j U []) = kronecker i j /\
    Arma.dot (Arma.col_raw i U) (Arma.col_raw j U) = kronecker i j.

(** What an exact solver returns for [M]: eigenpairs of [M], the
    eigenvalues in ascending order, the eigenvectors orthonormal. *)
Definition exact_on (eig : Arma.mat -> Arma.vec * Arma.mat) (M : Arma.mat) : Prop :=
  eigenpairs M (fst (eig M)) (snd (eig M)) /\
  ascending (fst (eig M)) /\
  orthogonal (snd (eig M)).

(** Two samples of three features with the correlation 1/2:
    (1, -1, 0) and (2, 0, -2); and the same two in the other order. *)
Definition two_samples_correlated : world :=
  {| array_ := {| rdata := [1; -1; 0; 2; 0; -2]; rdim := [3; 1; 2]%Z |};
     console := [] |}.

Definition two_samples_correlated_swapped : world :=
  {| array_ := {| rdata := [2; 0; -2; 1; -1; 0]; rdim := [3; 1; 2]%Z |};
     console := [] |}.

(** The eigenpairs of the correlation matrix of these two samples,
    [[1, 1/2], [1/2, 1]], in ascending order. *)
Definition eig_correlated (M : Arma.mat) : Arma.vec * Arma.mat :=
  ([1 / 2; 3 / 2], [[/ sqrt 2; / sqrt 2]; [- / sqrt 2; / sqrt 2]]).

(** Two samples of four features, uncorrelated and of the same
    entries: (1, -1, 0, 0) and (0, 0, 1, -1); and the same two in the
    other order.  Their correlation matrix has the two diagonal
    entries computed from the same numbers, and 0 elsewhere. *)
Definition two_samples_tied : world :=
  {| array_ := {| rdata := [1; -1; 0; 0; 0; 0; 1; -1]; rdim := [4; 1; 2]%Z |};
     console := [] |}.

Definition two_samples_tied_swapped : world :=
  {| array_ := {| rdata := [0; 0; 1; -1; 1; -1; 0; 0]; rdim := [4; 1; 2]%Z |};
     console := [] |}.

(** The sum of [f 0], ..., [f (n - 1)]. *)
Fixpoint rsum (n : nat) (f : nat -> R) : R :=
  match n with
  | O => 0
  | S n' => rsum n' f + f n'
  end.

(** The component of column [j] of [x] along column [k] of [y], two
    matrices of [n] rows given by their entries. *)
Definition overlap (n : nat) (x y : nat -> nat -> R) (j k : nat) : R :=
  rsum n (fun a => x a j * y a k).

(** ** Transformations of the solver *)

(** A row with entry [j] multiplied by [sg j], and a matrix with
    column [j] multiplied by [sg j]. *)
Definition scale_entries (sg : nat -> R) (r : list R) : list R :=
  map (fun p => sg (snd p) * fst p) (combine r (seq 0 (length r))).

Definition scale_columns (sg : nat -> R) (U : Arma.mat) : Arma.mat :=
  map (scale_entries sg) U.

(** The solver [eig] with eigenvector [j] multiplied by [sg j]. *)
Definition eig_flipped (sg : nat -> R) (eig : Arma.mat -> Arma.vec * Arma.mat)
    (M : Arma.mat) : Arma.vec * Arma.mat :=
  (fst (eig M), scale_columns sg (snd (eig M))).

(** ** Further inputs *)

(** The two samples of [two_samples] with their first two features
    exchanged: (-1, 1, 0) and (1, 1, -2). *)
Definition two_samples_features_swapped : world :=
  {| array_ := {| rdata := [-1; 1; 0; 1; 1; -2]; rdim := [3; 1; 2]%Z |};
     console := [] |}.

(** The three samples of [three_samples], each moved and scaled on its
    own: twice the first plus 1, the second, three times the third
    less 1. *)
Definition three_samples_moved : world :=
  {| array_ := {| rdata := [3; -1; -1; 1; 2; -4]; rdim := [2; 1; 3]%Z |};
     console := [] |}.

(** * Properties *)

(** ** Lists and loops *)

Lemma upd_length {A} (i : nat) (x : A) (l : list A) :
  length (upd i x l) = length l.
Proof.
  revert i; induction l as [|y l IH]; intros [|i]; simpl; auto.
Qed.

Lemma upd_app_mid {A} (l1 l2 : list A) (i : nat) (x y : A) :
  length l1 = i -> upd i x (l1 ++ y :: l2) = l1 ++ x :: l2.
Proof.
  revert i; induction l1 as [|z l1 IH]; intros i Hi; simpl in *; subst; auto.
  simpl. f_equal. now apply IH.
Qed.

Lemma nth_app_mid {A} (l1 l2 : list A) (i : nat) (y d : A) :
  length l1 = i -> nth i (l1 ++ y :: l2) d = y.
Proof.
  intros <-. rewrite app_nth2, Nat.sub_diag; auto.
Qed.

Lemma nth_upd {A} (i j : nat) (x d : A) (l : list A) :
  nth j (upd i x l) d =
  if (j =? i)%nat && (i <? length l)%nat then x else nth j l d.
Proof.
  revert i j; induction l as [|y l IH]; intros [|i] [|j]; simpl; auto;
    try (now rewrite andb_false_r).
Qed.

Lemma for_loop_S {S} (n : nat) (body : nat -> S -> S) (s : S) :
  for_loop (Datatypes.S n) body s = body n (for_loop n body s).
Proof.
  unfold for_loop. rewrite seq_S, fold_left_app. reflexivity.
Qed.

Lemma app_cons_assoc {A} (l1 l2 : list A) (x : A) :
  l1 ++ x :: l2 = (l1 ++ [x]) ++ l2.
Proof. now rewrite <- app_assoc. Qed.

Lemma combine_map_l {A B} (f : A -> B) (l : list A) :
  combine (map f l) l = map (fun x => (f x, x)) l.
Proof. induction l; simpl; congruence. Qed.

Lemma combine_map_r {A B} (f : A -> B) (l : list A) :
  combine l (map f l) = map (fun x => (x, f x)) l.
Proof. induction l; simpl; congruence. Qed.

Lemma map_nth_seq {A} (d : A) (l : list A) :
  map (fun j => nth j l d) (seq 0 (length l)) = l.
Proof.
  induction l as [|x l IH]; simpl; [reflexivity|].
  f_equal. rewrite <- seq_shift, map_map. exact IH.
Qed.

Lemma nth_map_seq_gen {A} (f : nat -> A) (d : A) (n i : nat) :
  (i < n)%nat -> nth i (map f (seq 0 n)) d = f i.
Proof.
  intros Hi. rewrite (nth_indep _ d (f n)) by now rewrite length_map, length_seq.
  rewrite (map_nth f (seq 0 n) n i). now rewrite seq_nth.
Qed.

Lemma nth_map_seq (f : nat -> R) (k i : nat) :
  (i < k)%nat -> nth i (map f (seq 0 k)) 0 = f i.
Proof.
  intros Hi. rewrite (nth_indep _ 0 (f k)) by now rewrite length_map, length_seq.
  rewrite (map_nth f (seq 0 k) k i). now rewrite seq_nth.
Qed.

(** ** Real numbers *)

Ltac rcompute :=
  cbv -[Rplus Rmult Rminus Rdiv Ropp Rinv sqrt Rabs INR IZR Rlt_dec Rle_dec];
  simpl INR.

Ltac list_eq :=
  repeat (match goal with
          | |- cons _ _ = cons _ _ => apply f_equal2
          | |- nil = nil => reflexivity
          end).

Lemma div_sqrt_sqrt (x y : R) : 0 < y -> x = y -> x / (sqrt y * sqrt y) = 1.
Proof. intros Hy ->. rewrite sqrt_sqrt by lra. field. lra. Qed.

Lemma zero_div (x y : R) : x = 0 -> x / y = 0.
Proof. intros ->. unfold Rdiv. ring. Qed.

Lemma sqrt_eq (x y : R) : 0 <= y -> x = y * y -> sqrt x = y.
Proof. intros Hy ->. now apply sqrt_square. Qed.

Lemma sqrt_unique (x y : R) : 0 <= y -> y * y = x -> y = sqrt x.
Proof. intros Hy <-. symmetry. now apply sqrt_square. Qed.

Lemma sqrt_pos_sqr (x : R) : 0 < sqrt x -> sqrt x * sqrt x = x.
Proof.
  intros H. apply sqrt_sqrt.
  destruct (Rle_dec 0 x) as [Hx|Hx]; [assumption|].
  rewrite sqrt_neg_0 in H by lra. lra.
Qed.

Lemma sqrt_34_sqr : sqrt (3/4) * sqrt (3/4) = 3/4.
Proof. apply sqrt_sqrt. lra. Qed.

Lemma inv_sqrt2_sqr : / sqrt 2 * / sqrt 2 = 1 / 2.
Proof.
  rewrite <- Rinv_mult, sqrt_sqrt by lra. lra.
Qed.

Lemma sqrt_3_13 : sqrt 3 * sqrt (1/3) = 1.
Proof. rewrite <- sqrt_mult by lra. apply sqrt_eq; lra. Qed.

(** ** Sums *)

Lemma accu_nonneg (v : Arma.vec) : Forall (fun x => 0 <= x) v -> 0 <= Arma.accu v.
Proof.
  induction 1 as [|x v Hx Hv IH]; simpl; lra.
Qed.

Lemma accu_app (l1 l2 : Arma.vec) :
  Arma.accu (l1 ++ l2) = Arma.accu l1 + Arma.accu l2.
Proof.
  induction l1 as [|x l1 IH]; simpl; [ring|]. rewrite IH. ring.
Qed.

Lemma accu_perm (l l' : Arma.vec) :
  Permutation l l' -> Arma.accu l = Arma.accu l'.
Proof.
  induction 1; simpl; try lra.
Qed.

Lemma accu_map_scale (c : R) (l : Arma.vec) :
  Arma.accu (map (fun x => c * x) l) = c * Arma.accu l.
Proof.
  induction l as [|x l IH]; simpl; [ring|]. rewrite IH. ring.
Qed.

Lemma accu_squares_nonneg {A} (f : A -> R) (l : list A) :
  0 <= Arma.accu (map (fun x => f x * f x) l).
Proof.
  apply accu_nonneg, Forall_forall. intros y Hy.
  apply in_map_iff in Hy. destruct Hy as (x & <- & _). nra.
Qed.

Lemma accu_ge_nth (v : Arma.vec) (i : nat) :
  Forall (fun x => 0 <= x) v -> (i < length v)%nat -> nth i v 0 <= Arma.accu v.
Proof.
  intros H. revert i. induction H as [|x v Hx Hv IH]; intros i Hi; simpl in *.
  - lia.
  - destruct i as [|i].
    + pose proof (accu_nonneg v Hv). lra.
    + specialize (IH i ltac:(lia)). lra.
Qed.

Lemma accu_map_seq (f : nat -> R) (n : nat) :
  Arma.accu (map f (seq 0 n)) = rsum n f.
Proof.
  induction n as [|n IH]; [reflexivity|].
  rewrite seq_S, map_app, accu_app, IH. simpl. ring.
Qed.

Lemma accu_rsum (l : Arma.vec) :
  Arma.accu l = rsum (length l) (fun i => nth i l 0).
Proof.
  rewrite <- accu_map_seq, map_nth_seq. reflexivity.
Qed.

Lemma rsum_ext (n : nat) (f g : nat -> R) :
  (forall i, (i < n)%nat -> f i = g i) -> rsum n f = rsum n g.
Proof.
  induction n as [|n IH]; intros H; [reflexivity|].
  simpl. rewrite IH by (intros; apply H; lia). rewrite H by lia. reflexivity.
Qed.

Lemma rsum_scal (n : nat) (c : R) (f : nat -> R) :
  rsum n (fun i => c * f i) = c * rsum n f.
Proof.
  induction n as [|n IH]; simpl; [ring|]. rewrite IH. ring.
Qed.

Lemma rsum_plus (n : nat) (f g : nat -> R) :
  rsum n (fun i => f i + g i) = rsum n f + rsum n g.
Proof.
  induction n as [|n IH]; simpl; [ring|]. rewrite IH. ring.
Qed.

Lemma rsum_swap (n m : nat) (g : nat -> nat -> R) :
  rsum n (fun i => rsum m (fun j => g i j))
  = rsum m (fun j => rsum n (fun i => g i j)).
Proof.
  induction n as [|n IH]; simpl.
  - induction m as [|m IHm]; simpl; [reflexivity|]. rewrite <- IHm. ring.
  - rewrite IH, <- rsum_plus. reflexivity.
Qed.

Lemma rsum_mult (n m : nat) (f g : nat -> R) :
  rsum n f * rsum m g = rsum n (fun a => rsum m (fun b => f a * g b)).
Proof.
  induction n as [|n IH]; simpl; [ring|].
  rewrite <- IH, rsum_scal. ring.
Qed.

Lemma rsum_nonneg (n : nat) (f : nat -> R) :
  (forall i, 0 <= f i) -> 0 <= rsum n f.
Proof.
  intros H. induction n as [|n IH]; simpl; [lra|]. specialize (H n). lra.
Qed.

Lemma accu_map_rsum {A} (f : A -> R) (d : A) (l : list A) :
  Arma.accu (map f l) = rsum (length l) (fun i => f (nth i l d)).
Proof.
  rewrite accu_rsum, length_map. apply rsum_ext. intros i Hi.
  rewrite (nth_indep _ 0 (f d)) by now rewrite length_map.
  apply map_nth.
Qed.

(** ** Vectors and matrices *)

Lemma schur_same (v : Arma.vec) : Arma.schur v v = Some (Arma.schur_raw v v).
Proof. unfold Arma.schur. now rewrite Nat.eqb_refl. Qed.

Lemma schur_raw_length (u v : Arma.vec) :
  length u = length v -> length (Arma.schur_raw u v) = length u.
Proof.
  intros H. unfold Arma.schur_raw. rewrite length_map, length_combine. lia.
Qed.

Lemma schur_raw_nth (u v : Arma.vec) (i : nat) :
  length u = length v ->
  nth i (Arma.schur_raw u v) 0 = nth i u 0 * nth i v 0.
Proof.
  intros H. unfold Arma.schur_raw.
  destruct (Nat.lt_ge_cases i (length u)) as [Hi|Hi].
  - rewrite (nth_indep _ 0 ((fun p => fst p * snd p) (0, 0)))
      by (rewrite length_map, length_combine; lia).
    rewrite (map_nth (fun p => fst p * snd p) (combine u v) (0, 0) i).
    rewrite combine_nth by assumption. reflexivity.
  - rewrite !nth_overflow; try lia; try (rewrite length_map, length_combine; lia).
    ring.
Qed.

Lemma schur_spec (u v d : Arma.vec) :
  Arma.schur u v = Some d ->
  length u = length v /\ d = Arma.schur_raw u v /\ length d = length u.
Proof.
  unfold Arma.schur. destruct (Nat.eqb_spec (length u) (length v)); [|discriminate].
  intros [= <-]. repeat split; auto. now apply schur_raw_length.
Qed.

Lemma schur_raw_map_nth (q : list nat) (u v : Arma.vec) :
  length u = length v ->
  Arma.schur_raw (map (fun j => nth j u 0) q) (map (fun j => nth j v 0) q)
  = map (fun j => nth j (Arma.schur_raw u v) 0) q.
Proof.
  intros H. induction q as [|j q IH]; [reflexivity|].
  simpl map. rewrite <- IH. unfold Arma.schur_raw at 1. simpl.
  f_equal. symmetry. now apply schur_raw_nth.
Qed.

Lemma dot_map (f g : R -> R) (u : Arma.vec) :
  Arma.dot (map f u) (map g u) = Arma.accu (map (fun x => f x * g x) u).
Proof.
  unfold Arma.dot, Arma.schur_raw.
  induction u as [|x u IH]; simpl; [reflexivity|]. now rewrite IH.
Qed.

Lemma dot_self (u : Arma.vec) :
  Arma.dot u u = Arma.accu (map (fun x => x * x) u).
Proof.
  rewrite <- (map_id u) at 1 2. apply (dot_map (fun x => x) (fun x => x)).
Qed.

Lemma dot_div_self (n : R) (u : Arma.vec) :
  Arma.dot (map (fun x => x / n) u) (map (fun x => x / n) u)
  = / (n * n) * Arma.dot u u.
Proof.
  rewrite dot_map, dot_self, <- accu_map_scale, map_map.
  f_equal. apply map_ext. intros x. unfold Rdiv. rewrite Rinv_mult. ring.
Qed.

Lemma dot_rsum (u v : Arma.vec) :
  length u = length v ->
  Arma.dot u v = rsum (length u) (fun a => nth a u 0 * nth a v 0).
Proof.
  intros H. unfold Arma.dot. rewrite accu_rsum, schur_raw_length by assumption.
  apply rsum_ext. intros i _. now apply schur_raw_nth.
Qed.

Lemma col_spec (j : nat) (M : Arma.mat) (c : Arma.vec) :
  Arma.col j M = Some c ->
  (j < Arma.n_cols M)%nat /\ length c = length M /\
  forall i, nth i c 0 = nth j (nth i M []) 0.
Proof.
  unfold Arma.col. destruct (Nat.ltb_spec j (Arma.n_cols M)); [|discriminate].
  intros [= <-]. split; [assumption|]. unfold Arma.col_raw. split.
  - now rewrite length_map.
  - intros i. destruct (Nat.lt_ge_cases i (length M)) as [Hi|Hi].
    + rewrite (nth_indep _ 0 ((fun r => nth j r 0) [])) by now rewrite length_map.
      now rewrite (map_nth (fun r => nth j r 0) M [] i).
    + rewrite (nth_overflow M) by assumption.
      rewrite nth_overflow by now rewrite length_map.
      now destruct j.
Qed.

Lemma col_raw_length (j : nat) (M : Arma.mat) : length (Arma.col_raw j M) = length M.
Proof. apply length_map. Qed.

Lemma nth_col_raw (j i : nat) (M : Arma.mat) :
  nth i (Arma.col_raw j M) 0 = nth j (nth i M []) 0.
Proof.
  unfold Arma.col_raw.
  destruct (Nat.lt_ge_cases i (length M)) as [Hi|Hi].
  - rewrite (nth_indep _ 0 ((fun r => nth j r 0) [])) by now rewrite length_map.
    apply (map_nth (fun r => nth j r 0) M [] i).
  - rewrite (nth_overflow M) by assumption.
    rewrite nth_overflow by now rewrite length_map.
    now destruct j.
Qed.

Lemma nth_row_div (x : R) (r : list R) (b : nat) :
  nth b (map (fun y => y / x) r) 0 = nth b r 0 / x.
Proof.
  replace 0 with (0 / x) at 1 by (unfold Rdiv; ring).
  apply (map_nth (fun y => y / x)).
Qed.

Lemma n_cols_uniform (M : Arma.mat) (c : nat) :
  M <> [] -> Forall (fun r => length r = c) M -> Arma.n_cols M = c.
Proof.
  intros HM H. destruct M as [|r M]; [congruence|].
  inversion H; subst. reflexivity.
Qed.

Lemma cor_single (X : Arma.mat) :
  X <> [] -> Arma.cor 1 X = [[1]].
Proof.
  intros HX. unfold Arma.cor. destruct X as [|r X]; [congruence|].
  simpl. now rewrite orb_true_r.
Qed.

(** ** Products and correlations *)

Lemma dot_comm (u v : Arma.vec) : Arma.dot u v = Arma.dot v u.
Proof.
  unfold Arma.dot, Arma.schur_raw. revert v.
  induction u as [|a u IH]; intros [|b v]; simpl; try reflexivity.
  rewrite (IH v). ring.
Qed.

Lemma dot_self_nonneg (u : Arma.vec) : 0 <= Arma.dot u u.
Proof. rewrite dot_self. apply accu_squares_nonneg. Qed.

(** The inequality of Cauchy and Schwarz. *)
Lemma dot_cauchy (u v : Arma.vec) :
  Arma.dot u v * Arma.dot u v <= Arma.dot u u * Arma.dot v v.
Proof.
  revert v. induction u as [|a u IH]; intros [|b v].
  - unfold Arma.dot; simpl; lra.
  - unfold Arma.dot at 1 2 3. simpl. pose proof (dot_self_nonneg (b :: v)). lra.
  - unfold Arma.dot at 1 2 4. simpl. pose proof (dot_self_nonneg (a :: u)). lra.
  - specialize (IH v).
    pose proof (dot_self_nonneg u) as HA. pose proof (dot_self_nonneg v) as HB.
    change (Arma.dot (a :: u) (b :: v)) with (a * b + Arma.dot u v).
    change (Arma.dot (a :: u) (a :: u)) with (a * a + Arma.dot u u).
    change (Arma.dot (b :: v) (b :: v)) with (b * b + Arma.dot v v).
    set (A := Arma.dot u u) in *. set (B := Arma.dot v v) in *.
    set (C := Arma.dot u v) in *.
    assert (H : 2 * (a * b) * C <= a * a * B + b * b * A).
    { destruct (Rle_lt_or_eq_dec 0 A HA) as [HApos|HA0].
      - apply (Rmult_le_reg_l A); [assumption|].
        pose proof (Rle_0_sqr (a * C - b * A)) as Hsq. unfold Rsqr in Hsq.
        assert (a * a * (C * C) <= a * a * (A * B))
          by (apply Rmult_le_compat_l; [nra | assumption]).
        nra.
      - assert (C = 0) by nra. subst C. rewrite H, <- HA0. nra. }
    nra.
Qed.

Lemma gram_entry (A : Arma.mat) (k i j : nat) :
  (i < k)%nat -> (j < k)%nat ->
  nth j (nth i (Arma.mul (Arma.t k A) A k) []) 0
  = Arma.dot (Arma.col_raw i A) (Arma.col_raw j A).
Proof.
  intros Hi Hj. unfold Arma.mul at 1. unfold Arma.t. rewrite map_map.
  rewrite nth_map_seq_gen by assumption. now rewrite nth_map_seq.
Qed.

Lemma nth_mat_div (M : Arma.mat) (x : R) (i j : nat) :
  nth j (nth i (Arma.mat_div M x) []) 0 = nth j (nth i M []) 0 / x.
Proof.
  unfold Arma.mat_div.
  rewrite (map_nth (map (fun y => y / x)) M [] i : nth i (map _ M) [] = _).
  apply nth_row_div.
Qed.

Lemma nth_map_in {A B} (f : A -> B) (l : list A) (d : A) (d' : B) (i : nat) :
  (i < length l)%nat -> nth i (map f l) d' = f (nth i l d).
Proof.
  intros Hi. rewrite (nth_indep _ d' (f d)) by now rewrite length_map.
  apply map_nth.
Qed.

(** A column of the centred matrix of [cor] is the column less its mean. *)
Lemma col_raw_centred (k : nat) (X : Arma.mat) (a : nat) :
  Forall (fun r => length r = k) X -> (a < k)%nat ->
  Arma.col_raw a
    (map (fun r => map (fun p => fst p - snd p)
                       (combine r (map (fun j => Arma.mean (Arma.col_raw j X))
                                       (seq 0 k)))) X)
  = map (fun x => x - Arma.mean (Arma.col_raw a X)) (Arma.col_raw a X).
Proof.
  intros HX Ha. unfold Arma.col_raw at 1 4. rewrite !map_map.
  apply map_ext_in. intros r Hr. rewrite Forall_forall in HX.
  specialize (HX r Hr).
  rewrite (nth_map_in _ _ (0, 0))
    by (rewrite length_combine, length_map, length_seq; lia).
  rewrite combine_nth by (now rewrite length_map, length_seq).
  simpl. now rewrite nth_map_seq.
Qed.

(** An entry of [cor(X)]: the covariance of two columns divided by the
    roots of their variances. *)
Lemma cor_entry (k : nat) (X : Arma.mat) (i j : nat) :
  (2 <= length X)%nat -> (2 <= k)%nat ->
  Forall (fun r => length r = k) X ->
  (i < k)%nat -> (j < k)%nat ->
  let c a := map (fun x => x - Arma.mean (Arma.col_raw a X)) (Arma.col_raw a X) in
  let out a b := Arma.dot (c a) (c b) / INR (length X - 1) in
  nth j (nth i (Arma.cor k X) []) 0 = out i j / (sqrt (out i i) * sqrt (out j j)).
Proof.
  intros HX Hk Hrows Hi Hj c out. unfold Arma.cor.
  destruct (Nat.eqb_spec (length X) 0); [lia|].
  destruct (Nat.eqb_spec k 0); [lia|].
  destruct (Nat.eqb_spec (length X) 1); [lia|].
  destruct (Nat.eqb_spec k 1); [lia|].
  simpl orb. cbv iota zeta.
  rewrite nth_map_seq_gen by assumption.
  rewrite nth_map_seq by assumption.
  rewrite !nth_map_seq by assumption.
  rewrite !nth_mat_div, !gram_entry by assumption.
  rewrite !col_raw_centred by assumption. reflexivity.
Qed.

(** The rows of the transpose of [omat] are its columns; column [i] of
    the transpose is sample [i]. *)
Lemma t_rows (k : nat) (M : Arma.mat) :
  Forall (fun r => length r = length M) (Arma.t k M).
Proof.
  apply Forall_forall. intros r Hr. unfold Arma.t in Hr.
  apply in_map_iff in Hr. destruct Hr as (j & <- & _). apply col_raw_length.
Qed.

Lemma col_raw_t (k : nat) (M : Arma.mat) (i : nat) :
  length (nth i M []) = k -> Arma.col_raw i (Arma.t k M) = nth i M [].
Proof.
  intros Hl. unfold Arma.t, Arma.col_raw at 1. rewrite map_map.
  transitivity (map (fun j => nth j (nth i M []) 0) (seq 0 k)).
  - apply map_ext. intros j. apply nth_col_raw.
  - rewrite <- Hl. apply map_nth_seq.
Qed.

(** ** The descending sort *)

Lemma insert_descend_head (p : Arma.packet) (l : list Arma.packet) :
  hd p (Arma.insert_descend p l) =
  match l with
  | [] => p
  | q :: _ => if Rlt_dec (fst p) (fst q) then q else p
  end.
Proof.
  destruct l as [|q l]; simpl; [reflexivity|].
  destruct (Rlt_dec (fst p) (fst q)); reflexivity.
Qed.

Lemma insert_descend_nonempty (p : Arma.packet) (l : list Arma.packet) :
  Arma.insert_descend p l <> [].
Proof.
  destruct l as [|q l]; simpl; [discriminate|].
  destruct (Rlt_dec (fst p) (fst q)); discriminate.
Qed.

Lemma sorted_head (v : Arma.vec) (a : nat) :
  match fold_right Arma.insert_descend [] (combine v (seq a (length v))) with
  | [] => v = []
  | q :: _ =>
    In q (combine v (seq a (length v))) /\
    (forall r, In r (combine v (seq a (length v))) -> fst r <= fst q) /\
    (forall r, In r (combine v (seq a (length v))) ->
               (snd r < snd q)%nat -> fst r < fst q)
  end.
Proof.
  revert a; induction v as [|x v IH]; intros a; [reflexivity|].
  cbn [length seq combine fold_right].
  specialize (IH (S a)).
  set (l := combine v (seq (S a) (length v))) in *.
  assert (Hidx : forall r, In r l -> (a < snd r)%nat).
  { intros [y j] Hr. apply in_combine_r in Hr. apply in_seq in Hr. simpl. lia. }
  destruct (fold_right Arma.insert_descend [] l) as [|q s] eqn:Hs.
  - subst v. simpl. repeat split.
    + now left.
    + intros r [<-|[]]. simpl. lra.
    + intros r [<-|[]]. simpl. lia.
  - simpl. destruct IH as (Hq & Hmax & Hfirst).
    destruct (Rlt_dec x (fst q)) as [Hlt|Hge].
    + repeat split.
      * now right.
      * intros r [<-|Hr]; [simpl; lra | auto].
      * intros r [<-|Hr] Hj; [simpl; lra | auto].
    + repeat split.
      * now left.
      * intros r [<-|Hr]; [simpl; lra|]. specialize (Hmax r Hr). simpl. lra.
      * intros r [<-|Hr] Hj; simpl in Hj; [lia|].
        specialize (Hidx r Hr). lia.
Qed.

Lemma in_combine_seq (v : Arma.vec) (x : R) (j : nat) :
  In (x, j) (combine v (seq 0 (length v))) <->
  (j < length v)%nat /\ x = nth j v 0.
Proof.
  split.
  - intros H. apply (In_nth _ _ (0, 0%nat)) in H.
    destruct H as (i & Hi & Hn).
    rewrite length_combine, length_seq, Nat.min_id in Hi.
    rewrite combine_nth in Hn by now rewrite length_seq.
    rewrite seq_nth in Hn by assumption. simpl in Hn.
    inversion Hn; subst. auto.
  - intros [Hj ->].
    replace (nth j v 0, j) with (nth j (combine v (seq 0 (length v))) (0, 0%nat)).
    + apply nth_In. now rewrite length_combine, length_seq, Nat.min_id.
    + rewrite combine_nth by now rewrite length_seq.
      now rewrite seq_nth.
Qed.

(** [od(0)] is the first index at which [delta] is largest. *)
Lemma sort_index_head (delta : Arma.vec) (od0 : nat) (rest : list nat) :
  Arma.sort_index_descend delta = od0 :: rest ->
  (od0 < length delta)%nat /\
  (forall j, (j < length delta)%nat -> nth j delta 0 <= nth od0 delta 0) /\
  (forall j, (j < od0)%nat -> nth j delta 0 < nth od0 delta 0).
Proof.
  unfold Arma.sort_index_descend. intros H.
  pose proof (sorted_head delta 0) as Hh.
  destruct (fold_right Arma.insert_descend [] (combine delta (seq 0 (length delta))))
    as [|[x j] s]; [discriminate|].
  simpl in H. inversion H; subst; clear H.
  destruct Hh as (Hq & Hmax & Hfirst).
  apply in_combine_seq in Hq. destruct Hq as [Hj ->].
  split; [assumption|]. split.
  - intros i Hi. apply (Hmax (nth i delta 0, i)). apply in_combine_seq. auto.
  - intros i Hi. apply (Hfirst (nth i delta 0, i)).
    + apply in_combine_seq. split; [lia | reflexivity].
    + assumption.
Qed.

Lemma sort_index_length (delta : Arma.vec) :
  length (Arma.sort_index_descend delta) = length delta.
Proof.
  unfold Arma.sort_index_descend. rewrite length_map.
  assert (H : forall l, length (fold_right Arma.insert_descend [] l) = length l).
  { induction l as [|p l IH]; [reflexivity|]. simpl.
    rewrite <- IH. generalize (fold_right Arma.insert_descend [] l).
    clear. intros s. induction s as [|q s IH]; simpl; [reflexivity|].
    destruct (Rlt_dec (fst p) (fst q)); simpl; auto. }
  transitivity (length (combine delta (seq 0 (length delta)))); [apply H|].
  rewrite length_combine, length_seq. apply Nat.min_id.
Qed.

Lemma sort_index_two (x y : R) :
  x < y -> Arma.sort_index_descend [x; y] = [1; 0]%nat.
Proof.
  intros H. unfold Arma.sort_index_descend. simpl.
  destruct (Rlt_dec x y); [reflexivity | contradiction].
Qed.

Lemma sort_index_two_sorted (x y : R) :
  y <= x -> Arma.sort_index_descend [x; y] = [0; 1]%nat.
Proof.
  intros H. unfold Arma.sort_index_descend. simpl.
  destruct (Rlt_dec x y); [lra | reflexivity].
Qed.

(** ** The closed form of a call *)

Section Loops.

Import Arma.

Lemma read_samples_gen (k : nat) (w : world) (b : nat) :
  forall (a : nat) (pa : vec) (po : mat),
    length pa = a -> length po = a ->
    for_loopM (seq a b)
      (fun i '(aa, omat) =>
         sl <- cube_slice k i ;;
         sq <- lift (schur sl sl) ;;
         tmp <- cube_slice k i ;;
         if (length tmp =? k)%nat
         then ret (upd i (accu sq) aa, upd i tmp omat)
         else lift None)
      (pa ++ repeat 0 b, po ++ repeat (repeat 0 k) b) w =
    (if forallb (fun i => (length (slice_of (rdata (array_ w)) k i) =? k)%nat)
                (seq a b)
     then Some (pa ++ map (fun i => sumsq (slice_of (rdata (array_ w)) k i)) (seq a b),
                po ++ map (slice_of (rdata (array_ w)) k) (seq a b))
     else None, w).
Proof.
  induction b as [|b IH]; intros a pa po Ha Ho.
  - simpl. now rewrite !app_nil_r.
  - cbn [seq for_loopM forallb map repeat].
    unfold bind at 1. unfold bind at 1. unfold cube_slice at 1.
    unfold bind at 1. unfold lift at 1. rewrite schur_same.
    unfold bind at 1. unfold cube_slice at 1.
    fold (slice_of (rdata (array_ w)) k a).
    destruct (length (slice_of (rdata (array_ w)) k a) =? k)%nat eqn:E.
    + unfold ret at 1. rewrite !upd_app_mid by assumption.
      rewrite (app_cons_assoc pa), (app_cons_assoc po).
      rewrite IH by (rewrite length_app; simpl; lia).
      simpl. rewrite <- !app_assoc. reflexivity.
    + reflexivity.
Qed.

Lemma read_samples_run (n k : nat) (w : world) :
  read_samples n k w =
  (if slices_ok (rdata (array_ w)) n k
   then Some (map sumsq (samples_of (rdata (array_ w)) n k),
              samples_of (rdata (array_ w)) n k)
   else None, w).
Proof.
  unfold read_samples.
  pose proof (read_samples_gen k w n 0 [] [] eq_refl eq_refl) as H.
  simpl app in H. rewrite H.
  unfold slices_ok, samples_of. rewrite map_map. reflexivity.
Qed.

End Loops.

Section Run.

Import Arma.

Variable eig_sym : mat -> vec * mat.

Lemma scaleproc_run (w : world) :
  scaleproc eig_sym w = (result_of eig_sym w, world_after eig_sym w).
Proof.
  unfold scaleproc, world_after, result_of.
  unfold bind at 1. unfold arrayDims at 1.
  unfold bind at 1. unfold arrayDims at 1.
  unfold bind at 1. unfold arrayDims at 1.
  unfold bind at 1. rewrite read_samples_run.
  fold (extent w 0) (extent w 1) (extent w 2).
  fold (nn_of w) (kk_of w).
  destruct (slices_ok (rdata (array_ w)) (nn_of w) (kk_of w)); [|reflexivity].
  fold (omat_of w). fold (aa_of w). fold (aasum_of w).
  destruct (kk_of w <? nn_of w)%nat.
  - unfold bind, lift, Rprintf, ret.
    destruct (samples_rich eig_sym (aasum_of w) (aa_of w) (omat_of w)
                (nn_of w) (kk_of w)); reflexivity.
  - unfold lift.
    destruct (feature_rich eig_sym (aasum_of w) (aa_of w) (omat_of w)
                (nn_of w) (kk_of w)); reflexivity.
Qed.

End Run.

Lemma uint_small (z : Z) : (0 <= z < 2 ^ 32)%Z -> uint z = z.
Proof. intros H. unfold uint. now apply Z.mod_small. Qed.

Lemma result_of_branch (eig : Arma.mat -> Arma.vec * Arma.mat) (w : world) :
  result_of eig w =
  if slices_ok (rdata (array_ w)) (nn_of w) (kk_of w) then
    match branch_of w with
    | SamplesRich =>
      samples_rich eig (aasum_of w) (aa_of w) (omat_of w) (nn_of w) (kk_of w)
    | FeatureRich =>
      feature_rich eig (aasum_of w) (aa_of w) (omat_of w) (nn_of w) (kk_of w)
    end
  else None.
Proof.
  unfold result_of, branch_of.
  destruct (slices_ok _ _ _); [|reflexivity].
  destruct (kk_of w <? nn_of w)%nat; reflexivity.
Qed.

Lemma branch_feature_rich (w : world) :
  branch_of w = FeatureRich <-> (nn_of w <= kk_of w)%nat.
Proof.
  unfold branch_of. destruct (Nat.ltb_spec (kk_of w) (nn_of w)); split;
    intros; try discriminate; try reflexivity; lia.
Qed.

Lemma branch_samples_rich (w : world) :
  branch_of w = SamplesRich <-> (kk_of w < nn_of w)%nat.
Proof.
  unfold branch_of. destruct (Nat.ltb_spec (kk_of w) (nn_of w)); split;
    intros; try discriminate; try reflexivity; lia.
Qed.

Lemma result_of_selected (eig : Arma.mat -> Arma.vec * Arma.mat) (w : world) :
  result_of eig w =
  if slices_ok (rdata (array_ w)) (nn_of w) (kk_of w) then
    match selected_column eig w with
    | Some c => weights (aasum_of w) (aa_of w) c
    | None => None
    end
  else None.
Proof.
  rewrite result_of_branch. unfold selected_column.
  destruct (slices_ok _ _ _); [|reflexivity].
  destruct (branch_of w).
  - unfold samples_rich.
    destruct (samples_rich_basis eig (omat_of w) (nn_of w) (kk_of w))
      as [[[[lambda vv] V] delta]|]; [|reflexivity].
    destruct (Arma.sort_index_descend delta); reflexivity.
  - unfold feature_rich.
    destruct (feature_rich_basis eig (omat_of w) (nn_of w) (kk_of w)).
    reflexivity.
Qed.

Lemma weights_spec (aasum : R) (aa c h : Arma.vec) :
  weights aasum aa c = Some h ->
  length c = length aa /\ length h = length aa /\
  forall i, (i < length aa)%nat ->
            nth i h 0 = Rabs (sqrt (aasum / nth i aa 0) * nth i c 0).
Proof.
  unfold weights, Arma.schur. rewrite length_map.
  destruct (Nat.eqb_spec (length aa) (length c)) as [E|E]; [|discriminate].
  intros [= <-]. split; [auto|]. split.
  - rewrite length_map, schur_raw_length; now rewrite length_map.
  - intros i Hi.
    rewrite (nth_indep _ 0 (Rabs 0))
      by (rewrite length_map, schur_raw_length; rewrite length_map; auto).
    rewrite map_nth, schur_raw_nth by now rewrite length_map.
    f_equal. f_equal.
    rewrite (nth_indep _ 0 ((fun a => sqrt (aasum / a)) 0))
      by now rewrite length_map.
    now rewrite (map_nth (fun a => sqrt (aasum / a)) aa 0 i).
Qed.

Lemma weights_nonneg (A : R) (aa c h : Arma.vec) (i : nat) :
  weights A aa c = Some h -> 0 <= nth i h 0.
Proof.
  unfold weights. destruct (Arma.schur _ c) as [x|]; [|discriminate].
  intros [= <-].
  destruct (Nat.lt_ge_cases i (length x)).
  - rewrite (nth_indep _ 0 (Rabs 0)) by now rewrite length_map.
    rewrite map_nth. apply Rabs_pos.
  - rewrite nth_overflow by now rewrite length_map. lra.
Qed.

Lemma sumsq_nonneg (v : Arma.vec) : 0 <= sumsq v.
Proof.
  unfold sumsq. apply accu_nonneg. unfold Arma.schur_raw.
  apply Forall_forall. intros x Hx. apply in_map_iff in Hx.
  destruct Hx as [[a b] [<- Hin]]. simpl.
  assert (a = b) as ->.
  { clear -Hin. induction v as [|y v IH]; simpl in Hin; [easy|].
    destruct Hin as [[= -> ->]|Hin]; auto. }
  nra.
Qed.

Lemma aa_of_nonneg (w : world) : Forall (fun x => 0 <= x) (aa_of w).
Proof.
  unfold aa_of. apply Forall_forall. intros x Hx.
  apply in_map_iff in Hx. destruct Hx as [v [<- _]]. apply sumsq_nonneg.
Qed.

Lemma aa_of_length (w : world) : length (aa_of w) = nn_of w.
Proof.
  unfold aa_of, omat_of, samples_of. now rewrite !length_map, length_seq.
Qed.

Lemma omat_of_length (w : world) : length (omat_of w) = nn_of w.
Proof. unfold omat_of, samples_of. now rewrite length_map, length_seq. Qed.

Lemma slices_ok_spec (data : list R) (n k : nat) :
  slices_ok data n k = true <->
  forall i, (i < n)%nat -> length (slice_of data k i) = k.
Proof.
  unfold slices_ok. rewrite forallb_forall. split.
  - intros H i Hi. apply Nat.eqb_eq, H, in_seq. lia.
  - intros H i Hi. apply Nat.eqb_eq, H. apply in_seq in Hi. lia.
Qed.

Lemma nth_samples_of (data : list R) (n k j : nat) :
  (j < n)%nat -> nth j (samples_of data n k) [] = slice_of data k j.
Proof.
  intros Hj. unfold samples_of. now apply nth_map_seq_gen.
Qed.

(** ** The loops of the samples-rich branch *)

Lemma center_rows_gen (df : R) (rest : Arma.mat) :
  forall (a : nat) (pq : Arma.vec) (po : Arma.mat),
    length pq = a -> length po = a ->
    fold_left
      (fun s i =>
         (fun '(qq, omat) =>
            let r := nth i omat [] in
            (upd i (Arma.var r * df) qq,
             upd i (map (fun x => x - Arma.mean r) r) omat)) s)
      (seq a (length rest)) (pq ++ repeat 0 (length rest), po ++ rest) =
    (pq ++ map (fun r => Arma.var r * df) rest,
     po ++ map (fun r => map (fun x => x - Arma.mean r) r) rest).
Proof.
  induction rest as [|r rest IH]; intros a pq po Hq Ho.
  - reflexivity.
  - cbn [length seq fold_left repeat map].
    rewrite (nth_app_mid po rest a r []) by assumption.
    rewrite !upd_app_mid by assumption.
    rewrite (app_cons_assoc pq), (app_cons_assoc po).
    rewrite IH by (rewrite length_app; simpl; lia).
    now rewrite <- !app_assoc.
Qed.

Lemma center_rows_closed (nn : nat) (df : R) (omat : Arma.mat) :
  length omat = nn ->
  center_rows nn df omat =
  (map (fun r => Arma.var r * df) omat,
   map (fun r => map (fun x => x - Arma.mean r) r) omat).
Proof.
  intros <-. unfold center_rows, for_loop.
  apply (center_rows_gen df omat 0 [] []); reflexivity.
Qed.

Lemma positive_spec (x : R) : positive x = true <-> 0 < x.
Proof.
  unfold positive. destruct (Rlt_dec 0 x); split; intros; try assumption;
    try reflexivity; [discriminate | contradiction].
Qed.

Lemma forallb_map_comp {A B} (f : B -> bool) (g : A -> B) (l : list A) :
  forallb f (map g l) = forallb (fun x => f (g x)) l.
Proof.
  induction l as [|x l IH]; simpl; [reflexivity | now rewrite IH].
Qed.

Lemma rows_vary_spec (df : R) (omat : Arma.mat) :
  rows_vary df omat = true <-> forall r, In r omat -> 0 < Arma.var r * df.
Proof.
  unfold rows_vary. rewrite forallb_forall. split; intros H r Hr.
  - now apply positive_spec, H.
  - now apply positive_spec, H.
Qed.

Lemma scaled_rows_closed (df : R) (omat : Arma.mat) :
  map (fun p => map (fun x => sqrt (1 / fst p) * x) (snd p))
      (combine (map (fun r => Arma.var r * df) omat)
               (map (fun r => map (fun x => x - Arma.mean r) r) omat))
  = map (standardise df) omat.
Proof.
  unfold standardise.
  induction omat as [|r omat IH]; simpl; [reflexivity|].
  f_equal; [now rewrite map_map | exact IH].
Qed.

Lemma standardise_closed (nn : nat) (df : R) (omat : Arma.mat) :
  length omat = nn ->
  (let '(qq, om) := center_rows nn df omat in scale_rows qq om)
  = if rows_vary df omat then Some (map (standardise df) omat) else None.
Proof.
  intros H. rewrite center_rows_closed by assumption.
  unfold scale_rows, rows_vary. rewrite forallb_map_comp.
  destruct (forallb (fun r => positive (Arma.var r * df)) omat); [|reflexivity].
  now rewrite scaled_rows_closed.
Qed.

Lemma standardise_length (df : R) (r : Arma.vec) :
  length (standardise df r) = length r.
Proof. apply length_map. Qed.

Lemma standardised_rows (w : world) :
  slices_ok (rdata (array_ w)) (nn_of w) (kk_of w) = true ->
  Forall (fun r => length r = kk_of w)
         (map (standardise ((INR (nn_of w) - 1) / INR (nn_of w))) (omat_of w)).
Proof.
  intros Hok. rewrite slices_ok_spec in Hok.
  apply Forall_forall. intros r Hr. apply in_map_iff in Hr.
  destruct Hr as (r0 & <- & Hr0). rewrite standardise_length.
  unfold omat_of, samples_of in Hr0. apply in_map_iff in Hr0.
  destruct Hr0 as (i & <- & Hi). apply in_seq in Hi. apply Hok. lia.
Qed.

Lemma normalised_row_snoc (vs : Arma.vec) (n : R) (r : list R) :
  upd (length vs) (nth (length vs) r 0 / n) (normalised_row vs r)
  = normalised_row (vs ++ [n]) r.
Proof.
  revert r; induction vs as [|v vs IH]; intros [|x r]; simpl; auto.
  f_equal. apply IH.
Qed.

Lemma normalised_row_nth (vv : Arma.vec) (r : list R) (j : nat) :
  nth j (normalised_row vv r) 0 =
  if (j <? length vv)%nat then nth j r 0 / nth j vv 0 else nth j r 0.
Proof.
  revert r j; induction vv as [|v vv IH]; intros r j.
  - destruct r; reflexivity.
  - destruct r as [|x r]; destruct j as [|j]; simpl.
    + unfold Rdiv; ring.
    + destruct (S j <? S (length vv))%nat; [unfold Rdiv; ring | reflexivity].
    + reflexivity.
    + rewrite IH. reflexivity.
Qed.

Lemma normalised_row_length (vv : Arma.vec) (r : list R) :
  length (normalised_row vv r) = length r.
Proof.
  revert r; induction vv as [|v vv IH]; intros [|x r]; simpl; auto.
Qed.

Lemma col_raw_normalised (vs : Arma.vec) (V : Arma.mat) :
  Arma.col_raw (length vs) (map (normalised_row vs) V)
  = Arma.col_raw (length vs) V.
Proof.
  unfold Arma.col_raw. rewrite map_map. apply map_ext. intros r.
  rewrite normalised_row_nth, Nat.ltb_irrefl. reflexivity.
Qed.

Lemma normalise_cols_steps (kk : nat) (V : Arma.mat) (i : nat) :
  (i <= kk)%nat ->
  for_loop i
    (fun i '(vv, V) =>
       let n := sqrt (Arma.dot (Arma.col_raw i V) (Arma.col_raw i V)) in
       (upd i n vv, set_col i (map (fun x => x / n) (Arma.col_raw i V)) V))
    (repeat 0 kk, V) =
  (map (fun j => col_norm j V) (seq 0 i) ++ repeat 0 (kk - i),
   map (normalised_row (map (fun j => col_norm j V) (seq 0 i))) V).
Proof.
  induction i as [|i IH]; intros Hi.
  - unfold for_loop. simpl. rewrite Nat.sub_0_r. f_equal.
    rewrite <- (map_id V) at 1. apply map_ext. now intros [|x r].
  - rewrite for_loop_S, IH by lia. clear IH.
    set (vs := map (fun j => col_norm j V) (seq 0 i)).
    assert (Hvs : length vs = i) by (unfold vs; now rewrite length_map, length_seq).
    assert (Hc : Arma.col_raw i (map (normalised_row vs) V) = Arma.col_raw i V).
    { rewrite <- Hvs. apply col_raw_normalised. }
    cbv zeta. rewrite Hc. fold (col_norm i V). f_equal.
    + replace (kk - i)%nat with (S (kk - S i)) by lia. simpl repeat.
      rewrite upd_app_mid by assumption.
      rewrite seq_S, map_app, <- app_assoc. reflexivity.
    + unfold set_col, Arma.col_raw. rewrite !map_map.
      assert (E : forall (l : Arma.mat) (g : list R -> R),
                 map (fun p => upd i (snd p) (fst p))
                     (combine (map (normalised_row vs) l) (map g l))
                 = map (fun r => upd i (g r) (normalised_row vs r)) l).
      { intros l g. induction l; simpl; congruence. }
      rewrite E. apply map_ext. intros r.
      rewrite seq_S, map_app. simpl. fold vs.
      rewrite <- Hvs at 1 2. apply normalised_row_snoc.
Qed.

Lemma normalise_cols_closed (kk : nat) (V : Arma.mat) :
  normalise_cols kk V =
  (map (fun j => col_norm j V) (seq 0 kk),
   map (normalised_row (map (fun j => col_norm j V) (seq 0 kk))) V).
Proof.
  unfold normalise_cols.
  pose proof (normalise_cols_steps kk V kk (Nat.le_refl kk)) as H.
  rewrite Nat.sub_diag, app_nil_r in H. exact H.
Qed.

Lemma col_raw_normalised_row (vv : Arma.vec) (V0 : Arma.mat) (j : nat) :
  (j < length vv)%nat ->
  Arma.col_raw j (map (normalised_row vv) V0)
  = map (fun x => x / nth j vv 0) (Arma.col_raw j V0).
Proof.
  intros Hj. unfold Arma.col_raw. rewrite !map_map. apply map_ext. intros r.
  rewrite normalised_row_nth.
  destruct (Nat.ltb_spec j (length vv)); [reflexivity | lia].
Qed.

(** After the loop of lines 60 to 63, a column whose norm before the
    loop was positive has norm 1. *)
Lemma normalise_cols_unit (kk : nat) (V0 V : Arma.mat) (vv : Arma.vec) (j : nat) :
  normalise_cols kk V0 = (vv, V) ->
  (j < kk)%nat ->
  nth j vv 0 = col_norm j V0 /\
  (0 < nth j vv 0 -> Arma.dot (Arma.col_raw j V) (Arma.col_raw j V) = 1).
Proof.
  rewrite normalise_cols_closed. intros [= <- <-] Hj.
  assert (Hn : nth j (map (fun j => col_norm j V0) (seq 0 kk)) 0 = col_norm j V0).
  { rewrite (nth_indep _ 0 (col_norm kk V0)) by now rewrite length_map, length_seq.
    rewrite (map_nth (fun j => col_norm j V0) (seq 0 kk) kk j).
    now rewrite seq_nth. }
  split; [assumption|]. intros Hpos.
  rewrite col_raw_normalised_row by now rewrite length_map, length_seq.
  rewrite dot_div_self. rewrite Hn in *. unfold col_norm in *.
  rewrite sqrt_pos_sqr by assumption.
  apply Rinv_l. intros E. rewrite E, sqrt_0 in Hpos. lra.
Qed.

(** ** The two branches *)

Lemma samples_rich_basis_closed (eig : Arma.mat -> Arma.vec * Arma.mat)
    (omat : Arma.mat) (nn kk : nat) :
  length omat = nn ->
  samples_rich_basis eig omat nn kk =
  if rows_vary ((INR nn - 1) / INR nn) omat
  then eigen_basis eig (map (standardise ((INR nn - 1) / INR nn)) omat) kk
  else None.
Proof.
  intros H. unfold samples_rich_basis.
  pose proof (standardise_closed nn ((INR nn - 1) / INR nn) omat H) as Hc.
  destruct (center_rows nn ((INR nn - 1) / INR nn) omat) as [qq om].
  rewrite Hc. now destruct (rows_vary _ omat).
Qed.

(** A basis is returned for samples of positive variance only. *)
Lemma samples_rich_basis_some (eig : Arma.mat -> Arma.vec * Arma.mat)
    (omat : Arma.mat) (nn kk : nat) (b : Arma.vec * Arma.vec * Arma.mat * Arma.vec) :
  length omat = nn ->
  samples_rich_basis eig omat nn kk = Some b ->
  rows_vary ((INR nn - 1) / INR nn) omat = true /\
  eigen_basis eig (map (standardise ((INR nn - 1) / INR nn)) omat) kk = Some b.
Proof.
  intros H Hb. rewrite samples_rich_basis_closed in Hb by assumption.
  destruct (rows_vary _ omat); [now split | discriminate].
Qed.

(** What [eigen_basis] returns, in terms of what the solver returned. *)
Lemma eigen_basis_inv (eig : Arma.mat -> Arma.vec * Arma.mat)
    (Z : Arma.mat) (kk : nat) (lambda vv : Arma.vec) (V : Arma.mat)
    (delta : Arma.vec) :
  eigen_basis eig Z kk = Some (lambda, vv, V, delta) ->
  let Lmat := Arma.mul (Arma.t kk Z) (Arma.mat_div Z (INR kk)) kk in
  let usort := map (fun i => (kk - 1 - i)%nat) (seq 0 kk) in
  let U := map (fun r => map (fun j => nth j r 0) usort) (snd (eig Lmat)) in
  let V0 := Arma.mul Z U kk in
  length (fst (eig Lmat)) = kk /\
  length (snd (eig Lmat)) = kk /\
  lambda = map (fun j => nth j (fst (eig Lmat)) 0) usort /\
  vv = map (fun j => col_norm j V0) (seq 0 kk) /\
  V = map (normalised_row vv) V0 /\
  delta = Arma.schur_raw (map (fun x => sqrt (Rabs (x / INR kk))) lambda) vv /\
  length delta = kk.
Proof.
  intros H Lmat. cbv zeta. unfold eigen_basis in H. fold Lmat in H.
  destruct (eig Lmat) as [l0 U0]. simpl fst. simpl snd.
  destruct (forallb _ _); simpl negb in H; cbv iota in H; [|discriminate].
  unfold Arma.n_rows in H. rewrite length_map in H.
  destruct (Nat.eqb_spec kk (length U0)) as [HU|]; simpl negb in H; cbv iota in H;
    [|discriminate].
  destruct (Nat.leb_spec kk (length l0)) as [Hle|]; simpl negb in H; cbv iota in H;
    [|discriminate].
  rewrite normalise_cols_closed in H.
  destruct (Arma.schur _ _) as [d|] eqn:Hs; [|discriminate].
  apply schur_spec in Hs. destruct Hs as (Hlen & Hd & Hdl).
  rewrite !length_map, !length_seq in Hlen.
  rewrite !length_map, length_seq in Hdl.
  inversion H; subst; clear H.
  repeat split; auto.
Qed.

Lemma eigen_basis_rows (eig : Arma.mat -> Arma.vec * Arma.mat)
    (Z : Arma.mat) (kk : nat) (lambda vv : Arma.vec) (V : Arma.mat)
    (delta : Arma.vec) :
  eigen_basis eig Z kk = Some (lambda, vv, V, delta) ->
  length V = length Z /\ Forall (fun r => length r = kk) V.
Proof.
  intros H. apply eigen_basis_inv in H. cbv zeta in H.
  destruct H as (_ & _ & _ & _ & HV & _ & _). subst V.
  unfold Arma.mul. split.
  - now rewrite !length_map.
  - apply Forall_forall. intros r Hr. apply in_map_iff in Hr.
    destruct Hr as (r0 & <- & Hr0). rewrite normalised_row_length.
    apply in_map_iff in Hr0. destruct Hr0 as (z & <- & _).
    now rewrite length_map, length_seq.
Qed.

(** In the samples-rich branch the column of [V] that is scaled into
    the weights is column [od(0)], the first column at which [delta] is
    largest. *)
Lemma samples_rich_selected (eig : Arma.mat -> Arma.vec * Arma.mat)
    (w : world) (h : Arma.vec) :
  branch_of w = SamplesRich ->
  fst (scaleproc eig w) = Some h ->
  exists lambda vv V delta od0 rest,
    samples_rich_basis eig (omat_of w) (nn_of w) (kk_of w)
    = Some (lambda, vv, V, delta) /\
    Arma.sort_index_descend delta = od0 :: rest /\
    (od0 < length delta)%nat /\
    (forall j, (j < length delta)%nat -> nth j delta 0 <= nth od0 delta 0) /\
    (forall j, (j < od0)%nat -> nth j delta 0 < nth od0 delta 0) /\
    selected_column eig w = Arma.col od0 V /\
    length h = nn_of w /\
    forall i, (i < nn_of w)%nat ->
      nth i h 0 = Rabs (sqrt (aasum_of w / nth i (aa_of w) 0) * nth od0 (nth i V []) 0).
Proof.
  intros Hb Hh. rewrite scaleproc_run in Hh. simpl fst in Hh.
  rewrite result_of_selected in Hh.
  destruct (slices_ok _ _ _); [|discriminate].
  unfold selected_column in *. rewrite Hb in *.
  destruct (samples_rich_basis eig (omat_of w) (nn_of w) (kk_of w))
    as [[[[lambda vv] V] delta]|]; [|discriminate].
  destruct (Arma.sort_index_descend delta) as [|od0 rest] eqn:Hod; [discriminate|].
  exists lambda, vv, V, delta, od0, rest.
  destruct (sort_index_head _ _ _ Hod) as (H1 & H2 & H3).
  destruct (Arma.col od0 V) as [c|] eqn:Hc; [|discriminate].
  apply weights_spec in Hh. destruct Hh as (_ & Hlen & Hnth).
  apply col_spec in Hc. destruct Hc as (_ & _ & Hc).
  rewrite aa_of_length in *.
  repeat split; auto.
  intros i Hi. rewrite Hnth by assumption. now rewrite Hc.
Qed.

(** In the feature-rich branch the weights returned are those of
    column 1 of [eigvec]. *)
Lemma feature_rich_selected (eig : Arma.mat -> Arma.vec * Arma.mat)
    (w : world) (h : Arma.vec) :
  branch_of w = FeatureRich ->
  fst (scaleproc eig w) = Some h ->
  let zz := Arma.cor (nn_of w) (Arma.t (kk_of w) (omat_of w)) in
  let eigvec := snd (eig zz) in
  feature_rich_basis eig (omat_of w) (nn_of w) (kk_of w) = (1%nat, eigvec) /\
  selected_column eig w = Arma.col 1 eigvec /\
  length h = nn_of w /\
  forall i, (i < nn_of w)%nat ->
    nth i h 0 = Rabs (sqrt (aasum_of w / nth i (aa_of w) 0) * nth 1 (nth i eigvec []) 0).
Proof.
  intros Hb Hh zz eigvec.
  assert (Hbasis : feature_rich_basis eig (omat_of w) (nn_of w) (kk_of w)
                   = (1%nat, eigvec)).
  { unfold feature_rich_basis. fold zz. subst eigvec.
    destruct (eig zz); reflexivity. }
  assert (Hsel : selected_column eig w = Arma.col 1 eigvec).
  { unfold selected_column. rewrite Hb, Hbasis. reflexivity. }
  split; [assumption|]. split; [assumption|].
  rewrite scaleproc_run in Hh. simpl fst in Hh.
  rewrite result_of_selected, Hsel in Hh.
  destruct (slices_ok _ _ _); [|discriminate].
  destruct (Arma.col 1 eigvec) as [c|] eqn:Hc; [|discriminate].
  apply weights_spec in Hh. destruct Hh as (_ & Hlen & Hnth).
  apply col_spec in Hc. destruct Hc as (_ & _ & Hc).
  rewrite aa_of_length in *. split; [assumption|].
  intros i Hi. rewrite Hnth by assumption. now rewrite Hc.
Qed.

(** ** When a call returns *)

Lemma Lmat_of_length (w : world) : length (Lmat_of w) = kk_of w.
Proof.
  unfold Lmat_of, Arma.mul, Arma.t. now rewrite !length_map, length_seq.
Qed.

Lemma eigen_basis_total (eig : Arma.mat -> Arma.vec * Arma.mat)
    (Z : Arma.mat) (kk : nat) :
  (1 <= kk)%nat ->
  eig_sized eig (Arma.mul (Arma.t kk Z) (Arma.mat_div Z (INR kk)) kk) ->
  exists lambda vv V delta, eigen_basis eig Z kk = Some (lambda, vv, V, delta).
Proof.
  intros Hk (Hl & Hrows & Hcols). unfold eigen_basis.
  set (Lmat := Arma.mul (Arma.t kk Z) (Arma.mat_div Z (INR kk)) kk) in *.
  assert (HL : length Lmat = kk).
  { unfold Lmat, Arma.mul, Arma.t. now rewrite !length_map, length_seq. }
  rewrite HL in *.
  destruct (eig Lmat) as [l0 U0]. simpl in Hl, Hrows, Hcols.
  assert (Hnc : Arma.n_cols U0 = kk).
  { apply n_cols_uniform; [|assumption]. destruct U0; simpl in Hrows; [lia|discriminate]. }
  rewrite Hl, Hnc.
  assert (Hf : forallb (fun j => (j <? kk)%nat)
                       (map (fun i => (kk - 1 - i)%nat) (seq 0 kk)) = true).
  { apply forallb_forall. intros j Hj. apply in_map_iff in Hj.
    destruct Hj as (i & <- & Hi). apply in_seq in Hi. apply Nat.ltb_lt. lia. }
  rewrite Hf. simpl negb. cbv iota.
  unfold Arma.n_rows. rewrite length_map, Hrows, Nat.eqb_refl. simpl negb. cbv iota.
  rewrite Nat.leb_refl. simpl negb. cbv iota.
  rewrite normalise_cols_closed.
  unfold Arma.schur. rewrite !length_map, !length_seq, Nat.eqb_refl.
  eauto.
Qed.

(** With at least two samples, samples that vary pass line 45. *)
Lemma samples_vary_rows (w : world) :
  (2 <= nn_of w)%nat -> samples_vary w ->
  rows_vary ((INR (nn_of w) - 1) / INR (nn_of w)) (omat_of w) = true.
Proof.
  intros Hn Hv. apply rows_vary_spec. intros r Hr.
  apply (In_nth _ _ []) in Hr. destruct Hr as (i & Hi & <-).
  rewrite omat_of_length in Hi.
  assert (HN : INR 2 <= INR (nn_of w)) by (apply le_INR; lia). simpl in HN.
  apply Rmult_lt_0_compat; [now apply Hv|].
  apply Rdiv_lt_0_compat; lra.
Qed.

Lemma var_nonneg (r : Arma.vec) : 0 <= Arma.var r.
Proof.
  unfold Arma.var. destruct (Nat.ltb_spec (length r) 2); [lra|].
  apply Rmult_le_pos; [apply accu_squares_nonneg|].
  apply Rlt_le, Rinv_0_lt_compat, lt_0_INR. lia.
Qed.

Lemma rows_vary_samples (w : world) :
  rows_vary ((INR (nn_of w) - 1) / INR (nn_of w)) (omat_of w) = true ->
  samples_vary w.
Proof.
  intros Hv i Hi. rewrite rows_vary_spec in Hv.
  specialize (Hv (nth i (omat_of w) [])
                 ltac:(apply nth_In; now rewrite omat_of_length)).
  destruct (Rle_lt_or_eq_dec _ _ (var_nonneg (nth i (omat_of w) []))) as [|E];
    [assumption|].
  rewrite <- E in Hv. lra.
Qed.

Lemma samples_rich_total (eig : Arma.mat -> Arma.vec * Arma.mat) (w : world) :
  (1 <= kk_of w)%nat -> (kk_of w < nn_of w)%nat ->
  samples_vary w ->
  eig_sized eig (Lmat_of w) ->
  exists h, samples_rich eig (aasum_of w) (aa_of w) (omat_of w) (nn_of w) (kk_of w)
            = Some h.
Proof.
  intros Hk Hn Hvary Hs. unfold samples_rich.
  rewrite samples_rich_basis_closed by apply omat_of_length.
  rewrite samples_vary_rows by (assumption || lia).
  destruct (eigen_basis_total eig _ (kk_of w) Hk Hs) as (lambda & vv & V & delta & E).
  rewrite E.
  pose proof (eigen_basis_rows _ _ _ _ _ _ _ E) as (HV & Hrows).
  rewrite length_map, omat_of_length in HV.
  apply eigen_basis_inv in E. cbv zeta in E.
  destruct E as (_ & _ & _ & _ & _ & _ & Hd).
  destruct (Arma.sort_index_descend delta) as [|od0 rest] eqn:Hod.
  { pose proof (sort_index_length delta) as Hsl. rewrite Hod, Hd in Hsl.
    simpl in Hsl. lia. }
  apply sort_index_head in Hod. destruct Hod as (Hlt & _).
  unfold Arma.col.
  rewrite (n_cols_uniform V (kk_of w)); [|destruct V; simpl in HV; [lia|discriminate]|assumption].
  destruct (Nat.ltb_spec od0 (kk_of w)); [|lia].
  unfold weights, Arma.schur.
  rewrite length_map, aa_of_length, col_raw_length, HV, Nat.eqb_refl.
  eauto.
Qed.

Lemma zz_of_length (w : world) :
  (2 <= nn_of w)%nat -> (nn_of w <= kk_of w)%nat -> length (zz_of w) = nn_of w.
Proof.
  intros Hn Hk. unfold zz_of, Arma.cor.
  assert (Hl : length (Arma.t (kk_of w) (omat_of w)) = kk_of w)
    by (unfold Arma.t; now rewrite length_map, length_seq).
  rewrite Hl.
  destruct (Nat.eqb_spec (kk_of w) 0); [lia|].
  destruct (Nat.eqb_spec (nn_of w) 0); [lia|].
  destruct (Nat.eqb_spec (kk_of w) 1); [lia|].
  destruct (Nat.eqb_spec (nn_of w) 1); [lia|].
  simpl orb. cbv iota. now rewrite length_map, length_seq.
Qed.

Lemma feature_rich_total (eig : Arma.mat -> Arma.vec * Arma.mat) (w : world) :
  (2 <= nn_of w)%nat -> (nn_of w <= kk_of w)%nat ->
  eig_sized eig (zz_of w) ->
  exists h, feature_rich eig (aasum_of w) (aa_of w) (omat_of w) (nn_of w) (kk_of w)
            = Some h.
Proof.
  intros Hn Hk (_ & Hrows & Hcols).
  rewrite zz_of_length in * by assumption.
  unfold feature_rich, feature_rich_basis. fold (zz_of w).
  destruct (eig (zz_of w)) as [eigval eigvec]. simpl in Hrows, Hcols.
  unfold Arma.col.
  rewrite (n_cols_uniform eigvec (nn_of w));
    [|destruct eigvec; simpl in Hrows; [lia|discriminate]|assumption].
  simpl Arma.sz_cols.
  destruct (Nat.ltb_spec 1 (nn_of w)); [|lia].
  unfold weights, Arma.schur.
  rewrite length_map, aa_of_length, col_raw_length, Hrows, Nat.eqb_refl.
  eauto.
Qed.

Lemma eig_identity_wf : eig_wf eig_identity.
Proof.
  intros M. unfold eig_sized, eig_identity, identity. simpl.
  rewrite !length_map, length_seq. repeat split.
  apply Forall_forall. intros r Hr. apply in_map_iff in Hr.
  destruct Hr as [i [<- _]]. now rewrite length_map, length_seq.
Qed.

(** The part of C4 that the code keeps.  With at least one feature, a
    buffer that holds the cube, samples that vary and a solver that
    returns matrices of the right size, a call returns a vector of [N]
    weights, none of them negative, when [N > K] or [2 <= N <= K]. *)
Theorem scaleproc_returns_weights (eig : Arma.mat -> Arma.vec * Arma.mat)
    (w : world) :
  slices_ok (rdata (array_ w)) (nn_of w) (kk_of w) = true ->
  (1 <= kk_of w)%nat ->
  samples_vary w ->
  ((kk_of w < nn_of w)%nat /\ eig_sized eig (Lmat_of w)) \/
  ((2 <= nn_of w <= kk_of w)%nat /\ eig_sized eig (zz_of w)) ->
  exists h, fst (scaleproc eig w) = Some h /\
    length h = nn_of w /\ forall i, 0 <= nth i h 0.
Proof.
  intros Hok Hk Hvary Hcase. rewrite scaleproc_run. simpl fst.
  assert (Hr : exists h, result_of eig w = Some h).
  { unfold result_of. rewrite Hok.
    destruct Hcase as [[Hn Hs]|[[Hn Hn'] Hs]].
    - destruct (Nat.ltb_spec (kk_of w) (nn_of w)); [|lia].
      now apply samples_rich_total.
    - destruct (Nat.ltb_spec (kk_of w) (nn_of w)); [lia|].
      now apply feature_rich_total. }
  destruct Hr as [h Hh]. exists h. split; [assumption|].
  rewrite result_of_selected, Hok in Hh.
  destruct (selected_column eig w) as [c|]; [|discriminate].
  split.
  - apply weights_spec in Hh. destruct Hh as (_ & Hl & _).
    now rewrite Hl, aa_of_length.
  - intros i. eapply weights_nonneg, Hh.
Qed.

(** ** A solver that is exact *)

Section Projection.

Variable Z : Arma.mat.
Variable K : nat.
Hypothesis K_pos : (1 <= K)%nat.
Hypothesis Z_rows : Forall (fun r => length r = K) Z.

Lemma Lmat_row (a : nat) :
  (a < K)%nat ->
  nth a (Arma.mul (Arma.t K Z) (Arma.mat_div Z (INR K)) K) [] =
  map (fun b => Arma.dot (Arma.col_raw a Z) (Arma.col_raw b (Arma.mat_div Z (INR K))))
      (seq 0 K).
Proof.
  intros Ha. unfold Arma.mul at 1. unfold Arma.t. rewrite map_map.
  now rewrite nth_map_seq_gen.
Qed.

Lemma Lmat_entry (a b : nat) :
  (a < K)%nat -> (b < K)%nat ->
  INR K * nth b (nth a (Arma.mul (Arma.t K Z) (Arma.mat_div Z (INR K)) K) []) 0 = rsum (length Z) (fun i => nth a (nth i Z []) 0 * nth b (nth i Z []) 0).
Proof.
  intros Ha Hb. rewrite Lmat_row by assumption.
  rewrite nth_map_seq by assumption.
  rewrite dot_rsum by (unfold Arma.mat_div; now rewrite !col_raw_length, length_map).
  rewrite col_raw_length, <- rsum_scal. apply rsum_ext. intros i Hi.
  rewrite !nth_col_raw. unfold Arma.mat_div.
  rewrite (map_nth (map (fun y => y / INR K)) Z [] i : nth i (map _ Z) [] = _).
  rewrite nth_row_div. field.
  apply not_0_INR. lia.
Qed.

Lemma row_length (i : nat) : (i < length Z)%nat -> length (nth i Z []) = K.
Proof.
  intros Hi. rewrite Forall_forall in Z_rows. now apply Z_rows, nth_In.
Qed.

(** The squared norm of the projection of the rows on a unit
    eigenvector of [Lmat] is [K] times its eigenvalue. *)
Lemma projection_norm (u : Arma.vec) (lam : R) :
  length u = K ->
  (forall a, (a < K)%nat -> Arma.dot (nth a (Arma.mul (Arma.t K Z) (Arma.mat_div Z (INR K)) K) []) u = lam * nth a u 0) ->
  Arma.dot u u = 1 ->
  Arma.accu (map (fun r : list R => Arma.dot r u * Arma.dot r u) Z) = INR K * lam.
Proof.
  intros Hu Heig Hunit.
  rewrite (accu_map_rsum _ []).
  rewrite (rsum_ext _ _
    (fun i => rsum K (fun a => rsum K (fun b => (nth a (nth i Z []) 0 * nth a u 0) * (nth b (nth i Z []) 0 * nth b u 0))))).
  2:{ intros i Hi. rewrite dot_rsum by (rewrite row_length; auto).
      rewrite row_length by assumption. apply rsum_mult. }
  rewrite rsum_swap.
  rewrite (rsum_ext _ _ (fun a => nth a u 0 * (INR K * (lam * nth a u 0)))).
  2:{ intros a Ha. rewrite rsum_swap.
      rewrite (rsum_ext _ _
        (fun b => nth a u 0 * (INR K * (nth b (nth a (Arma.mul (Arma.t K Z) (Arma.mat_div Z (INR K)) K) []) 0 * nth b u 0)))).
      2:{ intros b Hb.
          rewrite (rsum_ext _ _ (fun i => (nth a u 0 * nth b u 0) * (nth a (nth i Z []) 0 * nth b (nth i Z []) 0)))
            by (intros; ring).
          rewrite rsum_scal, <- Lmat_entry by assumption. ring. }
      rewrite rsum_scal, rsum_scal. f_equal. f_equal.
      rewrite <- Heig by assumption.
      rewrite dot_rsum by (rewrite Lmat_row, length_map, length_seq; auto).
      rewrite Lmat_row by assumption. now rewrite length_map, length_seq. }
  rewrite (rsum_ext _ _ (fun a => (INR K * lam) * (nth a u 0 * nth a u 0)))
    by (intros; ring).
  rewrite rsum_scal. rewrite dot_rsum in Hunit by reflexivity.
  rewrite Hu in Hunit. rewrite Hunit. ring.
Qed.

End Projection.

(** With exact eigenpairs, [delta] is the list of the eigenvalues in
    reversed order. *)
Lemma exact_delta (eig : Arma.mat -> Arma.vec * Arma.mat)
    (Z : Arma.mat) (kk : nat) (lambda vv : Arma.vec) (V : Arma.mat)
    (delta : Arma.vec) :
  (1 <= kk)%nat ->
  Forall (fun r => length r = kk) Z ->
  eigen_basis eig Z kk = Some (lambda, vv, V, delta) ->
  let Lmat := Arma.mul (Arma.t kk Z) (Arma.mat_div Z (INR kk)) kk in
  eigenpairs Lmat (fst (eig Lmat)) (snd (eig Lmat)) ->
  forall j, (j < kk)%nat ->
    nth j lambda 0 = nth (kk - 1 - j) (fst (eig Lmat)) 0 /\
    nth j vv 0 = sqrt (INR kk * nth j lambda 0) /\
    nth j delta 0 = nth j lambda 0.
Proof.
  intros Hk Hrows Hb Lmat Hex j Hj.
  apply eigen_basis_inv in Hb. cbv zeta in Hb. fold Lmat in Hb.
  destruct Hb as (Hl0 & HU0 & Hlam & Hvv & _ & Hdelta & Hdl).
  assert (HL : length Lmat = kk).
  { unfold Lmat, Arma.mul, Arma.t. now rewrite !length_map, length_seq. }
  destruct Hex as (_ & _ & _ & Hpairs). rewrite HL in Hpairs.
  set (l0 := fst (eig Lmat)) in *. set (U0 := snd (eig Lmat)) in *.
  set (usort := map (fun i => (kk - 1 - i)%nat) (seq 0 kk)) in *.
  assert (Hus : nth j usort 0%nat = (kk - 1 - j)%nat)
    by exact (nth_map_seq_gen (fun i => (kk - 1 - i)%nat) 0%nat kk j Hj).
  assert (Hlus : length usort = kk) by (unfold usort; now rewrite length_map, length_seq).
  assert (Hlj : nth j lambda 0 = nth (kk - 1 - j) l0 0).
  { rewrite Hlam, <- Hus.
    rewrite (nth_indep _ 0 ((fun j => nth j l0 0) 0%nat))
      by (rewrite length_map, Hlus; exact Hj).
    apply (map_nth (fun j => nth j l0 0) usort 0%nat j). }
  destruct (Hpairs (kk - 1 - j)%nat ltac:(lia)) as (Hunit & Heig).
  set (u := Arma.col_raw (kk - 1 - j) U0) in *.
  assert (Hcol : Arma.col_raw j
                   (Arma.mul Z (map (fun r => map (fun j => nth j r 0) usort) U0) kk)
                 = map (fun r : list R => Arma.dot r u) Z).
  { unfold Arma.mul, Arma.col_raw at 1. rewrite map_map. apply map_ext. intros r.
    rewrite nth_map_seq by assumption. f_equal.
    unfold u, Arma.col_raw. rewrite map_map. apply map_ext. intros r'.
    rewrite <- Hus.
    rewrite (nth_indep _ 0 ((fun j => nth j r' 0) 0%nat))
      by (rewrite length_map, Hlus; exact Hj).
    apply (map_nth (fun j => nth j r' 0) usort 0%nat j). }
  assert (Hnorm : Arma.accu (map (fun r : list R => Arma.dot r u * Arma.dot r u) Z)
                  = INR kk * nth j lambda 0).
  { rewrite Hlj. apply (projection_norm Z kk Hk Hrows u).
    - unfold u. now rewrite col_raw_length.
    - intros a Ha. fold Lmat. rewrite Heig by assumption. reflexivity.
    - assumption. }
  assert (Hvj : nth j vv 0 = sqrt (INR kk * nth j lambda 0)).
  { rewrite Hvv, nth_map_seq by assumption. unfold col_norm.
    rewrite Hcol, dot_self, map_map, Hnorm. reflexivity. }
  split; [assumption|]. split; [assumption|].
  assert (HK : 0 < INR kk) by (apply lt_0_INR; lia).
  assert (Hpos : 0 <= nth j lambda 0).
  { pose proof (accu_squares_nonneg (fun r : list R => Arma.dot r u) Z) as H.
    cbv beta in H. rewrite Hnorm in H. nra. }
  assert (Hll : length lambda = kk) by (rewrite Hlam, length_map; exact Hlus).
  assert (Hlv : length vv = kk) by (rewrite Hvv, length_map; apply length_seq).
  rewrite Hdelta, schur_raw_nth by (rewrite length_map, Hll, Hlv; reflexivity).
  rewrite Hvj.
  rewrite (nth_indep _ 0 ((fun x => sqrt (Rabs (x / INR kk))) 0))
    by (rewrite length_map, Hll; exact Hj).
  rewrite (map_nth (fun x => sqrt (Rabs (x / INR kk))) lambda 0 j).
  set (x := nth j lambda 0) in *.
  rewrite Rabs_pos_eq by (apply Rmult_le_pos; [lra | left; now apply Rinv_0_lt_compat]).
  rewrite <- sqrt_mult_alt by (apply Rmult_le_pos; [lra | left; now apply Rinv_0_lt_compat]).
  apply sqrt_eq; [assumption|]. field. lra.
Qed.

(** With exact eigenpairs listed in ascending order, the descending
    sort of [delta] puts index 0 first. *)
Lemma exact_selects_first (eig : Arma.mat -> Arma.vec * Arma.mat)
    (Z : Arma.mat) (kk : nat) (lambda vv : Arma.vec) (V : Arma.mat)
    (delta : Arma.vec) (od0 : nat) (rest : list nat) :
  (1 <= kk)%nat ->
  Forall (fun r => length r = kk) Z ->
  eigen_basis eig Z kk = Some (lambda, vv, V, delta) ->
  let Lmat := Arma.mul (Arma.t kk Z) (Arma.mat_div Z (INR kk)) kk in
  eigenpairs Lmat (fst (eig Lmat)) (snd (eig Lmat)) ->
  ascending (fst (eig Lmat)) ->
  Arma.sort_index_descend delta = od0 :: rest ->
  od0 = 0%nat.
Proof.
  intros Hk Hrows Hb Lmat Hex Hasc Hod.
  pose proof (exact_delta eig Z kk lambda vv V delta Hk Hrows Hb Hex) as Hd.
  apply eigen_basis_inv in Hb. cbv zeta in Hb.
  destruct Hb as (Hl0 & _ & _ & _ & _ & _ & Hdl). fold Lmat in Hl0.
  apply sort_index_head in Hod. destruct Hod as (Hlt & _ & Hfirst).
  rewrite Hdl in Hlt.
  destruct od0 as [|m]; [reflexivity|]. exfalso.
  specialize (Hfirst 0%nat ltac:(lia)).
  destruct (Hd 0%nat ltac:(lia)) as (H0 & _ & H0').
  destruct (Hd (S m) Hlt) as (H1 & _ & H1').
  rewrite H0', H1', H0, H1 in Hfirst.
  specialize (Hasc (kk - 1 - S m)%nat (kk - 1 - 0)%nat ltac:(lia) ltac:(lia)).
  unfold Lmat in Hasc. lra.
Qed.

(** ** Scaling the samples *)

Section Scaling.

Variable s : R.
Hypothesis s_pos : 0 < s.

Lemma nth_map_scale (c : R) (r : list R) (j : nat) :
  nth j (map (Rmult c) r) 0 = c * nth j r 0.
Proof.
  rewrite <- (Rmult_0_r c) at 1. apply (map_nth (Rmult c)).
Qed.

Lemma nth_map_map_scale (c : R) (M : Arma.mat) (i : nat) :
  nth i (map (map (Rmult c)) M) [] = map (Rmult c) (nth i M []).
Proof. apply (map_nth (map (Rmult c)) M [] i). Qed.

Lemma accu_scale (c : R) (l : Arma.vec) :
  Arma.accu (map (Rmult c) l) = c * Arma.accu l.
Proof. apply accu_map_scale. Qed.

Lemma schur_raw_scale (c : R) (u v : Arma.vec) :
  Arma.schur_raw (map (Rmult c) u) (map (Rmult c) v)
  = map (Rmult (c * c)) (Arma.schur_raw u v).
Proof.
  unfold Arma.schur_raw. revert v.
  induction u as [|x u IH]; intros [|y v]; simpl; try reflexivity.
  rewrite IH. f_equal. ring.
Qed.

Lemma dot_scale (c : R) (u v : Arma.vec) :
  Arma.dot (map (Rmult c) u) (map (Rmult c) v) = c * c * Arma.dot u v.
Proof. unfold Arma.dot. now rewrite schur_raw_scale, accu_scale. Qed.

Lemma sumsq_scale (c : R) (v : Arma.vec) :
  sumsq (map (Rmult c) v) = c * c * sumsq v.
Proof. apply dot_scale. Qed.

Lemma mean_scale (c : R) (v : Arma.vec) :
  Arma.mean (map (Rmult c) v) = c * Arma.mean v.
Proof.
  unfold Arma.mean. rewrite accu_scale, length_map. unfold Rdiv. ring.
Qed.

Lemma var_scale (c : R) (v : Arma.vec) :
  Arma.var (map (Rmult c) v) = c * c * Arma.var v.
Proof.
  unfold Arma.var. rewrite length_map.
  destruct (length v <? 2)%nat; [ring|].
  rewrite mean_scale, map_map.
  rewrite (map_ext _ (fun x => (c * c) * ((x - Arma.mean v) * (x - Arma.mean v))))
    by (intros; ring).
  rewrite <- (map_map (fun x => (x - Arma.mean v) * (x - Arma.mean v)) (Rmult (c * c))).
  rewrite accu_scale. unfold Rdiv. ring.
Qed.

Lemma sqrt_inv_sqr : sqrt (/ (s * s)) = / s.
Proof.
  rewrite sqrt_inv. now rewrite sqrt_square by lra.
Qed.

Lemma standardise_scale (df : R) (r : Arma.vec) :
  standardise df (map (Rmult s) r) = standardise df r.
Proof.
  unfold standardise. rewrite map_map, var_scale, mean_scale.
  apply map_ext. intros x.
  replace (1 / (s * s * Arma.var r * df))
    with (/ (s * s) * (1 / (Arma.var r * df))).
  2:{ unfold Rdiv. rewrite !Rinv_mult. ring. }
  rewrite sqrt_mult_alt.
  2:{ left. apply Rinv_0_lt_compat. nra. }
  rewrite sqrt_inv_sqr. field. lra.
Qed.

Lemma col_raw_scale (c : R) (j : nat) (M : Arma.mat) :
  Arma.col_raw j (map (map (Rmult c)) M) = map (Rmult c) (Arma.col_raw j M).
Proof.
  unfold Arma.col_raw. rewrite !map_map. apply map_ext. intros r.
  apply nth_map_scale.
Qed.

Lemma t_scale (c : R) (k : nat) (M : Arma.mat) :
  Arma.t k (map (map (Rmult c)) M) = map (map (Rmult c)) (Arma.t k M).
Proof.
  unfold Arma.t. rewrite map_map. apply map_ext. intros j. apply col_raw_scale.
Qed.

Lemma mul_scale (c : R) (A B : Arma.mat) (k : nat) :
  Arma.mul (map (map (Rmult c)) A) (map (map (Rmult c)) B) k
  = map (map (Rmult (c * c))) (Arma.mul A B k).
Proof.
  unfold Arma.mul. rewrite !map_map. apply map_ext. intros ra.
  rewrite map_map. apply map_ext. intros j.
  now rewrite col_raw_scale, dot_scale.
Qed.

Lemma mat_div_scale (c x : R) (M : Arma.mat) :
  Arma.mat_div (map (map (Rmult c)) M) x = map (map (Rmult c)) (Arma.mat_div M x).
Proof.
  unfold Arma.mat_div. rewrite !map_map. apply map_ext. intros r.
  rewrite !map_map. apply map_ext. intros y. unfold Rdiv. ring.
Qed.

Lemma center_scale (c : R) (r mu : Arma.vec) :
  map (fun p => fst p - snd p) (combine (map (Rmult c) r) (map (Rmult c) mu))
  = map (Rmult c) (map (fun p => fst p - snd p) (combine r mu)).
Proof.
  revert mu; induction r as [|x r IH]; intros [|m mu]; simpl; try reflexivity.
  rewrite IH. f_equal. ring.
Qed.

Lemma cor_scale (k : nat) (X : Arma.mat) :
  Arma.cor k (map (map (Rmult s)) X) = Arma.cor k X.
Proof.
  unfold Arma.cor. rewrite length_map.
  destruct ((length X =? 0)%nat || (k =? 0)%nat); [reflexivity|].
  destruct ((length X =? 1)%nat || (k =? 1)%nat); [reflexivity|].
  set (mu := map (fun j => Arma.mean (Arma.col_raw j X)) (seq 0 k)).
  assert (Hmu : map (fun j => Arma.mean (Arma.col_raw j (map (map (Rmult s)) X)))
                    (seq 0 k) = map (Rmult s) mu).
  { unfold mu. rewrite map_map. apply map_ext. intros j.
    now rewrite col_raw_scale, mean_scale. }
  rewrite Hmu.
  set (tmp := map (fun r => map (fun p => fst p - snd p) (combine r mu)) X).
  assert (Htmp : map (fun r => map (fun p => fst p - snd p)
                                   (combine r (map (Rmult s) mu)))
                     (map (map (Rmult s)) X) = map (map (Rmult s)) tmp).
  { unfold tmp. rewrite !map_map. apply map_ext. intros r. apply center_scale. }
  rewrite Htmp, t_scale, mul_scale, mat_div_scale.
  set (out := Arma.mat_div (Arma.mul (Arma.t k tmp) tmp k) (INR (length X - 1))).
  assert (Hs : forall i, (i < k)%nat ->
            nth i (map (fun j => sqrt (nth j (nth j (map (map (Rmult (s * s))) out) []) 0))
                       (seq 0 k)) 0
            = s * nth i (map (fun j => sqrt (nth j (nth j out []) 0)) (seq 0 k)) 0).
  { intros i Hi. rewrite !nth_map_seq by assumption.
    rewrite nth_map_map_scale, nth_map_scale.
    rewrite sqrt_mult_alt by nra. now rewrite sqrt_square by lra. }
  apply map_ext_in. intros i Hi. apply in_seq in Hi.
  apply map_ext_in. intros j Hj. apply in_seq in Hj.
  rewrite !Hs by lia. rewrite nth_map_map_scale, nth_map_scale.
  unfold Rdiv. rewrite !Rinv_mult.
  assert (Hss : s * / s = 1) by (apply Rinv_r; lra).
  match goal with
  | |- _ = ?o * (?a * ?b) =>
    transitivity (o * (a * b) * ((s * / s) * (s * / s))); [ring | rewrite Hss; ring]
  end.
Qed.

Lemma slice_of_map (f : R -> R) (data : list R) (k i : nat) :
  slice_of (map f data) k i = map f (slice_of data k i).
Proof. unfold slice_of. now rewrite skipn_map, firstn_map. Qed.

Lemma slices_ok_map (f : R -> R) (data : list R) (n k : nat) :
  slices_ok (map f data) n k = slices_ok data n k.
Proof.
  unfold slices_ok. induction (seq 0 n) as [|i l IH]; simpl; [reflexivity|].
  now rewrite slice_of_map, length_map, IH.
Qed.

Lemma omat_of_scale (w : world) :
  omat_of (scale_world s w) = map (map (Rmult s)) (omat_of w).
Proof.
  unfold omat_of, samples_of, scale_world, nn_of, kk_of, extent. simpl.
  rewrite map_map. apply map_ext. intros i. apply slice_of_map.
Qed.

Lemma aa_of_scale (w : world) :
  aa_of (scale_world s w) = map (Rmult (s * s)) (aa_of w).
Proof.
  unfold aa_of. rewrite omat_of_scale, !map_map. apply map_ext. intros v.
  apply sumsq_scale.
Qed.

Lemma aasum_of_scale (w : world) :
  aasum_of (scale_world s w) = s * s * aasum_of w.
Proof. unfold aasum_of. now rewrite aa_of_scale, accu_scale. Qed.

Lemma ratio_scale (A a : R) : (s * s * A) / (s * s * a) = A / a.
Proof.
  unfold Rdiv. rewrite !Rinv_mult.
  assert (Hss : s * / s = 1) by (apply Rinv_r; lra).
  transitivity (A * / a * ((s * / s) * (s * / s))); [ring | rewrite Hss; ring].
Qed.

End Scaling.

(** ** Reordering the samples *)

Section Permute.

Variable p : list nat.
Variable n : nat.
Hypothesis p_perm : Permutation p (seq 0 n).

Lemma p_in_range (j : nat) : In j p -> (j < n)%nat.
Proof.
  intros H. apply (Permutation_in _ p_perm) in H. apply in_seq in H. lia.
Qed.

Lemma p_length : length p = n.
Proof. rewrite (Permutation_length p_perm). apply length_seq. Qed.

Lemma permute_length {A} (d : A) (l : list A) : length (permute d p l) = n.
Proof. unfold permute. rewrite length_map. apply p_length. Qed.

Lemma permute_perm {A} (d : A) (l : list A) :
  length l = n -> Permutation (permute d p l) l.
Proof.
  intros H. unfold permute.
  pose proof (Permutation_map (fun j => nth j l d) p_perm) as P.
  rewrite <- H, map_nth_seq in P. exact P.
Qed.

Lemma permute_default {A} (d d' : A) (l : list A) :
  length l = n -> permute d p l = permute d' p l.
Proof.
  intros H. unfold permute. apply map_ext_in. intros j Hj.
  apply nth_indep. rewrite H. now apply p_in_range.
Qed.

Lemma map_permute {A B} (f : A -> B) (d : A) (l : list A) :
  map f (permute d p l) = permute (f d) p (map f l).
Proof.
  unfold permute. rewrite map_map. apply map_ext. intros j.
  symmetry. apply map_nth.
Qed.

Lemma accu_permute (l : Arma.vec) :
  length l = n -> Arma.accu (permute 0 p l) = Arma.accu l.
Proof. intros H. apply accu_perm. now apply permute_perm. Qed.

Lemma schur_raw_permute (u v : Arma.vec) :
  length u = length v ->
  Arma.schur_raw (permute 0 p u) (permute 0 p v) = permute 0 p (Arma.schur_raw u v).
Proof.
  intros H. now apply schur_raw_map_nth.
Qed.

Lemma dot_permute (u v : Arma.vec) :
  length u = n -> length v = n ->
  Arma.dot (permute 0 p u) (permute 0 p v) = Arma.dot u v.
Proof.
  intros Hu Hv. unfold Arma.dot. rewrite schur_raw_permute by congruence.
  apply accu_permute. rewrite schur_raw_length; congruence.
Qed.

Lemma col_raw_permute (d : list R) (j : nat) (M : Arma.mat) :
  length M = n ->
  Arma.col_raw j (permute d p M) = permute 0 p (Arma.col_raw j M).
Proof.
  intros H. unfold Arma.col_raw. rewrite map_permute.
  apply permute_default. now rewrite length_map.
Qed.

Lemma Lmat_permute (Z : Arma.mat) (kk : nat) (x : R) :
  length Z = n ->
  Arma.mul (Arma.t kk (permute [] p Z)) (Arma.mat_div (permute [] p Z) x) kk
  = Arma.mul (Arma.t kk Z) (Arma.mat_div Z x) kk.
Proof.
  intros H. unfold Arma.mul, Arma.t. rewrite !map_map.
  apply map_ext. intros a. apply map_ext. intros b.
  unfold Arma.mat_div. rewrite map_permute. simpl map at 2.
  rewrite !col_raw_permute by now rewrite ?length_map.
  apply dot_permute; now rewrite col_raw_length, ?length_map.
Qed.

Lemma mul_permute (Z U : Arma.mat) (k : nat) :
  length Z = n ->
  Arma.mul (permute [] p Z) U k = permute [] p (Arma.mul Z U k).
Proof.
  intros H. unfold Arma.mul. rewrite map_permute.
  apply permute_default. now rewrite length_map.
Qed.

Lemma col_norm_permute (j : nat) (M : Arma.mat) :
  length M = n -> col_norm j (permute [] p M) = col_norm j M.
Proof.
  intros H. unfold col_norm. rewrite col_raw_permute by assumption.
  now rewrite dot_permute by now rewrite col_raw_length.
Qed.

Lemma normalise_permute (vv : Arma.vec) (M : Arma.mat) :
  map (normalised_row vv) (permute [] p M) = permute [] p (map (normalised_row vv) M).
Proof.
  rewrite map_permute. f_equal. now destruct vv.
Qed.

Lemma eigen_basis_permute (eig : Arma.mat -> Arma.vec * Arma.mat)
    (Z : Arma.mat) (kk : nat) :
  length Z = n ->
  eigen_basis eig (permute [] p Z) kk =
  match eigen_basis eig Z kk with
  | Some (lambda, vv, V, delta) => Some (lambda, vv, permute [] p V, delta)
  | None => None
  end.
Proof.
  intros H. unfold eigen_basis. rewrite Lmat_permute by assumption.
  destruct (eig _) as [l0 U0].
  destruct (negb (forallb _ _)); [reflexivity|].
  destruct (negb (kk =? _)%nat); [reflexivity|].
  destruct (negb (kk <=? _)%nat); [reflexivity|].
  rewrite mul_permute by assumption.
  rewrite !normalise_cols_closed.
  match goal with
  | |- context [Arma.mul Z ?u ?k] => set (V0 := Arma.mul Z u k)
  end.
  assert (HV0 : length V0 = n) by (unfold V0, Arma.mul; now rewrite length_map).
  rewrite (map_ext (fun j => col_norm j (permute [] p V0)) (fun j => col_norm j V0))
    by (intros; now apply col_norm_permute).
  rewrite normalise_permute.
  destruct (Arma.schur _ _); reflexivity.
Qed.

Lemma n_cols_permute (M : Arma.mat) (c : nat) :
  length M = n -> Forall (fun r => length r = c) M ->
  Arma.n_cols (permute [] p M) = Arma.n_cols M.
Proof.
  intros HM Hc. pose proof p_length as HL. pose proof p_in_range as HR.
  revert HL HR. generalize p as q. intros q HL HR.
  unfold Arma.n_cols, permute.
  destruct q as [|j q]; destruct M as [|r0 M]; try reflexivity;
    try (simpl in HL, HM; congruence).
  rewrite Forall_forall in Hc. cbn [map hd].
  rewrite (Hc r0) by now left.
  apply Hc. apply nth_In. rewrite HM. apply HR. now left.
Qed.

Lemma col_permute (j : nat) (M : Arma.mat) (c : nat) :
  length M = n -> Forall (fun r => length r = c) M ->
  Arma.col j (permute [] p M) =
  match Arma.col j M with
  | Some v => Some (permute 0 p v)
  | None => None
  end.
Proof.
  intros HM Hc. unfold Arma.col.
  rewrite (n_cols_permute M c) by assumption.
  destruct (j <? Arma.n_cols M)%nat; [|reflexivity].
  now rewrite col_raw_permute.
Qed.

Lemma weights_permute (A : R) (aa c : Arma.vec) :
  length aa = n -> length c = n ->
  weights A (permute 0 p aa) (permute 0 p c) =
  match weights A aa c with
  | Some h => Some (permute 0 p h)
  | None => None
  end.
Proof.
  intros Ha Hc. unfold weights, Arma.schur.
  rewrite !length_map, !permute_length, Ha, Hc, Nat.eqb_refl.
  f_equal.
  transitivity (map Rabs (permute 0 p
                 (Arma.schur_raw (map (fun a => sqrt (A / a)) aa) c))).
  - f_equal. rewrite map_permute.
    rewrite (permute_default _ 0) by now rewrite length_map.
    apply schur_raw_permute. now rewrite length_map, Ha, Hc.
  - rewrite map_permute. now rewrite Rabs_R0.
Qed.

Lemma forallb_perm {A} (f : A -> bool) (l l' : list A) :
  Permutation l l' -> forallb f l = forallb f l'.
Proof.
  induction 1 as [|x l l' _ IH|x y l|l l' l'' _ IH1 _ IH2]; simpl.
  - reflexivity.
  - now rewrite IH.
  - now rewrite !andb_assoc, (andb_comm (f y)).
  - now rewrite IH1.
Qed.

Lemma rows_vary_permute (df : R) (X : Arma.mat) :
  length X = n -> rows_vary df (permute [] p X) = rows_vary df X.
Proof.
  intros HX. unfold rows_vary. apply forallb_perm.
  now apply (permute_perm).
Qed.

Lemma samples_rich_permute (eig : Arma.mat -> Arma.vec * Arma.mat)
    (A : R) (aa : Arma.vec) (X : Arma.mat) (kk : nat) :
  length aa = n -> length X = n ->
  samples_rich eig A (permute 0 p aa) (permute [] p X) n kk =
  match samples_rich eig A aa X n kk with
  | Some h => Some (permute 0 p h)
  | None => None
  end.
Proof.
  intros Ha HX. unfold samples_rich.
  rewrite !samples_rich_basis_closed by now rewrite ?permute_length.
  rewrite rows_vary_permute by assumption.
  destruct (rows_vary _ X); [|reflexivity].
  rewrite map_permute. change (standardise _ []) with (@nil R).
  rewrite eigen_basis_permute by now rewrite length_map.
  destruct (eigen_basis eig _ kk) as [[[[lambda vv] V] delta]|] eqn:E;
    [|reflexivity].
  apply eigen_basis_rows in E. destruct E as (HV & Hrows).
  rewrite length_map in HV.
  destruct (Arma.sort_index_descend delta) as [|od0 rest]; [reflexivity|].
  rewrite (col_permute od0 V kk (eq_trans HV HX) Hrows).
  destruct (Arma.col od0 V) as [c|] eqn:Hc; [|reflexivity].
  apply weights_permute; [assumption|].
  apply col_spec in Hc. destruct Hc as (_ & Hc & _).
  now rewrite Hc, HV.
Qed.

End Permute.

Lemma nth_permute {A} (d : A) (p : list nat) (l : list A) (i : nat) :
  (i < length p)%nat -> nth i (permute d p l) d = nth (nth i p 0%nat) l d.
Proof.
  intros Hi. unfold permute.
  rewrite (nth_indep _ d ((fun j => nth j l d) 0%nat)) by now rewrite length_map.
  apply (map_nth (fun j => nth j l d) p 0%nat i).
Qed.

(** The samples-rich branch.  If the samples of [w'] are those of [w]
    reordered, sample [i] of [w] being sample [perm[i]] of [w'], then a
    call on [w'] returns the weights of the call on [w] reordered in
    the same way. *)
Lemma permutation_samples_rich_part (eig : Arma.mat -> Arma.vec * Arma.mat)
    (w w' : world) (perm : list nat) (h : Arma.vec) :
  rdim (array_ w') = rdim (array_ w) ->
  branch_of w = SamplesRich ->
  Permutation perm (seq 0 (nn_of w)) ->
  (forall i, (i < nn_of w)%nat ->
     slice_of (rdata (array_ w')) (kk_of w) (nth i perm 0%nat)
     = slice_of (rdata (array_ w)) (kk_of w) i) ->
  fst (scaleproc eig w) = Some h ->
  exists h', fst (scaleproc eig w') = Some h' /\
    length h' = nn_of w /\
    forall i, (i < nn_of w)%nat -> nth (nth i perm 0%nat) h' 0 = nth i h 0.
Proof.
  intros Hdim Hb Hperm Hslices Hh.
  assert (Hn : nn_of w' = nn_of w) by (unfold nn_of, extent; now rewrite Hdim).
  assert (Hk : kk_of w' = kk_of w) by (unfold kk_of, extent; now rewrite Hdim).
  pose proof (p_length perm (nn_of w) Hperm) as Hlen.
  assert (Hom : omat_of w = permute [] perm (omat_of w')).
  { unfold omat_of at 1. unfold samples_of, permute.
    rewrite <- (map_nth_seq 0%nat perm). rewrite Hlen, map_map.
    apply map_ext_in. intros i Hi. apply in_seq in Hi.
    rewrite <- Hslices by lia.
    unfold omat_of. rewrite Hn, Hk.
    symmetry. apply nth_samples_of.
    apply (p_in_range perm (nn_of w) Hperm), nth_In. lia. }
  rewrite scaleproc_run in *. simpl fst in *.
  unfold result_of in *. rewrite Hn, Hk.
  destruct (slices_ok (rdata (array_ w)) _ _) eqn:Hok; [|discriminate].
  assert (Hok' : slices_ok (rdata (array_ w')) (nn_of w) (kk_of w) = true).
  { rewrite slices_ok_spec in *. intros j Hj.
    assert (Hin : In j perm).
    { apply (Permutation_in _ (Permutation_sym Hperm)), in_seq. lia. }
    apply (In_nth _ _ 0%nat) in Hin. destruct Hin as (i & Hi & <-).
    rewrite Hslices by lia. apply Hok. lia. }
  rewrite Hok'.
  apply branch_samples_rich in Hb.
  destruct (Nat.ltb_spec (kk_of w) (nn_of w)) as [_|]; [|lia].
  assert (Haa : aa_of w = permute 0 perm (aa_of w')).
  { unfold aa_of. rewrite Hom. apply (map_permute perm sumsq []). }
  assert (Hsum : aasum_of w = aasum_of w').
  { unfold aasum_of. rewrite Haa.
    apply (accu_permute perm (nn_of w) Hperm). now rewrite aa_of_length. }
  rewrite Hom, Haa, Hsum in Hh.
  rewrite (samples_rich_permute perm (nn_of w) Hperm) in Hh
    by (rewrite ?aa_of_length, ?omat_of_length; assumption).
  destruct (samples_rich eig (aasum_of w') (aa_of w') (omat_of w') (nn_of w) (kk_of w))
    as [h'|] eqn:Hh'; [|discriminate].
  inversion Hh; subst h; clear Hh.
  exists h'. split; [reflexivity|].
  assert (Hl : length h' = nn_of w).
  { unfold samples_rich in Hh'.
    destruct (samples_rich_basis _ _ _ _) as [[[[lambda vv] V] delta]|];
      [|discriminate].
    destruct (Arma.sort_index_descend delta); [discriminate|].
    destruct (Arma.col _ V); [|discriminate].
    apply weights_spec in Hh'. destruct Hh' as (_ & Hl & _).
    now rewrite Hl, aa_of_length. }
  split; [assumption|].
  intros i Hi. symmetry. apply nth_permute. lia.
Qed.

Lemma reordered_aa (w w' : world) (perm : list nat) :
  rdim (array_ w') = rdim (array_ w) ->
  Permutation perm (seq 0 (nn_of w)) ->
  (forall i, (i < nn_of w)%nat ->
     slice_of (rdata (array_ w')) (kk_of w) (nth i perm 0%nat)
     = slice_of (rdata (array_ w)) (kk_of w) i) ->
  nn_of w' = nn_of w /\ kk_of w' = kk_of w /\
  aasum_of w = aasum_of w' /\
  forall i, (i < nn_of w)%nat ->
    (nth i perm 0 < nn_of w)%nat /\
    nth i (aa_of w) 0 = nth (nth i perm 0%nat) (aa_of w') 0.
Proof.
  intros Hdim Hperm Hslices.
  assert (Hn : nn_of w' = nn_of w) by (unfold nn_of, extent; now rewrite Hdim).
  assert (Hk : kk_of w' = kk_of w) by (unfold kk_of, extent; now rewrite Hdim).
  pose proof (p_length perm (nn_of w) Hperm) as Hlen.
  assert (Hin : forall i, (i < nn_of w)%nat -> (nth i perm 0 < nn_of w)%nat).
  { intros i Hi. apply (p_in_range perm (nn_of w) Hperm), nth_In. lia. }
  assert (Haa : forall i, (i < nn_of w)%nat ->
            nth i (aa_of w) 0 = nth (nth i perm 0%nat) (aa_of w') 0).
  { intros i Hi. unfold aa_of.
    rewrite (nth_indep (map sumsq (omat_of w)) 0 (sumsq []))
      by (fold (aa_of w); now rewrite aa_of_length).
    rewrite (nth_indep (map sumsq (omat_of w')) 0 (sumsq []))
      by (fold (aa_of w'); rewrite aa_of_length, Hn; auto).
    rewrite !(map_nth sumsq). f_equal.
    unfold omat_of. rewrite Hn, Hk.
    rewrite !nth_samples_of by auto. symmetry. now apply Hslices. }
  repeat split; auto.
  unfold aasum_of.
  assert (E : aa_of w = permute 0 perm (aa_of w')).
  { apply (nth_ext _ _ 0 0).
    - now rewrite aa_of_length, (permute_length perm (nn_of w) Hperm).
    - intros i Hi. rewrite aa_of_length in Hi.
      rewrite nth_permute by lia. now apply Haa. }
  rewrite E. apply (accu_permute perm (nn_of w) Hperm).
  now rewrite aa_of_length.
Qed.

Lemma permutation_feature_rich_part (eig : Arma.mat -> Arma.vec * Arma.mat)
    (w w' : world) (perm : list nat) (h h' : Arma.vec) :
  rdim (array_ w') = rdim (array_ w) ->
  branch_of w = FeatureRich ->
  Permutation perm (seq 0 (nn_of w)) ->
  (forall i, (i < nn_of w)%nat ->
     slice_of (rdata (array_ w')) (kk_of w) (nth i perm 0%nat)
     = slice_of (rdata (array_ w)) (kk_of w) i) ->
  fst (scaleproc eig w) = Some h ->
  fst (scaleproc eig w') = Some h' ->
  (forall i, (i < nn_of w)%nat ->
     Rabs (nth 1 (nth (nth i perm 0%nat) (snd (eig (zz_of w'))) []) 0)
     = Rabs (nth 1 (nth i (snd (eig (zz_of w))) []) 0)) ->
  forall i, (i < nn_of w)%nat -> nth (nth i perm 0%nat) h' 0 = nth i h 0.
Proof.
  intros Hdim Hb Hperm Hslices Hh Hh' Hvec i Hi.
  destruct (reordered_aa w w' perm Hdim Hperm Hslices) as (Hn & Hk & Hsum & Haa).
  assert (Hb' : branch_of w' = FeatureRich).
  { unfold branch_of in *. now rewrite Hn, Hk. }
  destruct (feature_rich_selected eig w h Hb Hh) as (_ & _ & _ & Hnth).
  destruct (feature_rich_selected eig w' h' Hb' Hh') as (_ & _ & _ & Hnth').
  destruct (Haa i Hi) as (Hpi & Ha).
  rewrite Hnth by assumption. rewrite Hnth' by (rewrite Hn; assumption).
  fold (zz_of w) (zz_of w').
  rewrite <- Hsum, <- Ha, !Rabs_mult, Hvec by assumption. reflexivity.
Qed.

Lemma cor_small (k : nat) (X X' : Arma.mat) :
  length X' = length X -> (length X < 2 \/ k < 2)%nat ->
  Arma.cor k X' = Arma.cor k X.
Proof.
  intros Hl Hs. unfold Arma.cor. rewrite Hl.
  destruct (Nat.eqb_spec (length X) 0); [reflexivity|].
  destruct (Nat.eqb_spec k 0); [reflexivity|].
  destruct (Nat.eqb_spec (length X) 1); [reflexivity|].
  destruct (Nat.eqb_spec k 1); [reflexivity|]. lia.
Qed.

Lemma cor_shape (k : nat) (X : Arma.mat) :
  (2 <= length X)%nat -> (2 <= k)%nat ->
  length (Arma.cor k X) = k /\
  forall i, (i < k)%nat -> length (nth i (Arma.cor k X) []) = k.
Proof.
  intros HX Hk. unfold Arma.cor.
  destruct (Nat.eqb_spec (length X) 0); [lia|].
  destruct (Nat.eqb_spec k 0); [lia|].
  destruct (Nat.eqb_spec (length X) 1); [lia|].
  destruct (Nat.eqb_spec k 1); [lia|].
  simpl orb. cbv iota zeta. split.
  - now rewrite length_map, length_seq.
  - intros i Hi. rewrite nth_map_seq_gen by assumption.
    now rewrite length_map, length_seq.
Qed.

(** ** Two exact solutions of one symmetric eigenproblem *)

Lemma rsum_zero (n : nat) (f : nat -> R) :
  (forall i, (i < n)%nat -> f i = 0) -> rsum n f = 0.
Proof.
  induction n as [|n IH]; intros H; simpl; [reflexivity|].
  rewrite IH by (intros; apply H; lia). rewrite H by lia. ring.
Qed.

Lemma rsum_single (n k : nat) (f : nat -> R) :
  (k < n)%nat -> (forall i, (i < n)%nat -> i <> k -> f i = 0) -> rsum n f = f k.
Proof.
  induction n as [|n IH]; intros Hk H; [lia|]. simpl.
  destruct (Nat.eq_dec k n) as [->|Hne].
  - rewrite rsum_zero; [ring|]. intros i Hi. apply H; lia.
  - rewrite IH by (try lia; intros; apply H; lia). rewrite (H n) by lia. ring.
Qed.

Lemma rsum_kronecker (n k : nat) (f : nat -> R) :
  (k < n)%nat -> rsum n (fun i => f i * kronecker i k) = f k.
Proof.
  intros Hk. rewrite (rsum_single n k).
  - unfold kronecker. rewrite Nat.eqb_refl. ring.
  - assumption.
  - intros i Hi Hne. unfold kronecker.
    destruct (Nat.eqb_spec i k); [contradiction | ring].
Qed.

Lemma rsum_nonzero (n : nat) (f : nat -> R) :
  rsum n f <> 0 -> exists i, (i < n)%nat /\ f i <> 0.
Proof.
  induction n as [|n IH]; simpl; intros H; [contradiction H; reflexivity|].
  destruct (Req_dec (f n) 0) as [E|E].
  - destruct IH as (i & Hi & Hf).
    + intros E'. apply H. rewrite E, E'. ring.
    + exists i. split; [lia | assumption].
  - exists n. split; [lia | assumption].
Qed.

(** A sum over [0], ..., [n - 1] taken in another order. *)
Lemma rsum_reindex (p : list nat) (n : nat) (f : nat -> R) :
  Permutation p (seq 0 n) ->
  rsum n (fun a => f (nth a p 0%nat)) = rsum n f.
Proof.
  intros Hp. rewrite <- !accu_map_seq.
  rewrite <- (map_map (fun a => nth a p 0%nat) f).
  assert (Hl : length p = n)
    by (rewrite (Permutation_length Hp); apply length_seq).
  rewrite <- Hl at 1. rewrite map_nth_seq.
  apply accu_perm. now apply Permutation_map.
Qed.

Lemma perm_injective (p : list nat) (n a b : nat) :
  Permutation p (seq 0 n) -> (a < n)%nat -> (b < n)%nat ->
  nth a p 0%nat = nth b p 0%nat -> a = b.
Proof.
  intros Hp Ha Hb E.
  assert (Hl : length p = n)
    by (rewrite (Permutation_length Hp); apply length_seq).
  assert (Hnd : NoDup p).
  { apply (Permutation_NoDup (Permutation_sym Hp)), seq_NoDup. }
  rewrite NoDup_nth in Hnd. apply Hnd; [lia | lia | exact E].
Qed.

(** The products of the columns of [x] with the columns of [y], summed
    over the columns of [y], when the rows of [y] are orthonormal. *)
Lemma overlap_gram (n : nat) (x y : nat -> nat -> R) (j1 j2 : nat) :
  (forall a b, (a < n)%nat -> (b < n)%nat ->
     rsum n (fun k => y a k * y b k) = kronecker a b) ->
  rsum n (fun k => rsum n (fun a => x a j1 * y a k)
                   * rsum n (fun b => x b j2 * y b k))
  = rsum n (fun a => x a j1 * x a j2).
Proof.
  intros Hy.
  rewrite (rsum_ext _ _
    (fun k => rsum n (fun a => rsum n (fun b =>
                (x a j1 * x b j2) * (y a k * y b k))))).
  2:{ intros k Hk. rewrite rsum_mult. apply rsum_ext. intros a Ha.
      apply rsum_ext. intros b Hb. ring. }
  rewrite rsum_swap. apply rsum_ext. intros a Ha.
  rewrite rsum_swap.
  rewrite (rsum_ext _ _ (fun b => (x a j1 * x b j2) * kronecker b a)).
  2:{ intros b Hb. rewrite rsum_scal, Hy by assumption.
      unfold kronecker. now rewrite Nat.eqb_sym. }
  exact (rsum_kronecker n a (fun b => x a j1 * x b j2) Ha).
Qed.

(** A vector is the sum of its components along the columns of [y]. *)
Lemma overlap_expand (n : nat) (v : nat -> R) (y : nat -> nat -> R) (a : nat) :
  (forall a b, (a < n)%nat -> (b < n)%nat ->
     rsum n (fun k => y a k * y b k) = kronecker a b) ->
  (a < n)%nat ->
  rsum n (fun k => rsum n (fun b => v b * y b k) * y a k) = v a.
Proof.
  intros Hy Ha.
  rewrite (rsum_ext _ _ (fun k => rsum n (fun b => v b * (y b k * y a k)))).
  2:{ intros k Hk. rewrite Rmult_comm, <- rsum_scal. apply rsum_ext.
      intros b Hb. ring. }
  rewrite rsum_swap.
  rewrite (rsum_ext _ _ (fun b => v b * kronecker b a)).
  2:{ intros b Hb. now rewrite rsum_scal, Hy. }
  now apply rsum_kronecker.
Qed.

(** Eigenvectors of a symmetric matrix for two eigenvalues that differ
    are orthogonal. *)
Lemma overlap_eigen (n : nat) (m : nat -> nat -> R) (v w : nat -> R) (mu nu : R) :
  (forall a b, (a < n)%nat -> (b < n)%nat -> m a b = m b a) ->
  (forall a, (a < n)%nat -> rsum n (fun b => m a b * v b) = mu * v a) ->
  (forall a, (a < n)%nat -> rsum n (fun b => m a b * w b) = nu * w a) ->
  (mu - nu) * rsum n (fun a => v a * w a) = 0.
Proof.
  intros Hs Hv Hw.
  assert (E : mu * rsum n (fun a => v a * w a) = nu * rsum n (fun a => v a * w a)).
  { rewrite <- !rsum_scal.
    transitivity (rsum n (fun a => rsum n (fun b => m a b * v b * w a))).
    - apply rsum_ext. intros a Ha.
      transitivity (w a * rsum n (fun b => m a b * v b));
        [rewrite Hv by assumption; ring|].
      rewrite <- rsum_scal. apply rsum_ext. intros b Hb. ring.
    - rewrite rsum_swap. apply rsum_ext. intros b Hb.
      transitivity (v b * rsum n (fun a => m b a * w a));
        [|rewrite Hw by assumption; ring].
      rewrite <- rsum_scal. apply rsum_ext. intros a Ha.
      rewrite (Hs a b) by assumption. ring. }
  rewrite Rmult_minus_distr_r, E. ring.
Qed.

Section Spectrum.

Variable n : nat.
Variable m : nat -> nat -> R.
Variables lam lam2 : nat -> R.
Variables u u2 : nat -> nat -> R.

Hypothesis n_two : (2 <= n)%nat.
Hypothesis m_sym : forall a b, (a < n)%nat -> (b < n)%nat -> m a b = m b a.
Hypothesis u_eigen : forall k a, (k < n)%nat -> (a < n)%nat ->
  rsum n (fun b => m a b * u b k) = lam k * u a k.
Hypothesis u2_eigen : forall k a, (k < n)%nat -> (a < n)%nat ->
  rsum n (fun b => m a b * u2 b k) = lam2 k * u2 a k.
Hypothesis u_rows : forall a b, (a < n)%nat -> (b < n)%nat ->
  rsum n (fun k => u a k * u b k) = kronecker a b.
Hypothesis u_cols : forall j k, (j < n)%nat -> (k < n)%nat ->
  rsum n (fun a => u a j * u a k) = kronecker j k.
Hypothesis u2_rows : forall a b, (a < n)%nat -> (b < n)%nat ->
  rsum n (fun k => u2 a k * u2 b k) = kronecker a b.
Hypothesis u2_cols : forall j k, (j < n)%nat -> (k < n)%nat ->
  rsum n (fun a => u2 a j * u2 a k) = kronecker j k.
Hypothesis lam_asc : forall i j, (i <= j)%nat -> (j < n)%nat -> lam i <= lam j.
Hypothesis lam2_asc : forall i j, (i <= j)%nat -> (j < n)%nat -> lam2 i <= lam2 j.
Hypothesis lam_simple : forall k, (k < n)%nat -> k <> 1%nat -> lam k <> lam 1.

Lemma overlap_cases (j k : nat) :
  (j < n)%nat -> (k < n)%nat -> lam2 j = lam k \/ overlap n u2 u j k = 0.
Proof.
  intros Hj Hk. unfold overlap.
  pose proof (overlap_eigen n m (fun a => u2 a j) (fun a => u a k)
                (lam2 j) (lam k) m_sym
                (fun a Ha => u2_eigen j a Hj Ha)
                (fun a Ha => u_eigen k a Hk Ha)) as H.
  apply Rmult_integral in H. destruct H as [H|H]; [left; lra | right; exact H].
Qed.

Lemma overlap_rows (j1 j2 : nat) :
  (j1 < n)%nat -> (j2 < n)%nat ->
  rsum n (fun k => overlap n u2 u j1 k * overlap n u2 u j2 k) = kronecker j1 j2.
Proof.
  intros H1 H2. unfold overlap. rewrite <- (u2_cols j1 j2 H1 H2).
  exact (overlap_gram n u2 u j1 j2 u_rows).
Qed.

Lemma overlap_cols (k : nat) :
  (k < n)%nat -> rsum n (fun j => overlap n u2 u j k * overlap n u2 u j k) = 1.
Proof.
  intros Hk. unfold overlap.
  pose proof (overlap_gram n u u2 k k u2_rows) as H.
  rewrite (u_cols k k Hk Hk) in H. unfold kronecker in H.
  rewrite Nat.eqb_refl in H. rewrite <- H.
  apply rsum_ext. intros j Hj.
  assert (E : rsum n (fun a => u2 a j * u a k) = rsum n (fun a => u a k * u2 a j))
    by (apply rsum_ext; intros a Ha; ring).
  now rewrite E.
Qed.

(** Every eigenvalue of one list is in the other list. *)
Lemma lam2_in_lam (j : nat) :
  (j < n)%nat -> exists k, (k < n)%nat /\ lam2 j = lam k.
Proof.
  intros Hj.
  destruct (rsum_nonzero n (fun k => overlap n u2 u j k * overlap n u2 u j k))
    as (k & Hk & Hc).
  - rewrite (overlap_rows j j Hj Hj). unfold kronecker.
    rewrite Nat.eqb_refl. lra.
  - exists k. split; [assumption|].
    destruct (overlap_cases j k Hj Hk) as [E|E]; [assumption|].
    exfalso. apply Hc. rewrite E. ring.
Qed.

Lemma lam_in_lam2 (k : nat) :
  (k < n)%nat -> exists j, (j < n)%nat /\ lam2 j = lam k.
Proof.
  intros Hk.
  destruct (rsum_nonzero n (fun j => overlap n u2 u j k * overlap n u2 u j k))
    as (j & Hj & Hc).
  - rewrite (overlap_cols k Hk). lra.
  - exists j. split; [assumption|].
    destruct (overlap_cases j k Hj Hk) as [E|E]; [assumption|].
    exfalso. apply Hc. rewrite E. ring.
Qed.

(** A simple eigenvalue of one list is once in the other list. *)
Lemma simple_once (j1 j2 k0 : nat) :
  (j1 < n)%nat -> (j2 < n)%nat -> (k0 < n)%nat ->
  (forall k, (k < n)%nat -> k <> k0 -> lam k <> lam k0) ->
  lam2 j1 = lam k0 -> lam2 j2 = lam k0 -> j1 = j2.
Proof.
  intros H1 H2 H0 Hs E1 E2.
  destruct (Nat.eq_dec j1 j2) as [|Hne]; [assumption|exfalso].
  assert (Hz : forall j, (j < n)%nat -> lam2 j = lam k0 ->
                 forall k, (k < n)%nat -> k <> k0 -> overlap n u2 u j k = 0).
  { intros j Hj Ej k Hk Hk0.
    destruct (overlap_cases j k Hj Hk) as [E|E]; [|assumption].
    exfalso. apply (Hs k Hk Hk0). congruence. }
  pose proof (overlap_rows j1 j1 H1 H1) as R1.
  pose proof (overlap_rows j2 j2 H2 H2) as R2.
  pose proof (overlap_rows j1 j2 H1 H2) as R12.
  rewrite (rsum_single n k0) in R1, R2, R12;
    try assumption;
    try (intros k Hk Hk0; rewrite ?(Hz j1 H1 E1 k Hk Hk0), ?(Hz j2 H2 E2 k Hk Hk0); ring).
  unfold kronecker in R1, R2, R12. rewrite Nat.eqb_refl in R1, R2.
  destruct (Nat.eqb_spec j1 j2) as [|_] in R12; [contradiction|].
  apply Rmult_integral in R12. destruct R12 as [Z|Z]; rewrite Z in *; lra.
Qed.

Lemma lam_zero_simple (k : nat) : (k < n)%nat -> k <> 0%nat -> lam k <> lam 0.
Proof.
  intros Hk Hk0.
  pose proof (lam_asc 0 1 ltac:(lia) ltac:(lia)) as H01.
  pose proof (lam_simple 0%nat ltac:(lia) ltac:(lia)) as Hne.
  pose proof (lam_asc 1 k ltac:(lia) Hk) as H1k. lra.
Qed.

Lemma lam2_zero : lam2 0 = lam 0.
Proof.
  destruct (lam_in_lam2 0%nat ltac:(lia)) as (j & Hj & Ej).
  destruct (lam2_in_lam 0%nat ltac:(lia)) as (k & Hk & Ek).
  pose proof (lam2_asc 0 j ltac:(lia) Hj).
  pose proof (lam_asc 0 k ltac:(lia) Hk). lra.
Qed.

(** The two lists have the same eigenvalue at index 1. *)
Lemma lam2_one : lam2 1 = lam 1.
Proof.
  pose proof lam2_zero as H0.
  destruct (lam2_in_lam 1%nat ltac:(lia)) as (k & Hk & Ek).
  destruct (lam_in_lam2 1%nat ltac:(lia)) as (j & Hj & Ej).
  assert (Hk0 : k <> 0%nat).
  { intros ->.
    pose proof (simple_once 0 1 0 ltac:(lia) ltac:(lia) ltac:(lia)
                  lam_zero_simple H0 Ek). lia. }
  assert (Hj0 : j <> 0%nat).
  { intros ->. apply (lam_simple 0%nat ltac:(lia) ltac:(lia)). congruence. }
  pose proof (lam_asc 1 k ltac:(lia) Hk).
  pose proof (lam2_asc 1 j ltac:(lia) Hj). lra.
Qed.

(** The two eigenvectors of index 1 are equal up to their sign. *)
Lemma simple_eigenvector (a : nat) :
  (a < n)%nat -> Rabs (u2 a 1%nat) = Rabs (u a 1%nat).
Proof.
  intros Ha.
  assert (H1 : (1 < n)%nat) by lia.
  assert (Hz : forall k, (k < n)%nat -> k <> 1%nat -> overlap n u2 u 1%nat k = 0).
  { intros k Hk Hk1.
    destruct (overlap_cases 1 k H1 Hk) as [E|E]; [|assumption].
    exfalso. apply (lam_simple k Hk Hk1). rewrite <- E. apply lam2_one. }
  pose proof (overlap_rows 1 1 H1 H1) as R1.
  rewrite (rsum_single n 1) in R1;
    [| assumption | intros k Hk Hk1; rewrite (Hz k Hk Hk1); ring].
  unfold kronecker in R1. rewrite Nat.eqb_refl in R1.
  pose proof (overlap_expand n (fun b => u2 b 1%nat) u a u_rows Ha) as E.
  change (rsum n (fun k => overlap n u2 u 1%nat k * u a k) = u2 a 1%nat) in E.
  rewrite (rsum_single n 1) in E;
    [| assumption | intros k Hk Hk1; rewrite (Hz k Hk Hk1); ring].
  rewrite <- E, Rabs_mult.
  assert (Hc : Rabs (overlap n u2 u 1%nat 1%nat) = 1).
  { set (c := overlap n u2 u 1%nat 1%nat) in *.
    assert (Hsq : Rabs c * Rabs c = 1).
    { rewrite <- Rabs_mult, R1. apply Rabs_R1. }
    pose proof (Rabs_pos c). nra. }
  rewrite Hc. ring.
Qed.

End Spectrum.

(** ** The correlation matrix of reordered samples *)

Lemma returns_slices_ok (eig : Arma.mat -> Arma.vec * Arma.mat) (w : world)
    (h : Arma.vec) :
  fst (scaleproc eig w) = Some h ->
  slices_ok (rdata (array_ w)) (nn_of w) (kk_of w) = true.
Proof.
  intros Hh. rewrite scaleproc_run in Hh. simpl fst in Hh. unfold result_of in Hh.
  destruct (slices_ok _ _ _); [reflexivity | discriminate].
Qed.

Lemma reordered_slices_ok (w w' : world) (perm : list nat) :
  Permutation perm (seq 0 (nn_of w)) ->
  (forall i, (i < nn_of w)%nat ->
     slice_of (rdata (array_ w')) (kk_of w) (nth i perm 0%nat)
     = slice_of (rdata (array_ w)) (kk_of w) i) ->
  slices_ok (rdata (array_ w)) (nn_of w) (kk_of w) = true ->
  slices_ok (rdata (array_ w')) (nn_of w) (kk_of w) = true.
Proof.
  intros Hperm Hsl Hok. rewrite slices_ok_spec in *. intros j Hj.
  pose proof (p_length perm (nn_of w) Hperm) as Hlen.
  assert (Hin : In j perm).
  { apply (Permutation_in _ (Permutation_sym Hperm)), in_seq. lia. }
  apply (In_nth _ _ 0%nat) in Hin. destruct Hin as (i & Hi & <-).
  rewrite Hsl by lia. apply Hok. lia.
Qed.

Lemma zz_shape (w : world) :
  (2 <= nn_of w <= kk_of w)%nat ->
  length (zz_of w) = nn_of w /\
  forall i, (i < nn_of w)%nat -> length (nth i (zz_of w) []) = nn_of w.
Proof.
  intros [Hn Hk]. unfold zz_of. apply cor_shape; [|assumption].
  unfold Arma.t. rewrite length_map, length_seq. lia.
Qed.

(** An entry of [zz]: the covariance of two samples divided by the
    roots of their variances. *)
Lemma zz_entry (w : world) (i j : nat) :
  slices_ok (rdata (array_ w)) (nn_of w) (kk_of w) = true ->
  (2 <= nn_of w <= kk_of w)%nat ->
  (i < nn_of w)%nat -> (j < nn_of w)%nat ->
  let c a := map (fun x => x - Arma.mean (nth a (omat_of w) []))
                 (nth a (omat_of w) []) in
  let out a b := Arma.dot (c a) (c b) / (INR (kk_of w) - 1) in
  nth j (nth i (zz_of w) []) 0 = out i j / (sqrt (out i i) * sqrt (out j j)).
Proof.
  intros Hok [Hn Hk] Hi Hj.
  set (X := Arma.t (kk_of w) (omat_of w)).
  assert (HX : length X = kk_of w)
    by (unfold X, Arma.t; now rewrite length_map, length_seq).
  assert (Hrows : Forall (fun r => length r = nn_of w) X).
  { unfold X. rewrite <- (omat_of_length w). apply t_rows. }
  assert (Hcol : forall a, (a < nn_of w)%nat -> Arma.col_raw a X = nth a (omat_of w) []).
  { intros a Ha. unfold X. apply col_raw_t.
    rewrite slices_ok_spec in Hok. unfold omat_of.
    rewrite nth_samples_of by assumption. now apply Hok. }
  assert (HK : INR (length X - 1) = INR (kk_of w) - 1).
  { rewrite HX, minus_INR by lia. reflexivity. }
  unfold zz_of. fold X.
  rewrite cor_entry by (assumption || lia).
  cbv zeta. now rewrite !Hcol, HK by assumption.
Qed.

Lemma zz_symmetric (w : world) (i j : nat) :
  slices_ok (rdata (array_ w)) (nn_of w) (kk_of w) = true ->
  (2 <= nn_of w <= kk_of w)%nat ->
  (i < nn_of w)%nat -> (j < nn_of w)%nat ->
  nth j (nth i (zz_of w) []) 0 = nth i (nth j (zz_of w) []) 0.
Proof.
  intros Hok Hn Hi Hj. rewrite !zz_entry by assumption. cbv zeta.
  set (ci := map (fun x => x - Arma.mean (nth i (omat_of w) [])) (nth i (omat_of w) [])).
  set (cj := map (fun x => x - Arma.mean (nth j (omat_of w) [])) (nth j (omat_of w) [])).
  rewrite (dot_comm cj ci). f_equal. apply Rmult_comm.
Qed.

(** When the samples are reordered, the rows and the columns of [zz]
    are reordered in the same way. *)
Lemma zz_reordered (w w' : world) (perm : list nat) (a b : nat) :
  rdim (array_ w') = rdim (array_ w) ->
  Permutation perm (seq 0 (nn_of w)) ->
  (forall i, (i < nn_of w)%nat ->
     slice_of (rdata (array_ w')) (kk_of w) (nth i perm 0%nat)
     = slice_of (rdata (array_ w)) (kk_of w) i) ->
  slices_ok (rdata (array_ w)) (nn_of w) (kk_of w) = true ->
  slices_ok (rdata (array_ w')) (nn_of w) (kk_of w) = true ->
  (2 <= nn_of w <= kk_of w)%nat ->
  (a < nn_of w)%nat -> (b < nn_of w)%nat ->
  nth (nth b perm 0%nat) (nth (nth a perm 0%nat) (zz_of w') []) 0
  = nth b (nth a (zz_of w) []) 0.
Proof.
  intros Hdim Hperm Hsl Hok Hok' Hn Ha Hb.
  assert (En : nn_of w' = nn_of w) by (unfold nn_of, extent; now rewrite Hdim).
  assert (Ek : kk_of w' = kk_of w) by (unfold kk_of, extent; now rewrite Hdim).
  assert (Hin : forall i, (i < nn_of w)%nat -> (nth i perm 0 < nn_of w)%nat).
  { intros i Hi. apply (p_in_range perm (nn_of w) Hperm), nth_In.
    rewrite (p_length perm (nn_of w) Hperm). exact Hi. }
  assert (Hrow : forall i, (i < nn_of w)%nat ->
            nth (nth i perm 0%nat) (omat_of w') [] = nth i (omat_of w) []).
  { intros i Hi. unfold omat_of. rewrite En, Ek.
    rewrite !nth_samples_of by auto. now apply Hsl. }
  rewrite (zz_entry w a b) by assumption.
  rewrite (zz_entry w') by (rewrite ?En, ?Ek; auto).
  cbv zeta. now rewrite Ek, !Hrow by assumption.
Qed.

(** ** Exact solvers in the feature-rich branch *)

Lemma eigen_system (M : Arma.mat) (lambda : Arma.vec) (U : Arma.mat) :
  (forall a, (a < length M)%nat -> length (nth a M []) = length M) ->
  eigenpairs M lambda U ->
  forall k a, (k < length M)%nat -> (a < length M)%nat ->
    rsum (length M) (fun b => nth b (nth a M []) 0 * nth k (nth b U []) 0)
    = nth k lambda 0 * nth k (nth a U []) 0.
Proof.
  intros HM (_ & HU & _ & He) k a Hk Ha.
  destruct (He k Hk) as [_ Heq]. specialize (Heq a Ha).
  rewrite dot_rsum in Heq by (rewrite col_raw_length, HU; now apply HM).
  rewrite HM, nth_col_raw in Heq by assumption.
  rewrite <- Heq. apply rsum_ext. intros b Hb. now rewrite nth_col_raw.
Qed.

Lemma orthogonal_system (n : nat) (U : Arma.mat) :
  length U = n -> Forall (fun r => length r = n) U -> orthogonal U ->
  (forall a b, (a < n)%nat -> (b < n)%nat ->
     rsum n (fun k => nth k (nth a U []) 0 * nth k (nth b U []) 0) = kronecker a b) /\
  (forall j k, (j < n)%nat -> (k < n)%nat ->
     rsum n (fun a => nth j (nth a U []) 0 * nth k (nth a U []) 0) = kronecker j k).
Proof.
  intros HU Hrows Ho. rewrite Forall_forall in Hrows.
  assert (Hrow : forall a, (a < n)%nat -> length (nth a U []) = n).
  { intros a Ha. apply Hrows, nth_In. now rewrite HU. }
  split.
  - intros a b Ha Hb.
    destruct (Ho a b) as [H _]; [now rewrite HU | now rewrite HU |].
    rewrite dot_rsum in H by (now rewrite !Hrow).
    now rewrite Hrow in H.
  - intros j k Hj Hk.
    destruct (Ho j k) as [_ H]; [now rewrite HU | now rewrite HU |].
    rewrite dot_rsum in H by (now rewrite !col_raw_length).
    rewrite col_raw_length, HU in H. rewrite <- H.
    apply rsum_ext. intros a Ha. now rewrite !nth_col_raw.
Qed.

(** A call that returns in the feature-rich branch, with a solver whose
    result has the size of [zz], has at least two samples. *)
Lemma feature_rich_two_samples (eig : Arma.mat -> Arma.vec * Arma.mat)
    (w : world) (h : Arma.vec) :
  branch_of w = FeatureRich ->
  fst (scaleproc eig w) = Some h ->
  eigenpairs (zz_of w) (fst (eig (zz_of w))) (snd (eig (zz_of w))) ->
  (2 <= nn_of w)%nat.
Proof.
  intros Hb Hh (_ & HU & Hrows & _).
  destruct (feature_rich_selected eig w h Hb Hh) as (_ & Hsel & _).
  fold (zz_of w) in Hsel.
  rewrite scaleproc_run in Hh. simpl fst in Hh.
  rewrite result_of_selected, Hsel in Hh.
  destruct (slices_ok _ _ _); [|discriminate].
  destruct (Arma.col 1 (snd (eig (zz_of w)))) as [c|] eqn:Hc; [|discriminate].
  apply col_spec in Hc. destruct Hc as (Hc & _).
  unfold Arma.n_cols in Hc.
  destruct (snd (eig (zz_of w))) as [|r U]; [simpl in Hc; lia|].
  inversion Hrows as [|? ? Hr _]; subst. simpl in Hc. rewrite Hr in Hc.
  unfold zz_of, Arma.cor in Hc.
  destruct (_ || _) in Hc; [simpl in Hc; lia|].
  destruct (Nat.eqb_spec (nn_of w) 1) as [E|E].
  - rewrite orb_true_r in Hc. simpl in Hc. lia.
  - destruct (_ || _) in Hc; [simpl in Hc; lia|].
    rewrite length_map, length_seq in Hc. lia.
Qed.

(** The feature-rich branch with an exact solver.  When the eigenvalue
    of index 1 of [zz] is simple, reordering the samples reorders the
    weights in the same way. *)
Lemma permutation_feature_rich_exact (eig : Arma.mat -> Arma.vec * Arma.mat)
    (w w' : world) (perm : list nat) (h : Arma.vec) :
  rdim (array_ w') = rdim (array_ w) ->
  branch_of w = FeatureRich ->
  Permutation perm (seq 0 (nn_of w)) ->
  (forall i, (i < nn_of w)%nat ->
     slice_of (rdata (array_ w')) (kk_of w) (nth i perm 0%nat)
     = slice_of (rdata (array_ w)) (kk_of w) i) ->
  fst (scaleproc eig w) = Some h ->
  exact_on eig (zz_of w) -> exact_on eig (zz_of w') ->
  (forall k, (k < nn_of w)%nat -> k <> 1%nat ->
     nth k (fst (eig (zz_of w))) 0 <> nth 1 (fst (eig (zz_of w))) 0) ->
  exists h', fst (scaleproc eig w') = Some h' /\
    length h' = nn_of w /\
    forall i, (i < nn_of w)%nat -> nth (nth i perm 0%nat) h' 0 = nth i h 0.
Proof.
  intros Hdim Hb Hperm Hsl Hh (Hex & Hasc & Hor) (Hex' & Hasc' & Hor') Hsimple.
  assert (En : nn_of w' = nn_of w) by (unfold nn_of, extent; now rewrite Hdim).
  assert (Ek : kk_of w' = kk_of w) by (unfold kk_of, extent; now rewrite Hdim).
  pose proof (feature_rich_two_samples eig w h Hb Hh Hex) as H2.
  pose proof Hb as Hnk. apply branch_feature_rich in Hnk.
  assert (Hn : (2 <= nn_of w <= kk_of w)%nat) by lia.
  assert (Hn' : (2 <= nn_of w' <= kk_of w')%nat) by (rewrite En, Ek; exact Hn).
  assert (Hb' : branch_of w' = FeatureRich)
    by (apply branch_feature_rich; lia).
  pose proof (returns_slices_ok eig w h Hh) as Hok.
  pose proof (reordered_slices_ok w w' perm Hperm Hsl Hok) as Hok'.
  assert (Hh' : exists h', fst (scaleproc eig w') = Some h').
  { rewrite scaleproc_run. simpl fst. unfold result_of.
    rewrite En, Ek, Hok'.
    destruct (Nat.ltb_spec (kk_of w) (nn_of w)) as [|_]; [lia|].
    rewrite <- En, <- Ek.
    apply feature_rich_total; [lia | lia |].
    destruct Hex' as (E1 & E2 & E3 & _). repeat split; assumption. }
  destruct Hh' as [h' Hh']. exists h'. split; [exact Hh'|].
  split.
  { destruct (feature_rich_selected eig w' h' Hb' Hh') as (_ & _ & Hl & _).
    now rewrite Hl. }
  destruct (zz_shape w Hn) as [Hlen Hrowlen].
  destruct (zz_shape w' Hn') as [Hlen' Hrowlen']. rewrite En in Hlen', Hrowlen'.
  assert (Hin : forall i, (i < nn_of w)%nat -> (nth i perm 0 < nn_of w)%nat).
  { intros i Hi. apply (p_in_range perm (nn_of w) Hperm), nth_In.
    rewrite (p_length perm (nn_of w) Hperm). exact Hi. }
  pose proof (eigen_system _ _ _
                ltac:(rewrite Hlen; exact Hrowlen) Hex) as Heig.
  pose proof (eigen_system _ _ _
                ltac:(rewrite Hlen'; exact Hrowlen') Hex') as Heig'.
  rewrite Hlen in Heig. rewrite Hlen' in Heig'.
  destruct Hex as (Hll & HU & HUrows & _).
  destruct Hex' as (Hll' & HU' & HUrows' & _).
  rewrite Hlen in Hll, HU, HUrows. rewrite Hlen' in Hll', HU', HUrows'.
  destruct (orthogonal_system (nn_of w) _ HU HUrows Hor) as [Hrows Hcols].
  destruct (orthogonal_system (nn_of w) _ HU' HUrows' Hor') as [Hrows' Hcols'].
  set (m := fun a b => nth b (nth a (zz_of w) []) 0).
  set (lam := fun k => nth k (fst (eig (zz_of w))) 0).
  set (lam2 := fun k => nth k (fst (eig (zz_of w'))) 0).
  set (u := fun a k => nth k (nth a (snd (eig (zz_of w))) []) 0).
  set (u2 := fun a k => nth k (nth (nth a perm 0%nat) (snd (eig (zz_of w'))) []) 0).
  assert (m_sym : forall a b, (a < nn_of w)%nat -> (b < nn_of w)%nat -> m a b = m b a).
  { intros x y Hx Hy. now apply zz_symmetric. }
  assert (u_eigen : forall k a, (k < nn_of w)%nat -> (a < nn_of w)%nat ->
            rsum (nn_of w) (fun b => m a b * u b k) = lam k * u a k).
  { intros k x Hk Hx. now apply Heig. }
  assert (u2_eigen : forall k a, (k < nn_of w)%nat -> (a < nn_of w)%nat ->
            rsum (nn_of w) (fun b => m a b * u2 b k) = lam2 k * u2 a k).
  { intros k x Hk Hx. unfold lam2, u2.
    rewrite <- (Heig' k (nth x perm 0%nat) Hk (Hin x Hx)).
    rewrite <- (rsum_reindex perm (nn_of w)
      (fun b => nth b (nth (nth x perm 0%nat) (zz_of w') []) 0
                * nth k (nth b (snd (eig (zz_of w'))) []) 0) Hperm).
    apply rsum_ext. intros y Hy. unfold m.
    now rewrite (zz_reordered w w' perm x y). }
  assert (u_rows : forall a b, (a < nn_of w)%nat -> (b < nn_of w)%nat ->
            rsum (nn_of w) (fun k => u a k * u b k) = kronecker a b).
  { intros x y Hx Hy. now apply Hrows. }
  assert (u_cols : forall j k, (j < nn_of w)%nat -> (k < nn_of w)%nat ->
            rsum (nn_of w) (fun a => u a j * u a k) = kronecker j k).
  { intros j k Hj Hk. now apply Hcols. }
  assert (u2_rows : forall a b, (a < nn_of w)%nat -> (b < nn_of w)%nat ->
            rsum (nn_of w) (fun k => u2 a k * u2 b k) = kronecker a b).
  { intros x y Hx Hy. unfold u2. rewrite Hrows' by auto. unfold kronecker.
    destruct (Nat.eqb_spec x y) as [->|Hne]; [now rewrite Nat.eqb_refl|].
    destruct (Nat.eqb_spec (nth x perm 0%nat) (nth y perm 0%nat)) as [E|];
      [|reflexivity].
    exfalso. apply Hne. exact (perm_injective perm (nn_of w) x y Hperm Hx Hy E). }
  assert (u2_cols : forall j k, (j < nn_of w)%nat -> (k < nn_of w)%nat ->
            rsum (nn_of w) (fun a => u2 a j * u2 a k) = kronecker j k).
  { intros j k Hj Hk. rewrite <- (Hcols' j k Hj Hk).
    exact (rsum_reindex perm (nn_of w)
      (fun a => nth j (nth a (snd (eig (zz_of w'))) []) 0
                * nth k (nth a (snd (eig (zz_of w'))) []) 0) Hperm). }
  assert (lam_asc : forall i j, (i <= j)%nat -> (j < nn_of w)%nat -> lam i <= lam j).
  { intros i j Hij Hj. apply Hasc; [assumption | now rewrite Hll]. }
  assert (lam2_asc : forall i j, (i <= j)%nat -> (j < nn_of w)%nat -> lam2 i <= lam2 j).
  { intros i j Hij Hj. apply Hasc'; [assumption | now rewrite Hll']. }
  apply (permutation_feature_rich_part eig w w' perm h h' Hdim Hb Hperm Hsl Hh Hh').
  intros a Ha.
  apply (simple_eigenvector (nn_of w) m lam lam2 u u2); assumption.
Qed.

(** ** Concrete runs *)

(** The two samples are uncorrelated: their correlation matrix is the
    identity, on which [eig_identity] is an exact solver. *)
Lemma two_samples_cor :
  Arma.cor (nn_of two_samples) (Arma.t (kk_of two_samples) (omat_of two_samples))
  = identity 2.
Proof.
  rcompute. repeat f_equal.
  - apply div_sqrt_sqrt; lra.
  - apply zero_div; lra.
  - apply zero_div; lra.
  - apply div_sqrt_sqrt; lra.
Qed.

Lemma three_samples_vary : samples_vary three_samples.
Proof.
  intros i Hi. unfold nn_of in Hi. simpl in Hi.
  destruct i as [|[|[|i]]]; try lia; rcompute; lra.
Qed.

Lemma two_samples_vary : samples_vary two_samples.
Proof.
  intros i Hi. unfold nn_of in Hi. simpl in Hi.
  destruct i as [|[|i]]; try lia; rcompute; lra.
Qed.

Lemma three_samples_rows_vary :
  rows_vary ((INR (nn_of three_samples) - 1) / INR (nn_of three_samples))
            (omat_of three_samples) = true.
Proof.
  apply samples_vary_rows; [unfold nn_of; simpl; lia | exact three_samples_vary].
Qed.

Lemma three_samples_Z :
  map (standardise ((INR (nn_of three_samples) - 1) / INR (nn_of three_samples)))
      (omat_of three_samples)
  = [[sqrt (3/4); - sqrt (3/4)]; [- sqrt (3/4); sqrt (3/4)]; [sqrt (3/4); - sqrt (3/4)]].
Proof.
  rcompute.
  repeat match goal with
         | |- context [sqrt ?e] =>
           lazymatch e with
           | 3 / 4 => fail
           | _ => replace e with (3 / 4) by field
           end
         end.
  list_eq; lra.
Qed.

Lemma three_samples_Lmat :
  Lmat_of three_samples = [[9/8; -9/8]; [-9/8; 9/8]].
Proof.
  unfold Lmat_of. rewrite three_samples_Z.
  pose proof sqrt_34_sqr as Hc. set (c := sqrt (3/4)) in *. clearbody c.
  rcompute. list_eq; nra.
Qed.

Lemma three_samples_descending_basis :
  samples_rich_basis eig_descending (omat_of three_samples)
    (nn_of three_samples) (kk_of three_samples)
  = Some ([0; 9/4], [0; sqrt (9/2)],
          [[0; sqrt (1/3)]; [0; - sqrt (1/3)]; [0; sqrt (1/3)]],
          [0; 9/4]).
Proof.
  rewrite samples_rich_basis_closed by reflexivity.
  rewrite three_samples_rows_vary, three_samples_Z.
  pose proof sqrt_34_sqr as Hc.
  assert (Hc0 : 0 < sqrt (3/4)) by (apply sqrt_lt_R0; lra).
  set (c := sqrt (3/4)) in *. clearbody c.
  unfold eig_descending, eigen_basis.
  pose proof inv_sqrt2_sqr as Hd.
  assert (Hd0 : 0 < / sqrt 2) by (apply Rinv_0_lt_compat, sqrt_lt_R0; lra).
  set (d := / sqrt 2) in *. clearbody d.
  assert (Hcd : c * d * (c * d) = 3/8).
  { replace (c * d * (c * d)) with ((c * c) * (d * d)) by ring.
    rewrite Hc, Hd. lra. }
  assert (Hcd0 : 0 < c * d) by nra.
  rcompute.
  replace (Rabs (0 / (1 + 1))) with 0 by (rewrite zero_div, Rabs_R0; reflexivity).
  replace (Rabs (9 / 4 / (1 + 1))) with (9/8) by (rewrite Rabs_pos_eq; lra).
  repeat match goal with
         | |- context [sqrt ?e] =>
           lazymatch e with
           | 9 / 2 => fail
           | 9 / 8 => fail
           | 0 => fail
           | 1 / 3 => fail
           | _ => first
                    [ replace e with 0 by ring
                    | replace e with (9/2)
                        by (transitivity (12 * (c * d * (c * d)));
                            [rewrite Hcd; lra | ring]) ]
           end
         end.
  rewrite sqrt_0.
  assert (H92 : sqrt (9/2) * sqrt (9/2) = 9/2) by (apply sqrt_sqrt; lra).
  assert (H920 : 0 < sqrt (9/2)) by (apply sqrt_lt_R0; lra).
  assert (H13 : c * d * 2 / sqrt (9/2) = sqrt (1/3)).
  { apply sqrt_unique.
    - apply Rmult_le_pos; [nra | left; now apply Rinv_0_lt_compat].
    - assert (Hx2 : / sqrt (9/2) * / sqrt (9/2) = 2/9)
        by (rewrite <- Rinv_mult, H92; lra).
      change (c * d * 2 / sqrt (9/2)) with (c * d * 2 * / sqrt (9/2)).
      set (x := / sqrt (9/2)) in *. clearbody x.
      transitivity (4 * (c * d * (c * d)) * (x * x)); [ring|].
      rewrite Hcd, Hx2. lra. }
  assert (H98 : sqrt (9/8) * sqrt (9/2) = 9/4).
  { rewrite <- sqrt_mult by lra. apply sqrt_eq; lra. }
  apply f_equal. apply f_equal2; [apply f_equal2; [apply f_equal2|]|]; list_eq;
    try reflexivity; try (apply zero_div; ring); try lra.
Qed.

Lemma three_samples_aa : aa_of three_samples = [2; 2; 2].
Proof. rcompute. list_eq; lra. Qed.

Lemma three_samples_descending_result :
  fst (scaleproc eig_descending three_samples) = Some [1; 1; 1].
Proof.
  rewrite scaleproc_run. simpl fst. unfold result_of.
  change (slices_ok _ _ _) with true. cbv iota.
  change (kk_of three_samples <? nn_of three_samples)%nat with true. cbv iota.
  unfold samples_rich. rewrite three_samples_descending_basis.
  rewrite sort_index_two by lra.
  unfold aasum_of. rewrite three_samples_aa.
  pose proof sqrt_3_13 as H. 
  assert (H0 : 0 <= sqrt (1/3)) by apply sqrt_pos.
  set (a := sqrt (1/3)) in *. clearbody a.
  rcompute.
  replace ((2 + (2 + (2 + 0))) / 2) with 3 by lra.
  set (b := sqrt 3) in *. clearbody b.
  replace (b * - a) with (- (b * a)) by ring. rewrite H, Rabs_Ropp, Rabs_R1.
  reflexivity.
Qed.

Lemma eig_ascending_exact :
  eigenpairs (Lmat_of three_samples)
             (fst (eig_ascending (Lmat_of three_samples)))
             (snd (eig_ascending (Lmat_of three_samples))) /\
  ascending (fst (eig_ascending (Lmat_of three_samples))).
Proof.
  rewrite three_samples_Lmat. unfold eig_ascending. simpl fst. simpl snd.
  pose proof inv_sqrt2_sqr as Hd. set (d := / sqrt 2) in *. clearbody d.
  split.
  - unfold eigenpairs. split; [reflexivity|]. split; [reflexivity|]. split.
    + repeat constructor.
    + intros j Hj. simpl in Hj.
      destruct j as [|[|j]]; try lia; (split; [rcompute; nra|]);
        intros a Ha; simpl in Ha; destruct a as [|[|a]]; try lia; rcompute; lra.
  - intros i j Hij Hj. simpl in Hj.
    destruct j as [|[|j]]; try lia; destruct i as [|[|i]]; try lia; simpl; lra.
Qed.

Lemma eig_sized_three (eig : Arma.mat -> Arma.vec * Arma.mat) :
  eigenpairs (Lmat_of three_samples)
             (fst (eig (Lmat_of three_samples)))
             (snd (eig (Lmat_of three_samples))) ->
  eig_sized eig (Lmat_of three_samples).
Proof.
  intros (H1 & H2 & H3 & _). repeat split; assumption.
Qed.

Lemma three_samples_ok :
  slices_ok (rdata (array_ three_samples)) (nn_of three_samples) (kk_of three_samples)
  = true.
Proof. reflexivity. Qed.

Lemma three_samples_ascending_returns :
  exists h, fst (scaleproc eig_ascending three_samples) = Some h.
Proof.
  destruct (scaleproc_returns_weights eig_ascending three_samples) as (h & Hh & _).
  - reflexivity.
  - unfold kk_of. simpl. lia.
  - exact three_samples_vary.
  - left. split.
    + unfold kk_of, nn_of. simpl. lia.
    + apply eig_sized_three, eig_ascending_exact.
  - now exists h.
Qed.

(** The two correlated samples: their correlation matrix, and the
    solver that is exact on it. *)
Lemma div_sqrt_value (x a b sa sb r : R) :
  0 < sa -> 0 < sb -> a = sa * sa -> b = sb * sb -> x = r * (sa * sb) ->
  x / (sqrt a * sqrt b) = r.
Proof.
  intros Ha Hb -> -> ->. rewrite !sqrt_square by lra. field. lra.
Qed.

Lemma two_samples_correlated_cor :
  zz_of two_samples_correlated = [[1; 1 / 2]; [1 / 2; 1]].
Proof.
  unfold zz_of. rcompute. list_eq.
  - apply (div_sqrt_value _ _ _ 1 1); lra.
  - apply (div_sqrt_value _ _ _ 1 2); lra.
  - apply (div_sqrt_value _ _ _ 2 1); lra.
  - apply (div_sqrt_value _ _ _ 2 2); lra.
Qed.

Lemma two_samples_correlated_swapped_cor :
  zz_of two_samples_correlated_swapped = [[1; 1 / 2]; [1 / 2; 1]].
Proof.
  unfold zz_of. rcompute. list_eq.
  - apply (div_sqrt_value _ _ _ 2 2); lra.
  - apply (div_sqrt_value _ _ _ 2 1); lra.
  - apply (div_sqrt_value _ _ _ 1 2); lra.
  - apply (div_sqrt_value _ _ _ 1 1); lra.
Qed.

Lemma eig_correlated_exact : exact_on eig_correlated [[1; 1 / 2]; [1 / 2; 1]].
Proof.
  unfold exact_on, eig_correlated. simpl fst. simpl snd.
  pose proof inv_sqrt2_sqr as Hd. set (d := / sqrt 2) in *. clearbody d.
  split; [|split].
  - unfold eigenpairs. split; [reflexivity|]. split; [reflexivity|]. split.
    + repeat constructor.
    + intros j Hj. simpl in Hj.
      destruct j as [|[|j]]; try lia; (split; [rcompute; nra|]);
        intros a Ha; simpl in Ha; destruct a as [|[|a]]; try lia; rcompute; lra.
  - intros i j Hij Hj. simpl in Hj.
    destruct j as [|[|j]]; try lia; destruct i as [|[|i]]; try lia; simpl; lra.
  - intros i j Hi Hj. simpl in Hi, Hj.
    destruct i as [|[|i]]; try lia; destruct j as [|[|j]]; try lia;
      split; rcompute; nra.
Qed.

Lemma two_samples_correlated_vary : samples_vary two_samples_correlated.
Proof.
  intros i Hi. unfold nn_of in Hi. simpl in Hi.
  destruct i as [|[|i]]; try lia; rcompute; lra.
Qed.

(** The two samples of equal entries: their correlation matrix is the
    identity, on which [eig_identity] is exact. *)
Lemma two_samples_tied_cor : zz_of two_samples_tied = identity 2.
Proof.
  unfold zz_of. rcompute. list_eq.
  - apply div_sqrt_sqrt; lra.
  - apply zero_div; lra.
  - apply zero_div; lra.
  - apply div_sqrt_sqrt; lra.
Qed.

Lemma two_samples_tied_swapped_cor : zz_of two_samples_tied_swapped = identity 2.
Proof.
  unfold zz_of. rcompute. list_eq.
  - apply div_sqrt_sqrt; lra.
  - apply zero_div; lra.
  - apply zero_div; lra.
  - apply div_sqrt_sqrt; lra.
Qed.

Lemma eig_identity_exact : exact_on eig_identity (identity 2).
Proof.
  unfold exact_on, eig_identity. simpl fst. simpl snd.
  split; [|split].
  - unfold eigenpairs. split; [reflexivity|]. split; [reflexivity|]. split.
    + repeat constructor.
    + intros j Hj. simpl in Hj.
      destruct j as [|[|j]]; try lia; (split; [rcompute; lra|]);
        intros a Ha; simpl in Ha; destruct a as [|[|a]]; try lia; rcompute; lra.
  - intros i j Hij Hj. simpl in Hj.
    destruct j as [|[|j]]; try lia; destruct i as [|[|i]]; try lia; simpl; lra.
  - intros i j Hi Hj. simpl in Hi, Hj.
    destruct i as [|[|i]]; try lia; destruct j as [|[|j]]; try lia;
      split; rcompute; lra.
Qed.

Lemma two_samples_tied_vary : samples_vary two_samples_tied.
Proof.
  intros i Hi. unfold nn_of in Hi. simpl in Hi.
  destruct i as [|[|i]]; try lia; rcompute; lra.
Qed.

(** * The claims *)

(** ** C1: the column selected in the samples-rich branch *)



(** ** C2: the column selected in the feature-rich branch *)

(** C2, as the code has it.  In the feature-rich branch the index read
    from the empty [eigval] is 1, its column count, and the weights
    returned are those of column 1 of [eigvec]:
    [h[i] = |sqrt(aasum/aa[i]) * eigvec[i, 1]|]. *)
Theorem feature_rich_column (eig : Arma.mat -> Arma.vec * Arma.mat)
    (w : world) (h : Arma.vec) :
  branch_of w = FeatureRich ->
  fst (scaleproc eig w) = Some h ->
  let eigvec := snd (eig (zz_of w)) in
  Arma.sz_cols Arma.empty_vec_size = 1%nat /\
  feature_rich_basis eig (omat_of w) (nn_of w) (kk_of w) = (1%nat, eigvec) /\
  selected_column eig w = Arma.col 1 eigvec /\
  length h = nn_of w /\
  forall i, (i < nn_of w)%nat ->
    nth i h 0 = Rabs (sqrt (aasum_of w / nth i (aa_of w) 0) * nth 1 (nth i eigvec []) 0).
Proof.
  intros Hb Hh eigvec. split; [reflexivity|].
  exact (feature_rich_selected eig w h Hb Hh).
Qed.

Lemma feature_rich_column_witness :
  exists h,
    branch_of two_samples = FeatureRich /\
    fst (scaleproc eig_identity two_samples) = Some h /\
    length h = nn_of two_samples /\
    nth 1 h 0 =
    Rabs (sqrt (aasum_of two_samples / nth 1 (aa_of two_samples) 0)
          * nth 1 (nth 1 (snd (eig_identity (zz_of two_samples))) []) 0).
Proof.
  eexists. split; [reflexivity|].
  split; [rewrite scaleproc_run; reflexivity|].
  pose proof (feature_rich_column eig_identity two_samples _ eq_refl
                (eq_trans (f_equal fst (scaleproc_run eig_identity two_samples))
                          eq_refl)) as H.
  destruct H as (_ & _ & _ & Hlen & Hnth).
  split; [exact Hlen|]. apply (Hnth 1%nat). unfold nn_of. simpl. lia.
Defined.

(** C2, as stated, fails.  On two uncorrelated samples the correlation
    matrix is the identity, the solver returns the unit vectors, and the
    first weight returned is 0 where column 0 would give 2. *)
Lemma feature_rich_column_0_fails :
  let zz := Arma.cor (nn_of two_samples)
                     (Arma.t (kk_of two_samples) (omat_of two_samples)) in
  let eigvec := snd (eig_identity zz) in
  branch_of two_samples = FeatureRich /\
  zz = identity 2 /\ eig_identity zz = ([1; 1], identity 2) /\
  exists h, fst (scaleproc eig_identity two_samples) = Some h /\
    nth 0 h 0 = 0 /\
    Rabs (sqrt (aasum_of two_samples / nth 0 (aa_of two_samples) 0)
          * nth 0 (nth 0 eigvec []) 0) = 2.
Proof.
  intros zz eigvec. subst eigvec zz. rewrite two_samples_cor.
  split; [reflexivity|]. split; [reflexivity|]. split; [reflexivity|].
  eexists. split; [rewrite scaleproc_run; reflexivity|]. split.
  - rcompute. rewrite Rmult_0_r. apply Rabs_R0.
  - rcompute. rewrite Rmult_1_r.
    rewrite (sqrt_eq _ 2); [apply Rabs_pos_eq; lra | lra | field].
Qed.

(** ** C3: the branch taken *)

(** C3. With [N] the third extent and [K] the product of the first two,
    both in the range of [unsigned int], the call runs the samples-rich
    code exactly when [K < N] and the feature-rich code otherwise; at
    [N = K] it runs the feature-rich code. *)
Theorem scaleproc_branch (eig : Arma.mat -> Arma.vec * Arma.mat) (w : world) :
  (0 <= extent w 2 < 2 ^ 32)%Z ->
  (0 <= extent w 0 * extent w 1 < 2 ^ 32)%Z ->
  (branch_of w = SamplesRich <-> (extent w 0 * extent w 1 < extent w 2)%Z) /\
  (branch_of w = FeatureRich <-> (extent w 2 <= extent w 0 * extent w 1)%Z) /\
  ((extent w 2 = extent w 0 * extent w 1)%Z -> branch_of w = FeatureRich) /\
  fst (scaleproc eig w) =
  (if slices_ok (rdata (array_ w)) (nn_of w) (kk_of w) then
     match branch_of w with
     | SamplesRich =>
       samples_rich eig (aasum_of w) (aa_of w) (omat_of w) (nn_of w) (kk_of w)
     | FeatureRich =>
       feature_rich eig (aasum_of w) (aa_of w) (omat_of w) (nn_of w) (kk_of w)
     end
   else None).
Proof.
  intros HN HK.
  assert (Hb : branch_of w =
               if (extent w 0 * extent w 1 <? extent w 2)%Z
               then SamplesRich else FeatureRich).
  { unfold branch_of, nn_of, kk_of. rewrite !uint_small by assumption.
    destruct (Z.ltb_spec (extent w 0 * extent w 1) (extent w 2)) as [H|H];
      destruct (Nat.ltb_spec (Z.to_nat (extent w 0 * extent w 1))
                             (Z.to_nat (extent w 2))) as [H'|H'];
      try reflexivity; lia. }
  repeat split.
  - rewrite Hb. destruct (Z.ltb_spec (extent w 0 * extent w 1) (extent w 2));
      [auto | discriminate].
  - rewrite Hb. intros H. destruct (Z.ltb_spec (extent w 0 * extent w 1) (extent w 2));
      [auto | lia].
  - rewrite Hb. destruct (Z.ltb_spec (extent w 0 * extent w 1) (extent w 2));
      [discriminate | auto].
  - rewrite Hb. intros H. destruct (Z.ltb_spec (extent w 0 * extent w 1) (extent w 2));
      [lia | auto].
  - rewrite Hb. intros H. destruct (Z.ltb_spec (extent w 0 * extent w 1) (extent w 2));
      [lia | auto].
  - rewrite scaleproc_run. simpl fst. apply result_of_branch.
Qed.

Lemma scaleproc_branch_witness :
  (0 <= extent three_samples 2 < 2 ^ 32)%Z /\
  (0 <= extent three_samples 0 * extent three_samples 1 < 2 ^ 32)%Z /\
  (branch_of three_samples = SamplesRich <->
   (extent three_samples 0 * extent three_samples 1 < extent three_samples 2)%Z) /\
  (branch_of two_samples = FeatureRich <->
   (extent two_samples 2 <= extent two_samples 0 * extent two_samples 1)%Z).
Proof.
  assert (H3 : (0 <= extent three_samples 2 < 2 ^ 32)%Z) by (cbn; lia).
  assert (H3' : (0 <= extent three_samples 0 * extent three_samples 1 < 2 ^ 32)%Z)
    by (cbn; lia).
  assert (H2 : (0 <= extent two_samples 2 < 2 ^ 32)%Z) by (cbn; lia).
  assert (H2' : (0 <= extent two_samples 0 * extent two_samples 1 < 2 ^ 32)%Z)
    by (cbn; lia).
  split; [exact H3|]. split; [exact H3'|]. split.
  - exact (proj1 (scaleproc_branch eig_identity three_samples H3 H3')).
  - exact (proj1 (proj2 (scaleproc_branch eig_identity two_samples H2 H2'))).
Defined.

(** ** C4: the vector returned *)

(** C4 at one sample.  With a solver that returns an [n] x [n] matrix
    for [n] rows, a stack of one sample has a 1 x 1 [eigvec]; column 1
    of it does not exist and the call ends in an error: no weight
    vector is returned. *)
Theorem scaleproc_single_sample_fails (eig : Arma.mat -> Arma.vec * Arma.mat)
    (w : world) :
  eig_wf eig -> nn_of w = 1%nat -> (1 <= kk_of w)%nat ->
  fst (scaleproc eig w) = None.
Proof.
  intros Hwf Hn Hk. rewrite scaleproc_run. simpl fst.
  rewrite result_of_selected.
  destruct (slices_ok _ _ _); [|reflexivity].
  unfold selected_column.
  rewrite (proj2 (branch_feature_rich w)) by lia.
  unfold feature_rich_basis. rewrite Hn.
  rewrite cor_single.
  2:{ unfold Arma.t. destruct (kk_of w); [lia|]. simpl. discriminate. }
  destruct (Hwf [[1]]) as (_ & Hrows & Hcols).
  destruct (eig [[1]]) as [eigval eigvec]. simpl in *.
  destruct eigvec as [|r [|r' eigvec]]; simpl in Hrows; try discriminate.
  inversion Hcols as [|? ? Hr _]; subst.
  unfold Arma.col, Arma.n_cols. simpl. rewrite Hr. reflexivity.
Qed.

Lemma scaleproc_single_sample_fails_witness :
  eig_wf eig_identity /\ nn_of one_sample = 1%nat /\ (1 <= kk_of one_sample)%nat /\
  0 < nth 0 (aa_of one_sample) 0 /\
  fst (scaleproc eig_identity one_sample) = None.
Proof.
  split; [exact eig_identity_wf|]. split; [reflexivity|].
  split; [unfold kk_of; simpl; lia|].
  split; [rcompute; lra|].
  apply (scaleproc_single_sample_fails eig_identity one_sample).
  - exact eig_identity_wf.
  - reflexivity.
  - unfold kk_of; simpl; lia.
Defined.

(** ** C7: the reordering law *)




(** ** C8: the caller's array *)

Lemma keeps_ret {A} (x : A) : keeps_array (ret x).
Proof. intros w. reflexivity. Qed.

Lemma keeps_lift {A} (o : option A) : keeps_array (lift o).
Proof. intros w. reflexivity. Qed.

Lemma keeps_bind {A B} (c : M A) (f : A -> M B) :
  keeps_array c -> (forall x, keeps_array (f x)) -> keeps_array (bind c f).
Proof.
  intros Hc Hf w. unfold bind. specialize (Hc w).
  destruct (c w) as [[x|] w']; simpl in *.
  - now rewrite Hf.
  - assumption.
Qed.

Lemma keeps_cube_slice (k i : nat) : keeps_array (cube_slice k i).
Proof. intros w. reflexivity. Qed.

Lemma keeps_arrayDims (i : nat) : keeps_array (arrayDims i).
Proof. intros w. reflexivity. Qed.

Lemma keeps_Rprintf (x : R) : keeps_array (Rprintf x).
Proof. intros w. reflexivity. Qed.

Lemma keeps_for_loopM {S} (l : list nat) (body : nat -> S -> M S) :
  (forall i s, keeps_array (body i s)) ->
  forall s, keeps_array (for_loopM l body s).
Proof.
  intros Hb. induction l as [|i l IH]; intros s; simpl.
  - apply keeps_ret.
  - apply keeps_bind; auto.
Qed.

Create HintDb frame.

#[local] Hint Resolve keeps_ret keeps_lift keeps_cube_slice keeps_arrayDims
  keeps_Rprintf : frame.

Lemma keeps_read_samples (n k : nat) : keeps_array (read_samples n k).
Proof.
  unfold read_samples. apply keeps_for_loopM.
  intros i [aa omat].
  repeat (apply keeps_bind; [auto with frame | intros ?]).
  destruct (_ =? _)%nat; auto with frame.
Qed.

(** C8. A call leaves every element of the caller's array, and its
    extents, as they were: the cube only reads the buffer it views, and
    the centring and scaling work on [omat]. *)
Theorem scaleproc_keeps_input (eig : Arma.mat -> Arma.vec * Arma.mat) (w : world) :
  array_ (snd (scaleproc eig w)) = array_ w /\
  forall i, nth i (rdata (array_ (snd (scaleproc eig w)))) 0 =
            nth i (rdata (array_ w)) 0.
Proof.
  assert (H : keeps_array (scaleproc eig)).
  { unfold scaleproc.
    do 3 (apply keeps_bind; [auto with frame | intros ?]).
    apply keeps_bind; [apply keeps_read_samples | intros [aa omat]].
    destruct (_ <? _)%nat; auto with frame.
    repeat (apply keeps_bind; [auto with frame | intros ?]).
    auto with frame. }
  split; [apply H | intros i; now rewrite H].
Qed.

(** ** C9: unit columns *)

(** C9. In the samples-rich branch [vv] holds the norms of the columns
    of [V] before the loop of lines 60 to 63; after the loop every
    column whose norm was positive has norm 1.  When that holds of the
    selected column [u], as it does when some [delta[j]] is positive,
    the weights returned are [h[i] = sqrt(aasum/aa[i]) * |u[i]|] with
    [u] a unit vector. *)
Theorem normalised_columns (eig : Arma.mat -> Arma.vec * Arma.mat)
    (w : world) (h : Arma.vec) :
  branch_of w = SamplesRich ->
  fst (scaleproc eig w) = Some h ->
  exists lambda vv V0 V delta od0 rest,
    samples_rich_basis eig (omat_of w) (nn_of w) (kk_of w)
    = Some (lambda, vv, V, delta) /\
    normalise_cols (kk_of w) V0 = (vv, V) /\
    Arma.sort_index_descend delta = od0 :: rest /\
    (forall j, (j < kk_of w)%nat -> nth j vv 0 = col_norm j V0) /\
    (forall j, (j < kk_of w)%nat -> 0 < nth j vv 0 ->
       Arma.dot (Arma.col_raw j V) (Arma.col_raw j V) = 1 /\ col_norm j V = 1) /\
    (0 < nth od0 vv 0 \/ (exists j, (j < kk_of w)%nat /\ 0 < nth j delta 0) ->
     exists u, selected_column eig w = Some u /\ u = Arma.col_raw od0 V /\
       Arma.dot u u = 1 /\
       forall i, (i < nn_of w)%nat ->
         nth i h 0 = sqrt (aasum_of w / nth i (aa_of w) 0) * Rabs (nth i u 0)).
Proof.
  intros Hb Hh.
  destruct (samples_rich_selected eig w h Hb Hh)
    as (lambda & vv & V & delta & od0 & rest & Hbasis & Hod & Hlt & Hmax & _
        & Hsel & Hlen & Hnth).
  pose proof Hbasis as Hinv.
  apply (samples_rich_basis_some _ _ _ _ _ (omat_of_length _)) in Hinv.
  destruct Hinv as [_ Hinv].
  apply eigen_basis_inv in Hinv. cbv zeta in Hinv.
  destruct Hinv as (Hl0 & _ & Hlam & Hvv & HV & Hdelta & Hdl).
  match type of HV with _ = map _ ?v0 => set (V0 := v0) in * end.
  assert (Hloop : normalise_cols (kk_of w) V0 = (vv, V)).
  { rewrite normalise_cols_closed, <- Hvv, <- HV. reflexivity. }
  exists lambda, vv, V0, V, delta, od0, rest.
  split; [assumption|]. split; [assumption|]. split; [assumption|].
  split; [|split].
  - intros j Hj. now apply (normalise_cols_unit _ _ _ _ _ Hloop Hj).
  - intros j Hj Hpos.
    assert (Hu : Arma.dot (Arma.col_raw j V) (Arma.col_raw j V) = 1)
      by now apply (normalise_cols_unit _ _ _ _ _ Hloop Hj).
    split; [assumption|]. unfold col_norm. rewrite Hu. apply sqrt_1.
  - intros Hnz. rewrite Hdl in Hlt.
    assert (Hpos : 0 < nth od0 vv 0).
    { destruct Hnz as [Hpos|(j & Hj & Hdj)]; [assumption|].
      assert (Hd0 : 0 < nth od0 delta 0).
      { apply Rlt_le_trans with (nth j delta 0); [assumption|].
        apply Hmax. now rewrite Hdl. }
      assert (Hlv : length vv = kk_of w) by (rewrite Hvv, length_map; apply length_seq).
      assert (Hll : length lambda = kk_of w)
        by (rewrite Hlam, !length_map; apply length_seq).
      rewrite Hdelta, schur_raw_nth in Hd0
        by (rewrite length_map, Hll, Hlv; reflexivity).
      assert (Hv0 : 0 <= nth od0 vv 0).
      { rewrite (proj1 (normalise_cols_unit _ _ _ _ _ Hloop Hlt)).
        apply sqrt_pos. }
      destruct Hv0 as [Hv0|Hv0]; [assumption|].
      rewrite <- Hv0, Rmult_0_r in Hd0. lra. }
    rewrite scaleproc_run in Hh. simpl fst in Hh.
    rewrite result_of_selected, Hsel in Hh.
    destruct (slices_ok _ _ _); [|discriminate].
    destruct (Arma.col od0 V) as [c|] eqn:Hc; [|discriminate].
    exists c. rewrite Hsel.
    assert (Ec : c = Arma.col_raw od0 V).
    { unfold Arma.col in Hc. destruct (_ <? _)%nat; congruence. }
    split; [reflexivity|]. split; [assumption|]. split.
    + rewrite Ec. now apply (normalise_cols_unit _ _ _ _ _ Hloop Hlt).
    + intros i Hi. apply weights_spec in Hh. destruct Hh as (_ & _ & Hw).
      rewrite Hw by now rewrite aa_of_length.
      rewrite Rabs_mult, (Rabs_pos_eq (sqrt _)) by apply sqrt_pos.
      reflexivity.
Qed.

Lemma normalised_columns_witness :
  branch_of three_samples = SamplesRich /\
  fst (scaleproc eig_descending three_samples) = Some [1; 1; 1] /\
  exists u, selected_column eig_descending three_samples = Some u /\
    Arma.dot u u = 1 /\
    forall i, (i < nn_of three_samples)%nat ->
      nth i [1; 1; 1] 0
      = sqrt (aasum_of three_samples / nth i (aa_of three_samples) 0) * Rabs (nth i u 0).
Proof.
  split; [reflexivity|]. split; [exact three_samples_descending_result|].
  destruct (normalised_columns eig_descending three_samples [1; 1; 1] eq_refl
              three_samples_descending_result)
    as (lambda & vv & V0 & V & delta & od0 & rest & Hb & _ & Hod & _ & _ & Hu).
  rewrite three_samples_descending_basis in Hb.
  inversion Hb; subst lambda vv V delta; clear Hb.
  rewrite sort_index_two in Hod by lra.
  inversion Hod; subst od0 rest; clear Hod.
  destruct Hu as (u & Hsel & _ & Hunit & Hnth).
  - left. simpl. apply sqrt_lt_R0. lra.
  - exists u. auto.
Defined.

(** ** C10: the scale factors *)

Lemma scale_factor_ge_1 (s a : R) : 0 < a -> a <= s -> 1 <= sqrt (s / a).
Proof.
  intros Ha Hs. rewrite <- sqrt_1. apply sqrt_le_1_alt.
  apply (Rmult_le_reg_r a); [assumption|].
  unfold Rdiv. rewrite Rmult_assoc, Rinv_l by lra. lra.
Qed.

(** C10. Every [aa[i]] is a sum of squares and so not negative;
    [aasum] is their sum and so at least each of them; where [aa[i]] is
    positive the scale factor [sqrt(aasum/aa[i])] is at least 1, and the
    weight returned for sample [i] is at least the absolute value of
    entry [i] of the selected column. *)
Theorem scale_factor_bounds (eig : Arma.mat -> Arma.vec * Arma.mat) (w : world) :
  (forall i, (i < nn_of w)%nat ->
     nth i (aa_of w) 0 = sumsq (nth i (omat_of w) []) /\
     0 <= nth i (aa_of w) 0 /\
     nth i (aa_of w) 0 <= aasum_of w /\
     (0 < nth i (aa_of w) 0 -> 1 <= sqrt (aasum_of w / nth i (aa_of w) 0))) /\
  aasum_of w = Arma.accu (aa_of w) /\
  (forall h, fst (scaleproc eig w) = Some h ->
     exists c, selected_column eig w = Some c /\
       forall i, (i < nn_of w)%nat -> 0 < nth i (aa_of w) 0 ->
         Rabs (nth i c 0) <= nth i h 0).
Proof.
  assert (Hnn : forall i, (i < nn_of w)%nat -> 0 <= nth i (aa_of w) 0).
  { intros i Hi. pose proof (aa_of_nonneg w) as H.
    rewrite Forall_forall in H. apply H, nth_In. now rewrite aa_of_length. }
  assert (Hle : forall i, (i < nn_of w)%nat -> nth i (aa_of w) 0 <= aasum_of w).
  { intros i Hi. apply accu_ge_nth; [apply aa_of_nonneg | now rewrite aa_of_length]. }
  split; [|split].
  - intros i Hi. repeat split; auto.
    + unfold aa_of.
      rewrite (nth_indep _ 0 (sumsq [])) by (fold (aa_of w); now rewrite aa_of_length).
      now rewrite map_nth.
    + intros Hpos. now apply scale_factor_ge_1; auto.
  - reflexivity.
  - intros h. rewrite scaleproc_run. simpl fst. rewrite result_of_selected.
    destruct (slices_ok _ _ _); [|discriminate].
    destruct (selected_column eig w) as [c|]; [|discriminate].
    intros Hw. exists c. split; [reflexivity|].
    apply weights_spec in Hw. destruct Hw as (_ & _ & Hh).
    intros i Hi Hpos. rewrite Hh by now rewrite aa_of_length.
    rewrite Rabs_mult.
    assert (1 <= sqrt (aasum_of w / nth i (aa_of w) 0))
      by (apply scale_factor_ge_1; auto).
    rewrite (Rabs_pos_eq (sqrt _)) by lra.
    pose proof (Rabs_pos (nth i c 0)). nra.
Qed.

Lemma scale_factor_bounds_witness :
  0 < nth 0 (aa_of two_samples) 0 /\
  1 <= sqrt (aasum_of two_samples / nth 0 (aa_of two_samples) 0) /\
  exists h c,
    fst (scaleproc eig_identity two_samples) = Some h /\
    selected_column eig_identity two_samples = Some c /\
    Rabs (nth 0 c 0) <= nth 0 h 0.
Proof.
  assert (Hpos : 0 < nth 0 (aa_of two_samples) 0) by (rcompute; lra).
  assert (H0 : (0 < nn_of two_samples)%nat) by (unfold nn_of; simpl; lia).
  destruct (scale_factor_bounds eig_identity two_samples) as (Haa & _ & Hh).
  split; [exact Hpos|]. split.
  - destruct (Haa 0%nat H0) as (_ & _ & _ & H1). exact (H1 Hpos).
  - eexists.
    destruct (Hh _ (eq_trans (f_equal fst (scaleproc_run eig_identity two_samples))
                             eq_refl)) as (c & Hc & Hle).
    exists c. split; [rewrite scaleproc_run; reflexivity|].
    split; [exact Hc|]. exact (Hle 0%nat H0 Hpos).
Defined.
(** * Further properties of [scaleproc] *)

(** ** The console *)

(** X1.  Line 69.  A call that returns in the samples-rich branch writes
    one value to the console, [aa(0)], the sum of squares of the first
    sample.  A call in the feature-rich branch writes nothing, and
    neither does a call that ends in an error. *)
Theorem scaleproc_console (eig : Arma.mat -> Arma.vec * Arma.mat) (w : world) :
  console (snd (scaleproc eig w)) =
  match branch_of w, fst (scaleproc eig w) with
  | SamplesRich, Some _ =>
    console w ++ [sumsq (slice_of (rdata (array_ w)) (kk_of w) 0)]
  | _, _ => console w
  end.
Proof.
  rewrite scaleproc_run. simpl fst. simpl snd.
  unfold world_after, branch_of.
  destruct (result_of eig w) as [h|];
    destruct (Nat.ltb_spec (kk_of w) (nn_of w)) as [Hlt|Hge]; try reflexivity.
  simpl. do 2 f_equal.
  unfold aa_of, omat_of.
  change 0 with (sumsq []) at 1. rewrite map_nth.
  rewrite nth_samples_of by lia. reflexivity.
Qed.

(** ** When a call returns a vector *)

Lemma feature_rich_few_samples (eig : Arma.mat -> Arma.vec * Arma.mat)
    (A : R) (aa : Arma.vec) (omat : Arma.mat) (nn kk : nat) :
  eig_wf eig -> (nn <= 1)%nat -> (1 <= kk)%nat ->
  feature_rich eig A aa omat nn kk = None.
Proof.
  intros Hwf Hn Hk. unfold feature_rich, feature_rich_basis.
  set (zz := Arma.cor nn (Arma.t kk omat)).
  assert (Hzz : (length zz <= 1)%nat).
  { unfold zz, Arma.cor.
    destruct ((length (Arma.t kk omat) =? 0)%nat || (nn =? 0)%nat); [simpl; lia|].
    destruct ((length (Arma.t kk omat) =? 1)%nat || (nn =? 1)%nat) eqn:E; [simpl; lia|].
    apply orb_false_iff in E. destruct E as [_ E].
    rewrite length_map, length_seq. lia. }
  destruct (Hwf zz) as (_ & Hrows & Hcols).
  destruct (eig zz) as [eigval eigvec]. simpl in *.
  unfold Arma.col, Arma.n_cols.
  destruct eigvec as [|r eigvec]; [reflexivity|].
  inversion Hcols as [|? ? Hr _]; subst. simpl hd. rewrite Hr.
  destruct (Nat.ltb_spec 1 (length zz)); [lia|reflexivity].
Qed.

(** X2.  Lines 40, 45, 68 and 76.  With at least one feature, a buffer
    that holds the cube, samples none of which is constant over its
    features, and a solver that returns [n] eigenvalues and an [n] x
    [n] matrix for a matrix of [n] rows, a call returns a vector
    exactly when the stack has at least two samples.  A stack without
    samples, like a stack of one sample, runs the feature-rich code,
    where [eigvec] has no column 1. *)
Theorem scaleproc_returns_iff (eig : Arma.mat -> Arma.vec * Arma.mat) (w : world) :
  eig_wf eig ->
  slices_ok (rdata (array_ w)) (nn_of w) (kk_of w) = true ->
  (1 <= kk_of w)%nat ->
  samples_vary w ->
  ((exists h, fst (scaleproc eig w) = Some h) <-> (2 <= nn_of w)%nat).
Proof.
  intros Hwf Hok Hk Hvary. rewrite scaleproc_run. simpl fst.
  unfold result_of. rewrite Hok. split.
  - intros [h Hh].
    destruct (Nat.ltb_spec (kk_of w) (nn_of w)) as [Hlt|Hge]; [lia|].
    destruct (le_lt_dec 2 (nn_of w)) as [H2|H2]; [assumption|].
    rewrite feature_rich_few_samples in Hh by (assumption || lia).
    discriminate.
  - intros H2.
    destruct (Nat.ltb_spec (kk_of w) (nn_of w)) as [Hlt|Hge].
    + apply samples_rich_total; [assumption | assumption | assumption | apply Hwf].
    + apply feature_rich_total; [assumption | assumption | apply Hwf].
Qed.

Lemma scaleproc_returns_iff_witness :
  eig_wf eig_identity /\
  slices_ok (rdata (array_ two_samples)) (nn_of two_samples) (kk_of two_samples)
  = true /\
  (1 <= kk_of two_samples)%nat /\
  samples_vary two_samples /\
  ((exists h, fst (scaleproc eig_identity two_samples) = Some h)
   <-> (2 <= nn_of two_samples)%nat).
Proof.
  split; [exact eig_identity_wf|]. split; [reflexivity|].
  split; [unfold kk_of; simpl; lia|]. split; [exact two_samples_vary|].
  apply (scaleproc_returns_iff eig_identity two_samples).
  - exact eig_identity_wf.
  - reflexivity.
  - unfold kk_of; simpl; lia.
  - exact two_samples_vary.
Defined.

(** ** The first loop *)

Lemma firstn_plus {A} (a b : nat) (l : list A) :
  firstn (a + b) l = firstn a l ++ firstn b (skipn a l).
Proof.
  revert l. induction a as [|a IH]; intros l; [reflexivity|].
  destruct l as [|x l]; simpl.
  - now rewrite firstn_nil.
  - now rewrite IH.
Qed.

Lemma concat_samples (data : list R) (n k : nat) :
  concat (samples_of data n k) = firstn (n * k) data.
Proof.
  unfold samples_of. induction n as [|n IH]; [reflexivity|].
  rewrite seq_S, map_app, concat_app, IH. simpl map. simpl concat.
  rewrite app_nil_r. unfold slice_of.
  replace (S n * k)%nat with (n * k + k)%nat by lia.
  now rewrite firstn_plus.
Qed.

Lemma sumsq_app (u v : Arma.vec) : sumsq (u ++ v) = sumsq u + sumsq v.
Proof.
  induction u as [|x u IH].
  - change (sumsq v = 0 + sumsq v). ring.
  - change (x * x + sumsq (u ++ v) = x * x + sumsq u + sumsq v).
    rewrite IH. ring.
Qed.

Lemma sumsq_concat (M : Arma.mat) :
  sumsq (concat M) = Arma.accu (map sumsq M).
Proof.
  induction M as [|r M IH]; [unfold sumsq; simpl; reflexivity|].
  simpl concat. rewrite sumsq_app, IH. reflexivity.
Qed.

(** X3.  Lines 23 to 35.  When the first loop ends, the rows of [omat],
    one after the other, are the first [n * k] values of the caller's
    buffer: row [i] is slice [i] in the order of the memory.  [aa] holds
    the sums of squares of the rows, and their sum, [aasum], is the sum
    of squares of all [n * k] values.  The loop leaves the world as it
    was. *)
Theorem first_loop_copies (n k : nat) (w w' : world) (aa : Arma.vec)
    (omat : Arma.mat) :
  read_samples n k w = (Some (aa, omat), w') ->
  w' = w /\
  length omat = n /\
  Forall (fun r => length r = k) omat /\
  concat omat = firstn (n * k) (rdata (array_ w)) /\
  aa = map sumsq omat /\
  Arma.accu aa = sumsq (firstn (n * k) (rdata (array_ w))).
Proof.
  rewrite read_samples_run. intros H.
  destruct (slices_ok (rdata (array_ w)) n k) eqn:Hok; [|discriminate].
  inversion H; subst; clear H.
  split; [reflexivity|].
  split; [unfold samples_of; now rewrite length_map, length_seq|].
  split.
  - rewrite slices_ok_spec in Hok. apply Forall_forall. intros r Hr.
    unfold samples_of in Hr. apply in_map_iff in Hr.
    destruct Hr as (i & <- & Hi). apply in_seq in Hi. apply Hok. lia.
  - split; [apply concat_samples|]. split; [reflexivity|].
    now rewrite <- concat_samples, sumsq_concat.
Qed.

Lemma first_loop_copies_witness :
  exists aa omat,
    read_samples 2 3 two_samples = (Some (aa, omat), two_samples) /\
    concat omat = [1; -1; 0; 1; 1; -2] /\
    aa = map sumsq omat.
Proof.
  exists (map sumsq (samples_of (rdata (array_ two_samples)) 2 3)),
         (samples_of (rdata (array_ two_samples)) 2 3).
  assert (H : read_samples 2 3 two_samples
              = (Some (map sumsq (samples_of (rdata (array_ two_samples)) 2 3),
                       samples_of (rdata (array_ two_samples)) 2 3), two_samples))
    by (rewrite read_samples_run; reflexivity).
  destruct (first_loop_copies 2 3 two_samples two_samples _ _ H)
    as (_ & _ & _ & Hc & Ha & _).
  split; [exact H|]. split; [exact Hc | exact Ha].
Defined.

(** ** The standardised samples *)

Lemma accu_map_minus (m : R) (r : Arma.vec) :
  Arma.accu (map (fun x => x - m) r) = Arma.accu r - INR (length r) * m.
Proof.
  induction r as [|x r IH]; [simpl; ring|].
  change (length (x :: r)) with (S (length r)). rewrite S_INR.
  change (x - m + Arma.accu (map (fun x => x - m) r)
          = x + Arma.accu r - (INR (length r) + 1) * m).
  rewrite IH. ring.
Qed.

Lemma accu_centred (r : Arma.vec) :
  r <> [] -> Arma.accu (map (fun x => x - Arma.mean r) r) = 0.
Proof.
  intros Hr. rewrite accu_map_minus. unfold Arma.mean.
  assert (0 < INR (length r)).
  { apply lt_0_INR. destruct r; [congruence | simpl; lia]. }
  field. lra.
Qed.

Lemma var_sumsq (r : Arma.vec) :
  (2 <= length r)%nat ->
  Arma.accu (map (fun x => (x - Arma.mean r) * (x - Arma.mean r)) r)
  = Arma.var r * (INR (length r) - 1).
Proof.
  intros Hr. unfold Arma.var.
  destruct (Nat.ltb_spec (length r) 2); [lia|].
  rewrite minus_INR by lia. simpl INR.
  assert (2 <= INR (length r)) by (apply (le_INR 2); assumption).
  field. lra.
Qed.

Lemma standardise_sum (df : R) (r : Arma.vec) :
  r <> [] -> Arma.accu (standardise df r) = 0.
Proof.
  intros Hr. unfold standardise.
  rewrite <- (map_map (fun x => x - Arma.mean r)
                      (fun y => sqrt (1 / (Arma.var r * df)) * y)).
  rewrite accu_map_scale, accu_centred by assumption. ring.
Qed.

Lemma standardise_norm (df : R) (r : Arma.vec) :
  (2 <= length r)%nat -> 0 < df -> 0 < Arma.var r ->
  Arma.dot (standardise df r) (standardise df r) = (INR (length r) - 1) / df.
Proof.
  intros Hr Hdf Hv. unfold standardise. rewrite dot_map.
  set (c := sqrt (1 / (Arma.var r * df))).
  assert (Hc : c * c = 1 / (Arma.var r * df)).
  { unfold c. apply sqrt_sqrt. apply Rlt_le. apply Rdiv_lt_0_compat; [lra|].
    now apply Rmult_lt_0_compat. }
  transitivity
    (Arma.accu (map (fun y => (c * c) * y)
                    (map (fun x => (x - Arma.mean r) * (x - Arma.mean r)) r))).
  { rewrite map_map. f_equal. apply map_ext. intros x. ring. }
  rewrite accu_map_scale, var_sumsq, Hc by assumption. field. lra.
Qed.

(** X4.  Lines 41 to 45.  In the samples-rich branch, with at least two
    features, when the centring and scaling go through (no sample is
    constant over its features), they leave every sample with [K]
    entries, the sum 0 and the sum of squares [(K - 1) * N / (N - 1)],
    the same for every sample. *)
Theorem standardised_samples (w : world) (Z : Arma.mat) :
  slices_ok (rdata (array_ w)) (nn_of w) (kk_of w) = true ->
  (2 <= kk_of w < nn_of w)%nat ->
  (let '(qq, omat) :=
     center_rows (nn_of w) ((INR (nn_of w) - 1) / INR (nn_of w)) (omat_of w) in
   scale_rows qq omat) = Some Z ->
  length Z = nn_of w /\
  forall i, (i < nn_of w)%nat ->
    length (nth i Z []) = kk_of w /\
    Arma.accu (nth i Z []) = 0 /\
    Arma.dot (nth i Z []) (nth i Z [])
    = (INR (kk_of w) - 1) * INR (nn_of w) / (INR (nn_of w) - 1).
Proof.
  intros Hok [Hk Hn] HZ.
  set (df := (INR (nn_of w) - 1) / INR (nn_of w)) in *.
  rewrite (standardise_closed (nn_of w) df (omat_of w) (omat_of_length w)) in HZ.
  destruct (rows_vary df (omat_of w)) eqn:Hvary; [|discriminate].
  injection HZ as HZ. subst Z.
  split; [rewrite length_map; apply omat_of_length|].
  intros i Hi.
  assert (Hlen : length (nth i (omat_of w) []) = kk_of w).
  { rewrite slices_ok_spec in Hok. unfold omat_of.
    rewrite nth_samples_of by assumption. now apply Hok. }
  assert (HN : INR 3 <= INR (nn_of w)) by (apply le_INR; lia).
  simpl in HN.
  assert (Hdf : 0 < df) by (unfold df; apply Rdiv_lt_0_compat; lra).
  assert (Hv : 0 < Arma.var (nth i (omat_of w) [])).
  { apply (rows_vary_samples w Hvary). exact Hi. }
  assert (Hz : nth i (map (standardise df) (omat_of w)) []
               = standardise df (nth i (omat_of w) [])).
  { apply nth_map_in. rewrite omat_of_length. exact Hi. }
  unfold Arma.vec in *. rewrite Hz.
  split; [now rewrite standardise_length|]. split.
  - apply standardise_sum. intros E. rewrite E in Hlen. simpl in Hlen. lia.
  - rewrite standardise_norm; [| lia | assumption | assumption].
    rewrite Hlen. unfold df. field. lra.
Qed.

Lemma standardised_samples_witness :
  exists Z,
    slices_ok (rdata (array_ three_samples)) (nn_of three_samples)
              (kk_of three_samples) = true /\
    (2 <= kk_of three_samples < nn_of three_samples)%nat /\
    (let '(qq, omat) :=
       center_rows (nn_of three_samples)
         ((INR (nn_of three_samples) - 1) / INR (nn_of three_samples))
         (omat_of three_samples) in
     scale_rows qq omat) = Some Z /\
    length Z = nn_of three_samples /\
    forall i, (i < nn_of three_samples)%nat ->
      length (nth i Z []) = kk_of three_samples /\
      Arma.accu (nth i Z []) = 0 /\
      Arma.dot (nth i Z []) (nth i Z [])
      = (INR (kk_of three_samples) - 1) * INR (nn_of three_samples)
        / (INR (nn_of three_samples) - 1).
Proof.
  assert (HZ : (let '(qq, omat) :=
       center_rows (nn_of three_samples)
         ((INR (nn_of three_samples) - 1) / INR (nn_of three_samples))
         (omat_of three_samples) in
     scale_rows qq omat)
     = Some (map (standardise ((INR (nn_of three_samples) - 1)
                               / INR (nn_of three_samples)))
                 (omat_of three_samples))).
  { rewrite (standardise_closed _ _ _ (omat_of_length three_samples)).
    now rewrite three_samples_rows_vary. }
  assert (Hk : (2 <= kk_of three_samples < nn_of three_samples)%nat)
    by (unfold kk_of, nn_of; simpl; lia).
  eexists. split; [reflexivity|]. split; [exact Hk|]. split; [exact HZ|].
  exact (standardised_samples three_samples _ eq_refl Hk HZ).
Defined.

(** ** The matrix given to the solver in the samples-rich branch *)

Section Gram.

Variable Z : Arma.mat.
Variable K : nat.
Hypothesis K_pos : (1 <= K)%nat.
Hypothesis Z_rows : Forall (fun r => length r = K) Z.

Lemma Lmat_row_length (a : nat) :
  (a < K)%nat ->
  length (nth a (Arma.mul (Arma.t K Z) (Arma.mat_div Z (INR K)) K) []) = K.
Proof.
  intros Ha. rewrite (Lmat_row Z K) by assumption.
  now rewrite length_map, length_seq.
Qed.

Lemma Lmat_sym (a b : nat) :
  (a < K)%nat -> (b < K)%nat ->
  nth b (nth a (Arma.mul (Arma.t K Z) (Arma.mat_div Z (INR K)) K) []) 0
  = nth a (nth b (Arma.mul (Arma.t K Z) (Arma.mat_div Z (INR K)) K) []) 0.
Proof.
  intros Ha Hb.
  assert (HK : 0 < INR K) by (apply lt_0_INR; lia).
  apply (Rmult_eq_reg_l (INR K)); [|lra].
  rewrite !(Lmat_entry Z K K_pos) by assumption.
  apply rsum_ext. intros i _. ring.
Qed.

(** The quadratic form of [Lmat] at [x] is the sum of the squares of
    the products of the rows of [Z] with [x], divided by [K]. *)
Lemma Lmat_quadratic (x : Arma.vec) :
  length x = K ->
  INR K * Arma.dot x (map (fun row : list R => Arma.dot row x)
                          (Arma.mul (Arma.t K Z) (Arma.mat_div Z (INR K)) K))
  = Arma.accu (map (fun r : list R => Arma.dot r x * Arma.dot r x) Z).
Proof.
  intros Hx. symmetry.
  set (L := Arma.mul (Arma.t K Z) (Arma.mat_div Z (INR K)) K).
  assert (HL : length L = K).
  { unfold L, Arma.mul, Arma.t. now rewrite !length_map, length_seq. }
  rewrite (accu_map_rsum _ []).
  rewrite (rsum_ext _ _
    (fun i => rsum K (fun a => rsum K (fun b =>
       (nth a (nth i Z []) 0 * nth a x 0) * (nth b (nth i Z []) 0 * nth b x 0))))).
  2:{ intros i Hi.
      rewrite dot_rsum by (rewrite (row_length Z K Z_rows); auto).
      rewrite (row_length Z K Z_rows) by assumption. apply rsum_mult. }
  rewrite rsum_swap.
  rewrite dot_rsum by (now rewrite length_map, HL).
  rewrite Hx, <- rsum_scal. apply rsum_ext. intros a Ha.
  rewrite rsum_swap.
  assert (Hrow : nth a (map (fun row : list R => Arma.dot row x) L) 0
                 = Arma.dot (nth a L []) x).
  { change 0 with (Arma.dot [] x) at 1.
    exact (map_nth (fun row : list R => Arma.dot row x) L [] a). }
  rewrite Hrow.
  rewrite dot_rsum by (unfold L; now rewrite Lmat_row_length, Hx).
  unfold L at 1. rewrite Lmat_row_length by assumption.
  rewrite <- !rsum_scal. apply rsum_ext. intros b Hb.
  rewrite (rsum_ext _ _
    (fun i => (nth a x 0 * nth b x 0)
              * (nth a (nth i Z []) 0 * nth b (nth i Z []) 0)))
    by (intros; ring).
  rewrite rsum_scal, <- (Lmat_entry Z K K_pos) by assumption.
  fold L. ring.
Qed.

End Gram.

(** X5.  Line 47.  With at least one feature and no sample constant
    over its features, [Lmat], the matrix whose eigenvectors the
    samples-rich branch asks for, is a [K] x [K] matrix, symmetric, and
    positive semi-definite: its quadratic form is nowhere negative. *)
Theorem Lmat_symmetric_psd (w : world) :
  slices_ok (rdata (array_ w)) (nn_of w) (kk_of w) = true ->
  (1 <= kk_of w)%nat ->
  samples_vary w ->
  length (Lmat_of w) = kk_of w /\
  (forall a, (a < kk_of w)%nat -> length (nth a (Lmat_of w) []) = kk_of w) /\
  (forall a b, (a < kk_of w)%nat -> (b < kk_of w)%nat ->
     nth b (nth a (Lmat_of w) []) 0 = nth a (nth b (Lmat_of w) []) 0) /\
  (forall x, length x = kk_of w ->
     0 <= Arma.dot x (map (fun row : list R => Arma.dot row x) (Lmat_of w))).
Proof.
  intros Hok Hk _.
  pose proof (standardised_rows w Hok) as Hrows.
  split; [apply Lmat_of_length|]. split; [|split].
  - intros a Ha. now apply Lmat_row_length.
  - intros a b Ha Hb. now apply Lmat_sym.
  - intros x Hx.
    assert (HK : 0 < INR (kk_of w)) by (apply lt_0_INR; lia).
    apply (Rmult_le_reg_l (INR (kk_of w))); [assumption|].
    rewrite Rmult_0_r. unfold Lmat_of.
    rewrite Lmat_quadratic by assumption.
    apply accu_squares_nonneg.
Qed.

Lemma Lmat_symmetric_psd_witness :
  slices_ok (rdata (array_ three_samples)) (nn_of three_samples) (kk_of three_samples)
  = true /\
  (1 <= kk_of three_samples)%nat /\
  samples_vary three_samples /\
  length (Lmat_of three_samples) = kk_of three_samples /\
  nth 1 (nth 0 (Lmat_of three_samples) []) 0
  = nth 0 (nth 1 (Lmat_of three_samples) []) 0.
Proof.
  split; [reflexivity|].
  split; [unfold kk_of; simpl; lia|]. split; [exact three_samples_vary|].
  destruct (Lmat_symmetric_psd three_samples) as (Hl & _ & Hs & _).
  - reflexivity.
  - unfold kk_of; simpl; lia.
  - exact three_samples_vary.
  - split; [exact Hl|]. apply Hs; unfold kk_of; simpl; lia.
Defined.

(** ** The matrix given to the solver in the feature-rich branch *)

(** X6.  Line 71.  In the feature-rich branch with at least two samples
    [zz] is an [N] x [N] matrix, symmetric; its diagonal entry for a
    sample whose entries are not all equal is 1, and its entry for two
    such samples lies between -1 and 1. *)
Theorem zz_correlation (w : world) :
  slices_ok (rdata (array_ w)) (nn_of w) (kk_of w) = true ->
  (2 <= nn_of w <= kk_of w)%nat ->
  length (zz_of w) = nn_of w /\
  (forall i, (i < nn_of w)%nat -> length (nth i (zz_of w) []) = nn_of w) /\
  (forall i j, (i < nn_of w)%nat -> (j < nn_of w)%nat ->
     nth j (nth i (zz_of w) []) 0 = nth i (nth j (zz_of w) []) 0) /\
  (forall i, (i < nn_of w)%nat -> 0 < Arma.var (nth i (omat_of w) []) ->
     nth i (nth i (zz_of w) []) 0 = 1) /\
  (forall i j, (i < nn_of w)%nat -> (j < nn_of w)%nat ->
     0 < Arma.var (nth i (omat_of w) []) -> 0 < Arma.var (nth j (omat_of w) []) ->
     -1 <= nth j (nth i (zz_of w) []) 0 <= 1).
Proof.
  intros Hok [Hn Hk].
  set (X := Arma.t (kk_of w) (omat_of w)).
  assert (HX : length X = kk_of w)
    by (unfold X, Arma.t; now rewrite length_map, length_seq).
  assert (Hrows : Forall (fun r => length r = nn_of w) X).
  { unfold X. rewrite <- (omat_of_length w). apply t_rows. }
  assert (Hrow : forall i, (i < nn_of w)%nat -> length (nth i (omat_of w) []) = kk_of w).
  { intros i Hi. rewrite slices_ok_spec in Hok. unfold omat_of.
    rewrite nth_samples_of by assumption. now apply Hok. }
  assert (Hcol : forall i, (i < nn_of w)%nat -> Arma.col_raw i X = nth i (omat_of w) []).
  { intros i Hi. unfold X. apply col_raw_t. now apply Hrow. }
  assert (HK : INR (length X - 1) = INR (kk_of w) - 1).
  { rewrite HX, minus_INR by lia. reflexivity. }
  assert (HK1 : 1 <= INR (kk_of w) - 1).
  { assert (INR 2 <= INR (kk_of w)) by (apply le_INR; lia). simpl in *. lra. }
  assert (Hentry : forall i j, (i < nn_of w)%nat -> (j < nn_of w)%nat ->
            let c a := map (fun x => x - Arma.mean (nth a (omat_of w) []))
                           (nth a (omat_of w) []) in
            let out a b := Arma.dot (c a) (c b) / (INR (kk_of w) - 1) in
            nth j (nth i (zz_of w) []) 0
            = out i j / (sqrt (out i i) * sqrt (out j j))).
  { intros i j Hi Hj. unfold zz_of. fold X.
    rewrite cor_entry by (assumption || lia).
    cbv zeta. now rewrite !Hcol, HK by assumption. }
  assert (Hvar : forall i, (i < nn_of w)%nat ->
            Arma.dot (map (fun x => x - Arma.mean (nth i (omat_of w) []))
                          (nth i (omat_of w) []))
                     (map (fun x => x - Arma.mean (nth i (omat_of w) []))
                          (nth i (omat_of w) []))
            / (INR (kk_of w) - 1)
            = Arma.var (nth i (omat_of w) [])).
  { intros i Hi. rewrite dot_map, var_sumsq, Hrow by (rewrite ?Hrow; lia || assumption).
    field. lra. }
  split; [apply zz_of_length; assumption|]. split; [|split; [|split]].
  - intros i Hi. unfold zz_of, Arma.cor. fold X. rewrite HX.
    destruct (Nat.eqb_spec (kk_of w) 0); [lia|].
    destruct (Nat.eqb_spec (nn_of w) 0); [lia|].
    destruct (Nat.eqb_spec (kk_of w) 1); [lia|].
    destruct (Nat.eqb_spec (nn_of w) 1); [lia|].
    simpl orb. cbv iota zeta.
    rewrite nth_map_seq_gen by assumption. now rewrite length_map, length_seq.
  - intros i j Hi Hj. rewrite !Hentry by assumption. cbv zeta.
    set (ci := map (fun x => x - Arma.mean (nth i (omat_of w) [])) (nth i (omat_of w) [])).
    set (cj := map (fun x => x - Arma.mean (nth j (omat_of w) [])) (nth j (omat_of w) [])).
    rewrite (dot_comm cj ci). f_equal. apply Rmult_comm.
  - intros i Hi Hv. rewrite Hentry by assumption. cbv zeta.
    rewrite Hvar by assumption. apply div_sqrt_sqrt; [assumption | reflexivity].
  - intros i j Hi Hj Hvi Hvj. rewrite Hentry by assumption. cbv zeta.
    rewrite !Hvar by assumption.
    set (ci := map (fun x => x - Arma.mean (nth i (omat_of w) [])) (nth i (omat_of w) [])).
    set (cj := map (fun x => x - Arma.mean (nth j (omat_of w) [])) (nth j (omat_of w) [])).
    pose proof (dot_cauchy ci cj) as HCS.
    pose proof (Hvar i Hi) as Hi'. pose proof (Hvar j Hj) as Hj'.
    fold ci in Hi'. fold cj in Hj'.
    set (p := Arma.var (nth i (omat_of w) [])) in *.
    set (q := Arma.var (nth j (omat_of w) [])) in *.
    set (K1 := INR (kk_of w) - 1) in *.
    set (C := Arma.dot ci cj) in *.
    assert (Hii : Arma.dot ci ci = p * K1) by (rewrite <- Hi'; field; lra).
    assert (Hjj : Arma.dot cj cj = q * K1) by (rewrite <- Hj'; field; lra).
    rewrite Hii, Hjj in HCS.
    pose proof (sqrt_lt_R0 p Hvi) as Hsp. pose proof (sqrt_lt_R0 q Hvj) as Hsq.
    pose proof (sqrt_sqrt p (Rlt_le _ _ Hvi)) as Hpp.
    pose proof (sqrt_sqrt q (Rlt_le _ _ Hvj)) as Hqq.
    set (sp := sqrt p) in *. set (sq := sqrt q) in *.
    assert (Hd : 0 < sp * sq) by (apply Rmult_lt_0_compat; assumption).
    assert (Hb : (C / K1) * (C / K1) <= (sp * sq) * (sp * sq)).
    { replace ((sp * sq) * (sp * sq)) with (p * q) by (rewrite <- Hpp, <- Hqq; ring).
      apply (Rmult_le_reg_l (K1 * K1)); [nra|].
      replace (K1 * K1 * (C / K1 * (C / K1))) with (C * C) by (field; lra).
      lra. }
    assert (Hc : - (sp * sq) <= C / K1 <= sp * sq) by (split; nra).
    split.
    + apply (Rmult_le_reg_r (sp * sq)); [assumption|].
      unfold Rdiv at 1. rewrite Rmult_assoc, Rinv_l by lra. lra.
    + apply (Rmult_le_reg_r (sp * sq)); [assumption|].
      unfold Rdiv at 1. rewrite Rmult_assoc, Rinv_l by lra. lra.
Qed.

Lemma zz_correlation_witness :
  slices_ok (rdata (array_ two_samples)) (nn_of two_samples) (kk_of two_samples)
  = true /\
  (2 <= nn_of two_samples <= kk_of two_samples)%nat /\
  0 < Arma.var (nth 0 (omat_of two_samples) []) /\
  length (zz_of two_samples) = nn_of two_samples /\
  nth 0 (nth 0 (zz_of two_samples) []) 0 = 1.
Proof.
  split; [reflexivity|].
  split; [unfold kk_of, nn_of; simpl; lia|].
  assert (Hv : 0 < Arma.var (nth 0 (omat_of two_samples) [])) by (rcompute; lra).
  split; [exact Hv|].
  destruct (zz_correlation two_samples) as (Hl & _ & _ & Hd & _).
  - reflexivity.
  - unfold kk_of, nn_of; simpl; lia.
  - split; [exact Hl|]. apply Hd; [unfold nn_of; simpl; lia | exact Hv].
Defined.

(** ** What the samples-rich branch computes *)

(** Lines 53 to 58.  Column [j] of [V] before the loop of lines 60 to
    63 holds the products of the rows of [omat] with column
    [K - 1 - j] of the matrix that the solver returned. *)
Lemma reversed_column (Z U0 : Arma.mat) (kk j : nat) :
  (j < kk)%nat ->
  Arma.col_raw j
    (Arma.mul Z (map (fun r => map (fun j => nth j r 0)
                                   (map (fun i => (kk - 1 - i)%nat) (seq 0 kk))) U0) kk)
  = map (fun r : list R => Arma.dot r (Arma.col_raw (kk - 1 - j) U0)) Z.
Proof.
  intros Hj.
  set (usort := map (fun i => (kk - 1 - i)%nat) (seq 0 kk)).
  assert (Hus : nth j usort 0%nat = (kk - 1 - j)%nat)
    by exact (nth_map_seq_gen (fun i => (kk - 1 - i)%nat) 0%nat kk j Hj).
  assert (Hlus : length usort = kk) by (unfold usort; now rewrite length_map, length_seq).
  unfold Arma.mul, Arma.col_raw at 1. rewrite map_map. apply map_ext. intros r.
  rewrite nth_map_seq by assumption. f_equal.
  unfold Arma.col_raw. rewrite map_map. apply map_ext. intros r'.
  rewrite <- Hus.
  rewrite (nth_indep _ 0 ((fun j => nth j r' 0) 0%nat))
    by (rewrite length_map, Hlus; exact Hj).
  apply (map_nth (fun j => nth j r' 0) usort 0%nat j).
Qed.

(** X7.  Lines 46 to 64.  With [u(j)] column [K - 1 - j] of the matrix
    that the solver returns for [Lmat], the reversal of lines 53 to 57
    makes [lambda(j)] the solver's eigenvalue [K - 1 - j]; [vv(j)] is
    the norm of the products of the standardised samples with [u(j)];
    column [j] of [V] holds these products divided by [vv(j)]; and
    [delta(j)] is [sqrt(|lambda(j) / K|) * vv(j)]. *)
Theorem samples_rich_basis_form (eig : Arma.mat -> Arma.vec * Arma.mat)
    (w : world) (lambda vv : Arma.vec) (V : Arma.mat) (delta : Arma.vec) :
  samples_rich_basis eig (omat_of w) (nn_of w) (kk_of w)
  = Some (lambda, vv, V, delta) ->
  let Z := map (standardise ((INR (nn_of w) - 1) / INR (nn_of w))) (omat_of w) in
  length (fst (eig (Lmat_of w))) = kk_of w /\
  length (snd (eig (Lmat_of w))) = kk_of w /\
  forall j, (j < kk_of w)%nat ->
    let u := Arma.col_raw (kk_of w - 1 - j) (snd (eig (Lmat_of w))) in
    nth j lambda 0 = nth (kk_of w - 1 - j) (fst (eig (Lmat_of w))) 0 /\
    nth j vv 0
    = sqrt (Arma.accu (map (fun r : list R => Arma.dot r u * Arma.dot r u) Z)) /\
    Arma.col_raw j V = map (fun r : list R => Arma.dot r u / nth j vv 0) Z /\
    nth j delta 0 = sqrt (Rabs (nth j lambda 0 / INR (kk_of w))) * nth j vv 0.
Proof.
  intros Hb Z.
  apply (samples_rich_basis_some _ _ _ _ _ (omat_of_length _)) in Hb.
  destruct Hb as [_ Hb].
  apply eigen_basis_inv in Hb. cbv zeta in Hb. fold Z in Hb.
  change (Arma.mul (Arma.t (kk_of w) Z) (Arma.mat_div Z (INR (kk_of w))) (kk_of w))
    with (Lmat_of w) in Hb.
  destruct Hb as (Hl0 & HU0 & Hlam & Hvv & HV & Hdelta & Hdl).
  split; [exact Hl0|]. split; [exact HU0|].
  intros j Hj u.
  set (usort := map (fun i => (kk_of w - 1 - i)%nat) (seq 0 (kk_of w))) in *.
  assert (Hlus : length usort = kk_of w)
    by (unfold usort; now rewrite length_map, length_seq).
  assert (Hus : nth j usort 0%nat = (kk_of w - 1 - j)%nat)
    by exact (nth_map_seq_gen (fun i => (kk_of w - 1 - i)%nat) 0%nat _ j Hj).
  assert (Hlj : nth j lambda 0 = nth (kk_of w - 1 - j) (fst (eig (Lmat_of w))) 0).
  { rewrite Hlam, (nth_map_in _ _ 0%nat), Hus by (rewrite Hlus; exact Hj).
    reflexivity. }
  assert (Hvj : nth j vv 0
                = sqrt (Arma.accu (map (fun r : list R => Arma.dot r u * Arma.dot r u) Z))).
  { rewrite Hvv, nth_map_seq by assumption. unfold col_norm, usort.
    rewrite reversed_column by assumption. fold u.
    now rewrite dot_self, map_map. }
  assert (Hlv : length vv = kk_of w) by (rewrite Hvv; now rewrite length_map, length_seq).
  assert (Hll : length lambda = kk_of w) by (rewrite Hlam; now rewrite length_map).
  split; [exact Hlj|]. split; [exact Hvj|]. split.
  - rewrite HV, col_raw_normalised_row by (rewrite Hlv; exact Hj).
    unfold usort. rewrite reversed_column by assumption. fold u.
    rewrite map_map. reflexivity.
  - rewrite Hdelta, schur_raw_nth by (now rewrite length_map, Hll, Hlv).
    now rewrite (nth_map_in _ _ 0) by (rewrite Hll; exact Hj).
Qed.

Lemma samples_rich_basis_form_witness :
  exists lambda vv V delta,
    samples_rich_basis eig_ascending (omat_of three_samples)
      (nn_of three_samples) (kk_of three_samples) = Some (lambda, vv, V, delta) /\
    nth 0 lambda 0 = 9 / 4 /\ nth 1 lambda 0 = 0.
Proof.
  destruct three_samples_ascending_returns as [h Hh].
  destruct (samples_rich_selected eig_ascending three_samples h eq_refl Hh)
    as (lambda & vv & V & delta & od0 & rest & Hb & _).
  exists lambda, vv, V, delta. split; [exact Hb|].
  destruct (samples_rich_basis_form eig_ascending three_samples lambda vv V delta Hb)
    as (_ & _ & Hj).
  assert (H0 : (0 < kk_of three_samples)%nat) by (unfold kk_of; simpl; lia).
  assert (H1 : (1 < kk_of three_samples)%nat) by (unfold kk_of; simpl; lia).
  split.
  - exact (proj1 (Hj 0%nat H0)).
  - exact (proj1 (Hj 1%nat H1)).
Defined.

(** ** The weights with an exact solver *)

(** X8.  Lines 46 to 64.  When what the solver returns for [Lmat] are
    exact eigenpairs, the eigenvalues after the reversal of lines 53 to
    57 are those of the solver in reversed order and none is negative,
    the norm [vv(j)] of column [j] of [V] is the root of [K] times
    eigenvalue [j], and [delta] is the vector of the eigenvalues. *)
Theorem exact_solver_basis (eig : Arma.mat -> Arma.vec * Arma.mat) (w : world)
    (lambda vv : Arma.vec) (V : Arma.mat) (delta : Arma.vec) :
  slices_ok (rdata (array_ w)) (nn_of w) (kk_of w) = true ->
  (1 <= kk_of w)%nat ->
  samples_rich_basis eig (omat_of w) (nn_of w) (kk_of w)
  = Some (lambda, vv, V, delta) ->
  eigenpairs (Lmat_of w) (fst (eig (Lmat_of w))) (snd (eig (Lmat_of w))) ->
  length lambda = kk_of w /\ length vv = kk_of w /\ length delta = kk_of w /\
  forall j, (j < kk_of w)%nat ->
    nth j lambda 0 = nth (kk_of w - 1 - j) (fst (eig (Lmat_of w))) 0 /\
    0 <= nth j lambda 0 /\
    nth j vv 0 = sqrt (INR (kk_of w) * nth j lambda 0) /\
    nth j delta 0 = nth j lambda 0.
Proof.
  intros Hok Hk Hb Hex.
  apply (samples_rich_basis_some _ _ _ _ _ (omat_of_length _)) in Hb.
  destruct Hb as [_ Hb].
  pose proof (standardised_rows w Hok) as Hrows.
  pose proof (exact_delta eig _ _ _ _ _ _ Hk Hrows Hb Hex) as Hd.
  pose proof (eigen_basis_inv eig _ _ _ _ _ _ Hb) as Hinv. cbv zeta in Hinv.
  destruct Hinv as (_ & _ & Hlam & Hvv & _ & _ & Hdl).
  split; [rewrite Hlam; now rewrite !length_map, length_seq|].
  split; [rewrite Hvv; now rewrite length_map, length_seq|].
  split; [exact Hdl|].
  intros j Hj. destruct (Hd j Hj) as (H1 & H2 & H3).
  split; [exact H1|]. split; [|split; assumption].
  destruct Hex as (_ & HlU & _ & Hpairs).
  rewrite Lmat_of_length in Hpairs, HlU.
  destruct (Hpairs (kk_of w - 1 - j)%nat ltac:(lia)) as (Hunit & Heig).
  set (u := Arma.col_raw (kk_of w - 1 - j) (snd (eig (Lmat_of w)))) in *.
  assert (Hlu : length u = kk_of w) by (unfold u; now rewrite col_raw_length).
  pose proof (projection_norm _ _ Hk Hrows u _ Hlu Heig Hunit) as Hn.
  pose proof (accu_squares_nonneg
                (fun r : list R => Arma.dot r u)
                (map (standardise ((INR (nn_of w) - 1) / INR (nn_of w))) (omat_of w)))
    as Hsq.
  cbv beta in Hsq. rewrite Hn in Hsq.
  assert (HK : 0 < INR (kk_of w)) by (apply lt_0_INR; lia).
  rewrite H1. unfold Lmat_of in *.
  apply (Rmult_le_reg_l (INR (kk_of w))); [assumption|]. now rewrite Rmult_0_r.
Qed.

Lemma exact_solver_basis_witness :
  exists lambda vv V delta,
    slices_ok (rdata (array_ three_samples)) (nn_of three_samples)
              (kk_of three_samples) = true /\
    (1 <= kk_of three_samples)%nat /\
    samples_rich_basis eig_ascending (omat_of three_samples)
      (nn_of three_samples) (kk_of three_samples) = Some (lambda, vv, V, delta) /\
    eigenpairs (Lmat_of three_samples)
               (fst (eig_ascending (Lmat_of three_samples)))
               (snd (eig_ascending (Lmat_of three_samples))) /\
    nth 0 delta 0 = 9 / 4 /\ nth 1 delta 0 = 0.
Proof.
  destruct three_samples_ascending_returns as [h Hh].
  destruct eig_ascending_exact as [Hex _].
  destruct (samples_rich_selected eig_ascending three_samples h eq_refl Hh)
    as (lambda & vv & V & delta & od0 & rest & Hb & _).
  assert (Hk : (1 <= kk_of three_samples)%nat) by (unfold kk_of; simpl; lia).
  exists lambda, vv, V, delta.
  split; [reflexivity|]. split; [exact Hk|]. split; [exact Hb|].
  split; [exact Hex|].
  destruct (exact_solver_basis eig_ascending three_samples lambda vv V delta
              three_samples_ok Hk Hb Hex) as (_ & _ & _ & Hj).
  assert (H0 : (0 < kk_of three_samples)%nat) by (unfold kk_of; simpl; lia).
  assert (H1 : (1 < kk_of three_samples)%nat) by (unfold kk_of; simpl; lia).
  destruct (Hj 0%nat H0) as (Ha & _ & _ & Hb0).
  destruct (Hj 1%nat H1) as (Ha1 & _ & _ & Hb1).
  split.
  - rewrite Hb0, Ha. reflexivity.
  - rewrite Hb1, Ha1. reflexivity.
Defined.

(** X9.  Lines 46 to 68.  When what the solver returns for [Lmat] are
    exact eigenpairs in ascending order and the largest eigenvalue is
    positive, the weight of sample [i] is the product of its
    standardised form with the eigenvector of the largest eigenvalue, in
    absolute value, divided by the root of [K] times that eigenvalue and
    multiplied by [sqrt(aasum/aa(i))]. *)
Theorem exact_solver_weights (eig : Arma.mat -> Arma.vec * Arma.mat) (w : world)
    (h : Arma.vec) :
  slices_ok (rdata (array_ w)) (nn_of w) (kk_of w) = true ->
  (1 <= kk_of w < nn_of w)%nat ->
  fst (scaleproc eig w) = Some h ->
  eigenpairs (Lmat_of w) (fst (eig (Lmat_of w))) (snd (eig (Lmat_of w))) ->
  ascending (fst (eig (Lmat_of w))) ->
  0 < nth (kk_of w - 1) (fst (eig (Lmat_of w))) 0 ->
  forall i, (i < nn_of w)%nat ->
    nth i h 0
    = sqrt (aasum_of w / nth i (aa_of w) 0)
      * Rabs (Arma.dot
                (standardise ((INR (nn_of w) - 1) / INR (nn_of w))
                             (nth i (omat_of w) []))
                (Arma.col_raw (kk_of w - 1) (snd (eig (Lmat_of w)))))
      / sqrt (INR (kk_of w) * nth (kk_of w - 1) (fst (eig (Lmat_of w))) 0).
Proof.
  intros Hok [Hk Hn] Hh Hex Hasc Hmax i Hi.
  destruct (samples_rich_selected eig w h (proj2 (branch_samples_rich w) Hn) Hh)
    as (lambda & vv & V & delta & od0 & rest & Hb & Hod & _ & _ & _ & _ & _ & Hnth).
  apply (samples_rich_basis_some _ _ _ _ _ (omat_of_length _)) in Hb.
  destruct Hb as [_ Hb].
  pose proof (standardised_rows w Hok) as Hrows.
  pose proof (exact_delta eig _ _ _ _ _ _ Hk Hrows Hb Hex) as Hj.
  pose proof (exact_selects_first eig _ _ _ _ _ _ _ _ Hk Hrows Hb Hex Hasc Hod) as H0.
  subst od0.
  pose proof (eigen_basis_inv eig _ _ _ _ _ _ Hb) as Hinv. cbv zeta in Hinv.
  destruct Hinv as (_ & _ & _ & Hvv & HV & _ & _).
  assert (Hlv : length vv = kk_of w)
    by (rewrite Hvv; now rewrite length_map, length_seq).
  clear Hvv.
  destruct (Hj 0%nat ltac:(lia)) as (Hl0 & Hv0 & _).
  rewrite Nat.sub_0_r in Hl0.
  rewrite Hnth by assumption. rewrite HV.
  set (Z := map (standardise ((INR (nn_of w) - 1) / INR (nn_of w))) (omat_of w)) in *.
  set (V0 := Arma.mul Z _ (kk_of w)) in *.
  assert (Hrow : nth 0 (nth i (map (normalised_row vv) V0) []) 0
                 = nth i (Arma.col_raw 0 V0) 0 / nth 0 vv 0).
  { rewrite <- nth_col_raw, col_raw_normalised_row by lia.
    rewrite (nth_map_in _ _ 0).
    - reflexivity.
    - unfold V0. rewrite col_raw_length. unfold Arma.mul. rewrite length_map.
      unfold Z. now rewrite length_map, omat_of_length. }
  rewrite Hrow. unfold V0. rewrite reversed_column by lia.
  rewrite Nat.sub_0_r.
  rewrite (nth_map_in _ _ [])
    by (unfold Z; now rewrite length_map, omat_of_length).
  assert (HZi : @nth (list R) i Z [] = standardise ((INR (nn_of w) - 1) / INR (nn_of w))
                                         (nth i (omat_of w) [])).
  { unfold Z. apply nth_map_in. now rewrite omat_of_length. }
  rewrite HZi, Hv0, Hl0.
  unfold Lmat_of. fold Z.
  set (d := Arma.dot _ _).
  set (n := sqrt (INR (kk_of w) * _)).
  assert (Hnpos : 0 < n).
  { unfold n. apply sqrt_lt_R0. apply Rmult_lt_0_compat.
    - apply lt_0_INR. lia.
    - exact Hmax. }
  unfold Rdiv at 1 2. rewrite <- Rmult_assoc, !Rabs_mult.
  rewrite (Rabs_pos_eq (sqrt _)) by apply sqrt_pos.
  rewrite (Rabs_pos_eq (/ n)) by (left; now apply Rinv_0_lt_compat).
  unfold Rdiv. ring.
Qed.

Lemma exact_solver_weights_witness :
  exists h,
    slices_ok (rdata (array_ three_samples)) (nn_of three_samples)
              (kk_of three_samples) = true /\
    (1 <= kk_of three_samples < nn_of three_samples)%nat /\
    fst (scaleproc eig_ascending three_samples) = Some h /\
    eigenpairs (Lmat_of three_samples)
               (fst (eig_ascending (Lmat_of three_samples)))
               (snd (eig_ascending (Lmat_of three_samples))) /\
    ascending (fst (eig_ascending (Lmat_of three_samples))) /\
    0 < nth (kk_of three_samples - 1)
            (fst (eig_ascending (Lmat_of three_samples))) 0 /\
    nth 0 h 0
    = sqrt (aasum_of three_samples / nth 0 (aa_of three_samples) 0)
      * Rabs (Arma.dot
                (standardise ((INR (nn_of three_samples) - 1)
                              / INR (nn_of three_samples))
                             (nth 0 (omat_of three_samples) []))
                (Arma.col_raw (kk_of three_samples - 1)
                              (snd (eig_ascending (Lmat_of three_samples)))))
      / sqrt (INR (kk_of three_samples)
              * nth (kk_of three_samples - 1)
                    (fst (eig_ascending (Lmat_of three_samples))) 0).
Proof.
  destruct three_samples_ascending_returns as [h Hh].
  destruct eig_ascending_exact as [Hex Hasc].
  assert (Hk : (1 <= kk_of three_samples < nn_of three_samples)%nat)
    by (unfold kk_of, nn_of; simpl; lia).
  assert (Hmax : 0 < nth (kk_of three_samples - 1)
                         (fst (eig_ascending (Lmat_of three_samples))) 0)
    by (unfold kk_of; simpl; lra).
  assert (Hi : (0 < nn_of three_samples)%nat) by (unfold nn_of; simpl; lia).
  exists h.
  split; [reflexivity|]. split; [exact Hk|]. split; [exact Hh|].
  split; [exact Hex|]. split; [exact Hasc|]. split; [exact Hmax|].
  exact (exact_solver_weights eig_ascending three_samples h three_samples_ok
           Hk Hh Hex Hasc Hmax 0%nat Hi).
Defined.

(** ** The sign of the eigenvectors *)

Lemma scale_entries_length (sg : nat -> R) (r : list R) :
  length (scale_entries sg r) = length r.
Proof.
  unfold scale_entries. rewrite length_map, length_combine, length_seq. lia.
Qed.

Lemma nth_scale_entries (sg : nat -> R) (r : list R) (j : nat) :
  nth j (scale_entries sg r) 0 = sg j * nth j r 0.
Proof.
  destruct (Nat.lt_ge_cases j (length r)) as [Hj|Hj].
  - unfold scale_entries.
    rewrite (nth_map_in _ _ (0, 0%nat)) by (rewrite length_combine, length_seq; lia).
    rewrite combine_nth by (now rewrite length_seq).
    simpl. now rewrite seq_nth.
  - rewrite !nth_overflow by (rewrite ?scale_entries_length; assumption). ring.
Qed.

Lemma scale_entries_map_seq (sg : nat -> R) (f : nat -> R) (n : nat) :
  scale_entries sg (map f (seq 0 n)) = map (fun i => sg i * f i) (seq 0 n).
Proof.
  apply (nth_ext _ _ 0 0).
  - now rewrite scale_entries_length, !length_map.
  - intros i Hi. rewrite scale_entries_length, length_map, length_seq in Hi.
    now rewrite nth_scale_entries, !nth_map_seq.
Qed.

Lemma scale_entries_const (c : R) (r : list R) :
  scale_entries (fun _ => c) r = map (Rmult c) r.
Proof.
  apply (nth_ext _ _ 0 0).
  - now rewrite scale_entries_length, length_map.
  - intros i Hi. rewrite scale_entries_length in Hi.
    now rewrite nth_scale_entries, (nth_map_in _ _ 0).
Qed.

Lemma n_cols_scale_columns (sg : nat -> R) (U : Arma.mat) :
  Arma.n_cols (scale_columns sg U) = Arma.n_cols U.
Proof.
  unfold Arma.n_cols, scale_columns. destruct U; simpl; [reflexivity|].
  apply scale_entries_length.
Qed.

Lemma col_raw_scale_columns (sg : nat -> R) (j : nat) (U : Arma.mat) :
  Arma.col_raw j (scale_columns sg U) = map (Rmult (sg j)) (Arma.col_raw j U).
Proof.
  unfold Arma.col_raw, scale_columns. rewrite !map_map. apply map_ext.
  intros r. apply nth_scale_entries.
Qed.

Lemma dot_scale_r (c : R) (u v : Arma.vec) :
  Arma.dot u (map (Rmult c) v) = c * Arma.dot u v.
Proof.
  unfold Arma.dot, Arma.schur_raw. revert v.
  induction u as [|a u IH]; intros [|b v]; simpl; try ring.
  rewrite (IH v). ring.
Qed.

Lemma dot_scale_l (c : R) (u v : Arma.vec) :
  Arma.dot (map (Rmult c) u) v = c * Arma.dot u v.
Proof. now rewrite dot_comm, dot_scale_r, dot_comm. Qed.

Lemma reorder_flip (sg : nat -> R) (q : list nat) (U : Arma.mat) :
  map (fun r => map (fun j => nth j r 0) q) (scale_columns sg U)
  = map (fun r => map (fun j => sg j * nth j r 0) q) U.
Proof.
  unfold scale_columns. rewrite map_map. apply map_ext. intros r.
  apply map_ext. intros j. apply nth_scale_entries.
Qed.

Lemma col_raw_reorder_flip (sg : nat -> R) (q : list nat) (U : Arma.mat) (i : nat) :
  (i < length q)%nat ->
  Arma.col_raw i (map (fun r => map (fun j => sg j * nth j r 0) q) U)
  = map (Rmult (sg (nth i q 0%nat)))
        (Arma.col_raw i (map (fun r => map (fun j => nth j r 0) q) U)).
Proof.
  intros Hi. unfold Arma.col_raw. rewrite !map_map. apply map_ext. intros r.
  now rewrite !(nth_map_in _ _ 0%nat).
Qed.

Lemma mul_flip (sg : nat -> R) (Z U : Arma.mat) (q : list nat) (n : nat) :
  length q = n ->
  Arma.mul Z (map (fun r => map (fun j => sg j * nth j r 0) q) U) n
  = map (scale_entries (fun i => sg (nth i q 0%nat)))
        (Arma.mul Z (map (fun r => map (fun j => nth j r 0) q) U) n).
Proof.
  intros Hq. unfold Arma.mul. rewrite map_map. apply map_ext. intros ra.
  rewrite scale_entries_map_seq. apply map_ext_in. intros i Hi. apply in_seq in Hi.
  rewrite col_raw_reorder_flip by lia. apply dot_scale_r.
Qed.

Lemma normalised_row_signed (sg : nat -> R) (vv : Arma.vec) (r : list R) :
  normalised_row vv (scale_entries sg r) = scale_entries sg (normalised_row vv r).
Proof.
  apply (nth_ext _ _ 0 0).
  - now rewrite normalised_row_length, !scale_entries_length, normalised_row_length.
  - intros j _. rewrite normalised_row_nth, !nth_scale_entries, normalised_row_nth.
    destruct (j <? length vv)%nat; [unfold Rdiv; ring | reflexivity].
Qed.

(** The loop of lines 60 to 63 on a matrix with the signs of its
    columns changed: the norms are the same, the columns have the
    changed signs. *)
Lemma normalise_cols_signed (sg : nat -> R) (kk : nat) (V : Arma.mat) :
  (forall j, sg j * sg j = 1) ->
  normalise_cols kk (map (scale_entries sg) V)
  = (fst (normalise_cols kk V), map (scale_entries sg) (snd (normalise_cols kk V))).
Proof.
  intros Hsg. rewrite !normalise_cols_closed. simpl fst. simpl snd.
  assert (Hvv : map (fun j => col_norm j (map (scale_entries sg) V)) (seq 0 kk)
                = map (fun j => col_norm j V) (seq 0 kk)).
  { apply map_ext. intros j. unfold col_norm.
    change (map (scale_entries sg) V) with (scale_columns sg V).
    now rewrite col_raw_scale_columns, dot_scale, Hsg, Rmult_1_l. }
  rewrite Hvv. f_equal. rewrite !map_map. apply map_ext. intros r.
  apply normalised_row_signed.
Qed.

Lemma col_signed (sg : nat -> R) (j : nat) (V : Arma.mat) :
  Arma.col j (map (scale_entries sg) V)
  = match Arma.col j V with
    | Some c => Some (map (Rmult (sg j)) c)
    | None => None
    end.
Proof.
  unfold Arma.col. change (map (scale_entries sg) V) with (scale_columns sg V).
  rewrite n_cols_scale_columns, col_raw_scale_columns.
  now destruct (j <? Arma.n_cols V)%nat.
Qed.

Lemma Rabs_sign (c x : R) : c * c = 1 -> Rabs (c * x) = Rabs x.
Proof.
  intros Hc. rewrite Rabs_mult.
  assert (H : Rabs c * Rabs c = 1) by (now rewrite <- Rabs_mult, Hc, Rabs_R1).
  pose proof (Rabs_pos c). assert (Rabs c = 1) by nra.
  now rewrite H1, Rmult_1_l.
Qed.

Lemma weights_signed (c A : R) (aa u : Arma.vec) :
  c * c = 1 -> weights A aa (map (Rmult c) u) = weights A aa u.
Proof.
  intros Hc. unfold weights, Arma.schur. rewrite !length_map.
  destruct (length aa =? length u)%nat; [|reflexivity]. f_equal.
  unfold Arma.schur_raw. generalize (map (fun a => sqrt (A / a)) aa) as s.
  intros s. revert u. induction s as [|x s IH]; intros [|y u]; simpl; try reflexivity.
  f_equal; [|apply IH].
  replace (x * (c * y)) with (c * (x * y)) by ring. now apply Rabs_sign.
Qed.

Lemma eigen_basis_flipped (sg : nat -> R) (eig : Arma.mat -> Arma.vec * Arma.mat)
    (Z : Arma.mat) (kk : nat) :
  (forall j, sg j * sg j = 1) ->
  exists sg', (forall j, sg' j * sg' j = 1) /\
    eigen_basis (eig_flipped sg eig) Z kk
    = match eigen_basis eig Z kk with
      | Some (lambda, vv, V, delta) => Some (lambda, vv, map (scale_entries sg') V, delta)
      | None => None
      end.
Proof.
  intros Hsg. unfold eigen_basis, eig_flipped.
  set (Lmat := Arma.mul (Arma.t kk Z) (Arma.mat_div Z (INR kk)) kk).
  destruct (eig Lmat) as [l0 U0]. simpl fst. simpl snd.
  set (usort := map (fun i => (length l0 - 1 - i)%nat) (seq 0 (length l0))).
  exists (fun i => sg (nth i usort 0%nat)). split; [intros j; apply Hsg|].
  rewrite n_cols_scale_columns, reorder_flip.
  destruct (forallb _ usort); simpl negb; cbv iota; [|reflexivity].
  unfold Arma.n_rows. rewrite !length_map.
  destruct (kk =? length U0)%nat; simpl negb; cbv iota; [|reflexivity].
  destruct (kk <=? length l0)%nat; simpl negb; cbv iota; [|reflexivity].
  rewrite mul_flip by (unfold usort; now rewrite length_map, length_seq).
  rewrite normalise_cols_signed by (intros j; apply Hsg).
  destruct (normalise_cols kk _) as [vv V]. simpl fst. simpl snd.
  now destruct (Arma.schur _ vv).
Qed.

Lemma samples_rich_flipped (sg : nat -> R) (eig : Arma.mat -> Arma.vec * Arma.mat)
    (A : R) (aa : Arma.vec) (omat : Arma.mat) (nn kk : nat) :
  (forall j, sg j * sg j = 1) ->
  samples_rich (eig_flipped sg eig) A aa omat nn kk = samples_rich eig A aa omat nn kk.
Proof.
  intros Hsg. unfold samples_rich, samples_rich_basis.
  destruct (center_rows nn _ omat) as [qq om].
  destruct (scale_rows qq om) as [Z|]; [|reflexivity].
  destruct (eigen_basis_flipped sg eig Z kk Hsg) as (sg' & Hsg' & ->).
  destruct (eigen_basis eig Z kk) as [[[[lambda vv] V] delta]|];
    [|reflexivity].
  destruct (Arma.sort_index_descend delta) as [|od0 rest]; [reflexivity|].
  rewrite col_signed. destruct (Arma.col od0 V) as [c|]; [|reflexivity].
  now apply weights_signed.
Qed.

Lemma feature_rich_flipped (sg : nat -> R) (eig : Arma.mat -> Arma.vec * Arma.mat)
    (A : R) (aa : Arma.vec) (omat : Arma.mat) (nn kk : nat) :
  (forall j, sg j * sg j = 1) ->
  feature_rich (eig_flipped sg eig) A aa omat nn kk = feature_rich eig A aa omat nn kk.
Proof.
  intros Hsg. unfold feature_rich, feature_rich_basis, eig_flipped.
  destruct (eig _) as [eigval eigvec]. simpl fst. simpl snd.
  unfold scale_columns. rewrite col_signed.
  destruct (Arma.col _ eigvec) as [c|]; [|reflexivity].
  now apply weights_signed.
Qed.

(** A call is a function of what it returns apart from the console. *)
Lemma scaleproc_same (eig eig' : Arma.mat -> Arma.vec * Arma.mat) (w : world) :
  result_of eig' w = result_of eig w -> scaleproc eig' w = scaleproc eig w.
Proof.
  intros H. rewrite !scaleproc_run. unfold world_after. now rewrite H.
Qed.

(** X10.  Lines 50 to 68 and 74 to 76.  An eigenvector is determined up
    to its sign.  A call does not depend on the signs that the solver
    chooses: with any of the eigenvectors that the solver returns
    multiplied by -1, the call returns the same weights and writes the
    same to the console. *)
Theorem scaleproc_sign_invariant (sg : nat -> R)
    (eig : Arma.mat -> Arma.vec * Arma.mat) (w : world) :
  (forall j, sg j = 1 \/ sg j = -1) ->
  scaleproc (eig_flipped sg eig) w = scaleproc eig w.
Proof.
  intros Hsg.
  assert (Hsq : forall j, sg j * sg j = 1).
  { intros j. destruct (Hsg j) as [-> | ->]; ring. }
  apply scaleproc_same. unfold result_of.
  now rewrite samples_rich_flipped, feature_rich_flipped.
Qed.

Lemma scaleproc_sign_invariant_witness :
  (forall j : nat, (fun _ : nat => -1) j = 1 \/ (fun _ : nat => -1) j = -1) /\
  scaleproc (eig_flipped (fun _ => -1) eig_descending) three_samples
  = scaleproc eig_descending three_samples.
Proof.
  assert (H : forall j : nat, (fun _ : nat => -1) j = 1 \/ (fun _ : nat => -1) j = -1)
    by (intros j; right; reflexivity).
  split; [exact H|].
  exact (scaleproc_sign_invariant (fun _ => -1) eig_descending three_samples H).
Defined.

(** ** Changing the sign of every entry *)

Lemma map_Rmult_one (c : R) (l : list R) : c = 1 -> map (Rmult c) l = l.
Proof.
  intros ->. rewrite <- (map_id l) at 2. apply map_ext. intros x. ring.
Qed.

Lemma map_map_Rmult_one (c : R) (M : Arma.mat) :
  c = 1 -> map (map (Rmult c)) M = M.
Proof.
  intros Hc. rewrite <- (map_id M) at 2. apply map_ext. intros r.
  now apply map_Rmult_one.
Qed.

Lemma neg_neg_one : -1 * -1 = 1.
Proof. ring. Qed.

Lemma standardise_neg (df : R) (r : Arma.vec) :
  standardise df (map (Rmult (-1)) r) = map (Rmult (-1)) (standardise df r).
Proof.
  unfold standardise. rewrite var_scale, mean_scale, !map_map.
  apply map_ext. intros x.
  replace (-1 * -1 * Arma.var r) with (Arma.var r) by ring. ring.
Qed.

Lemma mul_scale_l (c : R) (A B : Arma.mat) (k : nat) :
  Arma.mul (map (map (Rmult c)) A) B k = map (map (Rmult c)) (Arma.mul A B k).
Proof.
  unfold Arma.mul. rewrite !map_map. apply map_ext. intros ra.
  rewrite map_map. apply map_ext. intros j. apply dot_scale_l.
Qed.

Lemma eigen_basis_neg (eig : Arma.mat -> Arma.vec * Arma.mat)
    (Z : Arma.mat) (kk : nat) :
  eigen_basis eig (map (map (Rmult (-1))) Z) kk
  = match eigen_basis eig Z kk with
    | Some (lambda, vv, V, delta) =>
      Some (lambda, vv, map (scale_entries (fun _ => -1)) V, delta)
    | None => None
    end.
Proof.
  unfold eigen_basis.
  rewrite t_scale, mat_div_scale, mul_scale, (map_map_Rmult_one _ _ neg_neg_one).
  destruct (eig _) as [l0 U0].
  destruct (forallb _ _); simpl negb; cbv iota; [|reflexivity].
  destruct (kk =? _)%nat; simpl negb; cbv iota; [|reflexivity].
  destruct (kk <=? length l0)%nat; simpl negb; cbv iota; [|reflexivity].
  rewrite mul_scale_l.
  assert (Hs : forall V : Arma.mat,
            map (map (Rmult (-1))) V = map (scale_entries (fun _ => -1)) V).
  { intros V. apply map_ext. intros r. symmetry. apply scale_entries_const. }
  rewrite Hs, normalise_cols_signed by (intros _; apply neg_neg_one).
  destruct (normalise_cols kk _) as [vv V]. simpl fst. simpl snd.
  now destruct (Arma.schur _ vv).
Qed.

Lemma rows_vary_neg (df : R) (omat : Arma.mat) :
  rows_vary df (map (map (Rmult (-1))) omat) = rows_vary df omat.
Proof.
  unfold rows_vary. rewrite forallb_map_comp.
  induction omat as [|r omat IH]; simpl; [reflexivity|].
  rewrite IH, var_scale.
  now replace (-1 * -1 * Arma.var r * df) with (Arma.var r * df) by ring.
Qed.

Lemma samples_rich_neg (eig : Arma.mat -> Arma.vec * Arma.mat)
    (A : R) (aa : Arma.vec) (omat : Arma.mat) (nn kk : nat) :
  length omat = nn ->
  samples_rich eig A aa (map (map (Rmult (-1))) omat) nn kk
  = samples_rich eig A aa omat nn kk.
Proof.
  intros Hl. unfold samples_rich.
  rewrite !samples_rich_basis_closed by (rewrite ?length_map; assumption).
  rewrite rows_vary_neg.
  destruct (rows_vary _ omat); [|reflexivity].
  rewrite map_map.
  rewrite (map_ext _ (fun r => map (Rmult (-1))
                                   (standardise ((INR nn - 1) / INR nn) r)))
    by (intros r; apply standardise_neg).
  rewrite <- (map_map (standardise ((INR nn - 1) / INR nn)) (map (Rmult (-1)))).
  rewrite eigen_basis_neg.
  destruct (eigen_basis eig _ kk) as [[[[lambda vv] V] delta]|]; [|reflexivity].
  destruct (Arma.sort_index_descend delta) as [|od0 rest]; [reflexivity|].
  rewrite col_signed. destruct (Arma.col od0 V) as [c|]; [|reflexivity].
  apply weights_signed, neg_neg_one.
Qed.

Lemma cor_neg (k : nat) (X : Arma.mat) :
  Arma.cor k (map (map (Rmult (-1))) X) = Arma.cor k X.
Proof.
  unfold Arma.cor. rewrite length_map.
  destruct ((length X =? 0)%nat || (k =? 0)%nat); [reflexivity|].
  destruct ((length X =? 1)%nat || (k =? 1)%nat); [reflexivity|].
  set (mu := map (fun j => Arma.mean (Arma.col_raw j X)) (seq 0 k)).
  assert (Hmu : map (fun j => Arma.mean (Arma.col_raw j (map (map (Rmult (-1))) X)))
                    (seq 0 k) = map (Rmult (-1)) mu).
  { unfold mu. rewrite map_map. apply map_ext. intros j.
    now rewrite col_raw_scale, mean_scale. }
  rewrite Hmu.
  set (tmp := map (fun r => map (fun p => fst p - snd p) (combine r mu)) X).
  assert (Htmp : map (fun r => map (fun p => fst p - snd p)
                                   (combine r (map (Rmult (-1)) mu)))
                     (map (map (Rmult (-1))) X) = map (map (Rmult (-1))) tmp).
  { unfold tmp. rewrite !map_map. apply map_ext. intros r. apply center_scale. }
  rewrite Htmp, t_scale, mul_scale, (map_map_Rmult_one _ _ neg_neg_one).
  reflexivity.
Qed.

Lemma feature_rich_neg (eig : Arma.mat -> Arma.vec * Arma.mat)
    (A : R) (aa : Arma.vec) (omat : Arma.mat) (nn kk : nat) :
  feature_rich eig A aa (map (map (Rmult (-1))) omat) nn kk
  = feature_rich eig A aa omat nn kk.
Proof.
  unfold feature_rich, feature_rich_basis. now rewrite t_scale, cor_neg.
Qed.

Lemma result_of_neg (eig : Arma.mat -> Arma.vec * Arma.mat) (w : world) :
  result_of eig (scale_world (-1) w) = result_of eig w.
Proof.
  unfold result_of.
  assert (Hn : nn_of (scale_world (-1) w) = nn_of w) by reflexivity.
  assert (Hk : kk_of (scale_world (-1) w) = kk_of w) by reflexivity.
  rewrite Hn, Hk, aasum_of_scale, aa_of_scale, omat_of_scale.
  simpl rdata. rewrite slices_ok_map.
  rewrite (map_Rmult_one _ _ neg_neg_one), neg_neg_one, Rmult_1_l.
  now rewrite samples_rich_neg, feature_rich_neg by apply omat_of_length.
Qed.

(** X11.  Lines 27 to 76.  The weights do not change when the sign of
    every entry of the stack is changed: the sums of squares [aa(i)],
    [Lmat] and the correlation matrix stay as they are, so that the
    solver is given the matrix it was given before, and the
    standardised samples and the columns of [V] change their sign,
    which line 68 takes the absolute value of. *)
Theorem scaleproc_negation (eig : Arma.mat -> Arma.vec * Arma.mat) (w : world) :
  fst (scaleproc eig (scale_world (-1) w)) = fst (scaleproc eig w).
Proof.
  rewrite !scaleproc_run. simpl fst. apply result_of_neg.
Qed.

(** ** Moving and scaling single samples *)

Lemma accu_affine (a b : R) (r : Arma.vec) :
  Arma.accu (map (fun x => a * x + b) r) = a * Arma.accu r + INR (length r) * b.
Proof.
  induction r as [|x r IH]; [simpl; ring|].
  change (length (x :: r)) with (S (length r)). rewrite S_INR.
  change (a * x + b + Arma.accu (map (fun x => a * x + b) r)
          = a * (x + Arma.accu r) + (INR (length r) + 1) * b).
  rewrite IH. ring.
Qed.

Lemma mean_affine (a b : R) (r : Arma.vec) :
  r <> [] -> Arma.mean (map (fun x => a * x + b) r) = a * Arma.mean r + b.
Proof.
  intros Hr. unfold Arma.mean. rewrite accu_affine, length_map.
  assert (0 < INR (length r)).
  { apply lt_0_INR. destruct r; [congruence | simpl; lia]. }
  field. lra.
Qed.

Lemma centred_affine (a b : R) (r : Arma.vec) :
  map (fun x => x - Arma.mean (map (fun x => a * x + b) r))
      (map (fun x => a * x + b) r)
  = map (Rmult a) (map (fun x => x - Arma.mean r) r).
Proof.
  destruct r as [|x0 r]; [reflexivity|].
  rewrite mean_affine by discriminate. rewrite !map_map.
  apply map_ext. intros x. ring.
Qed.

Lemma var_affine (a b : R) (r : Arma.vec) :
  Arma.var (map (fun x => a * x + b) r) = a * a * Arma.var r.
Proof.
  unfold Arma.var. rewrite length_map.
  destruct (length r <? 2)%nat; [ring|].
  rewrite <- (map_map (fun x => x - Arma.mean (map (fun x => a * x + b) r))
                      (fun y => y * y)).
  rewrite centred_affine, !map_map.
  rewrite (map_ext _ (fun x => (a * a) * ((x - Arma.mean r) * (x - Arma.mean r))))
    by (intros; ring).
  rewrite <- (map_map (fun x => (x - Arma.mean r) * (x - Arma.mean r))
                      (fun y => a * a * y)).
  rewrite accu_map_scale. unfold Rdiv. ring.
Qed.

Lemma sqrt_scaled (a v : R) : 0 < a -> sqrt (a * a * v) = a * sqrt v.
Proof.
  intros Ha. rewrite sqrt_mult_alt by nra. now rewrite sqrt_square by lra.
Qed.

(** The standardised form of a sample does not change when the sample
    is multiplied by a positive number and a number is added to it. *)
Lemma standardise_affine (df a b : R) (r : Arma.vec) :
  0 < a -> standardise df (map (fun x => a * x + b) r) = standardise df r.
Proof.
  intros Ha. unfold standardise.
  rewrite <- (map_map (fun x => x - Arma.mean (map (fun x => a * x + b) r))
                      (Rmult (sqrt (1 / (Arma.var (map (fun x => a * x + b) r) * df))))).
  rewrite centred_affine, var_affine, !map_map. apply map_ext. intros x.
  replace (1 / (a * a * Arma.var r * df))
    with (/ (a * a) * (1 / (Arma.var r * df)))
    by (unfold Rdiv; rewrite !Rmult_1_l;
        replace (a * a * Arma.var r * df) with ((a * a) * (Arma.var r * df)) by ring;
        now rewrite (Rinv_mult (a * a) (Arma.var r * df))).
  rewrite sqrt_mult_alt by (left; apply Rinv_0_lt_compat; nra).
  rewrite (sqrt_inv_sqr a Ha). field. lra.
Qed.

(** [cor(X)] does not change when each column of [X] is multiplied by
    a positive number and a number is added to it. *)
Lemma cor_columns_affine (a b : nat -> R) (k : nat) (X X' : Arma.mat) :
  length X' = length X ->
  Forall (fun r => length r = k) X -> Forall (fun r => length r = k) X' ->
  (forall j, (j < k)%nat -> 0 < a j) ->
  (forall j, (j < k)%nat ->
     Arma.col_raw j X' = map (fun x => a j * x + b j) (Arma.col_raw j X)) ->
  Arma.cor k X' = Arma.cor k X.
Proof.
  intros Hl HX HX' Ha Hcol.
  destruct (le_lt_dec 2 (length X)) as [H2|H2];
    [|apply cor_small; [assumption | lia]].
  destruct (le_lt_dec 2 k) as [Hk|Hk];
    [|apply cor_small; [assumption | lia]].
  destruct (cor_shape k X H2 Hk) as [Hlen Hrow].
  destruct (cor_shape k X' ltac:(lia) Hk) as [Hlen' Hrow'].
  apply (nth_ext _ _ [] []); [congruence|].
  intros i Hi. rewrite Hlen' in Hi.
  apply (nth_ext _ _ 0 0); [rewrite Hrow, Hrow'; auto|].
  intros j Hj. rewrite Hrow' in Hj by assumption.
  rewrite !cor_entry by (assumption || lia). cbv zeta.
  rewrite Hl, !Hcol, !centred_affine by assumption.
  set (c := fun m => map (fun x => x - Arma.mean (Arma.col_raw m X)) (Arma.col_raw m X)).
  change (map (fun x => x - Arma.mean (Arma.col_raw i X)) (Arma.col_raw i X))
    with (c i).
  change (map (fun x => x - Arma.mean (Arma.col_raw j X)) (Arma.col_raw j X))
    with (c j).
  rewrite !dot_scale, dot_scale_l, dot_scale_r.
  set (nv := INR (length X - 1)).
  pose proof (Ha i Hi) as Hai. pose proof (Ha j Hj) as Haj.
  replace (a i * a i * Arma.dot (c i) (c i) / nv)
    with (a i * a i * (Arma.dot (c i) (c i) / nv)) by (unfold Rdiv; ring).
  replace (a j * a j * Arma.dot (c j) (c j) / nv)
    with (a j * a j * (Arma.dot (c j) (c j) / nv)) by (unfold Rdiv; ring).
  rewrite !sqrt_scaled by assumption.
  set (si := sqrt (Arma.dot (c i) (c i) / nv)).
  set (sj := sqrt (Arma.dot (c j) (c j) / nv)).
  set (d := Arma.dot (c i) (c j)).
  unfold Rdiv. rewrite !Rinv_mult.
  assert (Hi1 : a i * / a i = 1) by (apply Rinv_r; lra).
  assert (Hj1 : a j * / a j = 1) by (apply Rinv_r; lra).
  transitivity (d * / nv * (/ si * / sj) * ((a i * / a i) * (a j * / a j)));
    [ring | rewrite Hi1, Hj1; ring].
Qed.

(** X12.  Lines 41 to 47 and 71.  The matrix given to the solver does
    not change when single samples are moved and scaled: when sample
    [i], not constant over its features, is replaced by [a(i)] times
    the sample plus [b(i)], with [a(i)] positive, the new samples are
    not constant either, and [Lmat] and the correlation matrix [zz] are
    what they were. *)
Theorem sample_affine_invariant (w w' : world) (a b : nat -> R) :
  rdim (array_ w') = rdim (array_ w) ->
  slices_ok (rdata (array_ w)) (nn_of w) (kk_of w) = true ->
  samples_vary w ->
  (forall i, (i < nn_of w)%nat -> 0 < a i) ->
  (forall i, (i < nn_of w)%nat ->
     slice_of (rdata (array_ w')) (kk_of w) i
     = map (fun x => a i * x + b i) (slice_of (rdata (array_ w)) (kk_of w) i)) ->
  samples_vary w' /\ Lmat_of w' = Lmat_of w /\ zz_of w' = zz_of w.
Proof.
  intros Hdim Hok Hvary Ha Hsl.
  assert (Hn : nn_of w' = nn_of w) by (unfold nn_of, extent; now rewrite Hdim).
  assert (Hk : kk_of w' = kk_of w) by (unfold kk_of, extent; now rewrite Hdim).
  pose proof Hok as Hrows. rewrite slices_ok_spec in Hrows.
  assert (Hrow : forall i, (i < nn_of w)%nat ->
            nth i (omat_of w') [] = map (fun x => a i * x + b i) (nth i (omat_of w) [])).
  { intros i Hi. unfold omat_of. rewrite Hn, Hk, !nth_samples_of by assumption.
    now apply Hsl. }
  assert (Hlen : forall i, (i < nn_of w)%nat -> length (nth i (omat_of w) []) = kk_of w).
  { intros i Hi. unfold omat_of. rewrite nth_samples_of by assumption. now apply Hrows. }
  assert (Hlen' : forall i, (i < nn_of w)%nat -> length (nth i (omat_of w') []) = kk_of w).
  { intros i Hi. rewrite Hrow, length_map by assumption. now apply Hlen. }
  assert (HZ : map (standardise ((INR (nn_of w) - 1) / INR (nn_of w))) (omat_of w')
               = map (standardise ((INR (nn_of w) - 1) / INR (nn_of w))) (omat_of w)).
  { apply (nth_ext _ _ [] []).
    - now rewrite !length_map, !omat_of_length.
    - intros i Hi. rewrite length_map, omat_of_length, Hn in Hi.
      unfold Arma.vec.
      rewrite !(nth_map_in _ _ []) by (rewrite omat_of_length; lia).
      rewrite Hrow by assumption. now apply standardise_affine, Ha. }
  split; [|split].
  - intros i Hi. rewrite Hn in Hi. rewrite Hrow, var_affine by assumption.
    specialize (Ha i Hi). specialize (Hvary i Hi).
    apply Rmult_lt_0_compat; [nra | assumption].
  - unfold Lmat_of. now rewrite Hn, Hk, HZ.
  - unfold zz_of. rewrite Hn, Hk.
    apply (cor_columns_affine a b).
    + unfold Arma.t. now rewrite !length_map.
    + rewrite <- (omat_of_length w). apply t_rows.
    + rewrite <- Hn, <- (omat_of_length w'). apply t_rows.
    + assumption.
    + intros j Hj. rewrite !col_raw_t by auto. now apply Hrow.
Qed.

Lemma sample_affine_invariant_witness :
  let a := fun i : nat => match i with O => 2 | S O => 1 | _ => 3 end in
  let b := fun i : nat => match i with O => 1 | S O => 0 | _ => -1 end in
  rdim (array_ three_samples_moved) = rdim (array_ three_samples) /\
  slices_ok (rdata (array_ three_samples)) (nn_of three_samples) (kk_of three_samples)
  = true /\
  samples_vary three_samples /\
  (forall i, (i < nn_of three_samples)%nat -> 0 < a i) /\
  (forall i, (i < nn_of three_samples)%nat ->
     slice_of (rdata (array_ three_samples_moved)) (kk_of three_samples) i
     = map (fun x => a i * x + b i)
           (slice_of (rdata (array_ three_samples)) (kk_of three_samples) i)) /\
  samples_vary three_samples_moved /\
  Lmat_of three_samples_moved = Lmat_of three_samples /\
  zz_of three_samples_moved = zz_of three_samples.
Proof.
  intros a b.
  assert (Ha : forall i, (i < nn_of three_samples)%nat -> 0 < a i).
  { intros i _. unfold a. destruct i as [|[|i]]; lra. }
  assert (Hsl : forall i, (i < nn_of three_samples)%nat ->
     slice_of (rdata (array_ three_samples_moved)) (kk_of three_samples) i
     = map (fun x => a i * x + b i)
           (slice_of (rdata (array_ three_samples)) (kk_of three_samples) i)).
  { unfold nn_of, kk_of. simpl. intros i Hi.
    destruct i as [|[|[|i]]]; try lia; unfold slice_of, a, b; simpl;
      list_eq; lra. }
  split; [reflexivity|]. split; [reflexivity|]. split; [exact three_samples_vary|].
  split; [exact Ha|]. split; [exact Hsl|].
  exact (sample_affine_invariant three_samples three_samples_moved
           a b eq_refl eq_refl three_samples_vary Ha Hsl).
Defined.

(** ** Reordering the features *)

Section PermuteFeatures.

Variable p : list nat.
Variable n : nat.
Hypothesis p_perm : Permutation p (seq 0 n).

Lemma mean_permute (v : Arma.vec) :
  length v = n -> Arma.mean (permute 0 p v) = Arma.mean v.
Proof.
  intros Hv. unfold Arma.mean.
  now rewrite (accu_permute p n p_perm), (permute_length p n p_perm), Hv.
Qed.

Lemma sumsq_permute (v : Arma.vec) :
  length v = n -> sumsq (permute 0 p v) = sumsq v.
Proof. intros Hv. now apply (dot_permute p n p_perm). Qed.

(** The transpose of a matrix with its columns reordered is the
    transpose with its rows reordered. *)
Lemma t_permute_columns (M : Arma.mat) :
  Arma.t n (map (permute 0 p) M) = permute [] p (Arma.t n M).
Proof.
  unfold Arma.t.
  transitivity (map (fun m => Arma.col_raw m M) p).
  - transitivity (map (fun m => Arma.col_raw m M)
                      (map (fun j => nth j p 0%nat) (seq 0 (length p))));
      [|now rewrite map_nth_seq].
    rewrite (p_length p n p_perm), map_map.
    apply map_ext_in. intros j Hj. apply in_seq in Hj.
    unfold Arma.col_raw. rewrite map_map. apply map_ext. intros r.
    apply nth_permute. rewrite (p_length p n p_perm). lia.
  - unfold permute. apply map_ext_in. intros m Hm.
    apply (p_in_range p n p_perm) in Hm.
    symmetry. exact (nth_map_seq_gen (fun j => Arma.col_raw j M) [] n m Hm).
Qed.

Lemma gram_permute (A : Arma.mat) (k : nat) :
  length A = n ->
  Arma.mul (Arma.t k (permute [] p A)) (permute [] p A) k
  = Arma.mul (Arma.t k A) A k.
Proof.
  intros HA. unfold Arma.mul, Arma.t. rewrite !map_map.
  apply map_ext. intros i. apply map_ext. intros j.
  rewrite !(col_raw_permute p n p_perm) by assumption.
  apply (dot_permute p n p_perm); now rewrite col_raw_length.
Qed.

(** [cor(X)] does not depend on the order of the rows of [X]. *)
Lemma cor_permute (k : nat) (X : Arma.mat) :
  length X = n -> Arma.cor k (permute [] p X) = Arma.cor k X.
Proof.
  intros HX. unfold Arma.cor.
  rewrite (permute_length p n p_perm), HX.
  destruct ((n =? 0)%nat || (k =? 0)%nat); [reflexivity|].
  destruct ((n =? 1)%nat || (k =? 1)%nat); [reflexivity|].
  assert (Hmu : map (fun j => Arma.mean (Arma.col_raw j (permute [] p X))) (seq 0 k)
                = map (fun j => Arma.mean (Arma.col_raw j X)) (seq 0 k)).
  { apply map_ext. intros j. rewrite (col_raw_permute p n p_perm) by assumption.
    apply mean_permute. now rewrite col_raw_length. }
  rewrite Hmu.
  set (mu := map (fun j => Arma.mean (Arma.col_raw j X)) (seq 0 k)).
  rewrite (map_permute p (fun r => map (fun q => fst q - snd q) (combine r mu)) [] X).
  change (map (fun q => fst q - snd q) (combine [] mu)) with (@nil R).
  rewrite gram_permute by now rewrite length_map.
  reflexivity.
Qed.

End PermuteFeatures.

(** X13.  Lines 27 to 35 and 71.  In the feature-rich branch what the
    solver is given does not depend on the order of the features: when
    the entries of every sample, none of them constant, are reordered
    in the same way, the sums of squares [aa(i)] and the correlation
    matrix [zz] of the samples are what they were. *)
Theorem feature_order_invariant (w w' : world) (perm : list nat) :
  rdim (array_ w') = rdim (array_ w) ->
  Permutation perm (seq 0 (kk_of w)) ->
  slices_ok (rdata (array_ w)) (nn_of w) (kk_of w) = true ->
  samples_vary w ->
  (forall i, (i < nn_of w)%nat ->
     slice_of (rdata (array_ w')) (kk_of w) i
     = permute 0 perm (slice_of (rdata (array_ w)) (kk_of w) i)) ->
  branch_of w = FeatureRich ->
  branch_of w' = FeatureRich /\ aa_of w' = aa_of w /\ zz_of w' = zz_of w.
Proof.
  intros Hdim Hperm Hok _ Hsl Hbr.
  assert (Hn : nn_of w' = nn_of w) by (unfold nn_of, extent; now rewrite Hdim).
  assert (Hk : kk_of w' = kk_of w) by (unfold kk_of, extent; now rewrite Hdim).
  pose proof Hok as Hrows. rewrite slices_ok_spec in Hrows.
  assert (Homat : omat_of w' = map (permute 0 perm) (omat_of w)).
  { unfold omat_of, samples_of. rewrite Hn, Hk, map_map.
    apply map_ext_in. intros i Hi. apply in_seq in Hi. apply Hsl. lia. }
  assert (Haa : aa_of w' = aa_of w).
  { unfold aa_of. rewrite Homat, map_map. apply map_ext_in. intros r Hr.
    apply (sumsq_permute _ _ Hperm).
    unfold omat_of, samples_of in Hr. apply in_map_iff in Hr.
    destruct Hr as (i & <- & Hi). apply in_seq in Hi. apply Hrows. lia. }
  assert (Hzz : Arma.cor (nn_of w) (Arma.t (kk_of w) (omat_of w'))
                = Arma.cor (nn_of w) (Arma.t (kk_of w) (omat_of w))).
  { rewrite Homat, (t_permute_columns _ _ Hperm).
    apply (cor_permute _ _ Hperm).
    unfold Arma.t. now rewrite length_map, length_seq. }
  split; [|split; [exact Haa | unfold zz_of; now rewrite Hn, Hk]].
  unfold branch_of in *. now rewrite Hn, Hk.
Qed.

Lemma feature_order_invariant_witness :
  rdim (array_ two_samples_features_swapped) = rdim (array_ two_samples) /\
  Permutation [1; 0; 2]%nat (seq 0 (kk_of two_samples)) /\
  slices_ok (rdata (array_ two_samples)) (nn_of two_samples) (kk_of two_samples)
  = true /\
  samples_vary two_samples /\
  (forall i, (i < nn_of two_samples)%nat ->
     slice_of (rdata (array_ two_samples_features_swapped)) (kk_of two_samples) i
     = permute 0 [1; 0; 2]%nat
         (slice_of (rdata (array_ two_samples)) (kk_of two_samples) i)) /\
  branch_of two_samples = FeatureRich /\
  branch_of two_samples_features_swapped = FeatureRich /\
  aa_of two_samples_features_swapped = aa_of two_samples /\
  zz_of two_samples_features_swapped = zz_of two_samples.
Proof.
  assert (Hp : Permutation [1; 0; 2]%nat (seq 0 (kk_of two_samples)))
    by (unfold kk_of; simpl; apply perm_swap).
  assert (Hsl : forall i, (i < nn_of two_samples)%nat ->
     slice_of (rdata (array_ two_samples_features_swapped)) (kk_of two_samples) i
     = permute 0 [1; 0; 2]%nat
         (slice_of (rdata (array_ two_samples)) (kk_of two_samples) i)).
  { unfold nn_of, kk_of. simpl. intros i Hi.
    destruct i as [|[|i]]; [reflexivity | reflexivity | lia]. }
  split; [reflexivity|]. split; [exact Hp|]. split; [reflexivity|].
  split; [exact two_samples_vary|].
  split; [exact Hsl|]. split; [reflexivity|].
  exact (feature_order_invariant two_samples two_samples_features_swapped
           [1; 0; 2]%nat eq_refl Hp eq_refl two_samples_vary Hsl eq_refl).
Defined.

(** ** Equal samples *)

(** X14.  Lines 41 to 68.  In the samples-rich branch two samples with
    the same entries get the same weight, whatever the solver returns. *)
Theorem equal_samples_equal_weights (eig : Arma.mat -> Arma.vec * Arma.mat)
    (w : world) (h : Arma.vec) (i j : nat) :
  branch_of w = SamplesRich ->
  fst (scaleproc eig w) = Some h ->
  (i < nn_of w)%nat -> (j < nn_of w)%nat ->
  slice_of (rdata (array_ w)) (kk_of w) i = slice_of (rdata (array_ w)) (kk_of w) j ->
  nth i h 0 = nth j h 0.
Proof.
  intros Hbr Hh Hi Hj Heq.
  destruct (samples_rich_selected eig w h Hbr Hh)
    as (lambda & vv & V & delta & od0 & rest & Hb & _ & _ & _ & _ & _ & _ & Hnth).
  apply (samples_rich_basis_some _ _ _ _ _ (omat_of_length _)) in Hb.
  destruct Hb as [_ Hb].
  apply eigen_basis_inv in Hb. cbv zeta in Hb.
  destruct Hb as (_ & _ & _ & _ & HV & _ & _).
  assert (Hrow : forall m, (m < nn_of w)%nat ->
            nth m (omat_of w) [] = slice_of (rdata (array_ w)) (kk_of w) m).
  { intros m Hm. unfold omat_of. now apply nth_samples_of. }
  assert (Haa : forall m, (m < nn_of w)%nat ->
            nth m (aa_of w) 0 = sumsq (slice_of (rdata (array_ w)) (kk_of w) m)).
  { intros m Hm. unfold aa_of, Arma.vec.
    rewrite (nth_map_in _ _ []) by now rewrite omat_of_length.
    now rewrite Hrow. }
  match type of HV with
  | V = map _ (Arma.mul _ ?U _) => set (U0 := U) in *
  end.
  set (df := (INR (nn_of w) - 1) / INR (nn_of w)) in *.
  assert (HF : forall m, (m < nn_of w)%nat ->
            nth m V []
            = normalised_row vv
                (map (fun c => Arma.dot
                                 (standardise df
                                    (slice_of (rdata (array_ w)) (kk_of w) m))
                                 (Arma.col_raw c U0))
                     (seq 0 (kk_of w)))).
  { intros m Hm. rewrite HV. unfold Arma.mul. rewrite !map_map.
    unfold Arma.vec.
    rewrite (nth_map_in _ _ []) by now rewrite omat_of_length.
    now rewrite Hrow. }
  rewrite !Hnth, !Haa, !HF by assumption. now rewrite Heq.
Qed.

Lemma equal_samples_equal_weights_witness :
  branch_of three_samples = SamplesRich /\
  fst (scaleproc eig_descending three_samples) = Some [1; 1; 1] /\
  (0 < nn_of three_samples)%nat /\ (2 < nn_of three_samples)%nat /\
  slice_of (rdata (array_ three_samples)) (kk_of three_samples) 0
  = slice_of (rdata (array_ three_samples)) (kk_of three_samples) 2 /\
  nth 0 [1; 1; 1] 0 = nth 2 [1; 1; 1] 0.
Proof.
  assert (H0 : (0 < nn_of three_samples)%nat) by (unfold nn_of; simpl; lia).
  assert (H2 : (2 < nn_of three_samples)%nat) by (unfold nn_of; simpl; lia).
  split; [reflexivity|]. split; [exact three_samples_descending_result|].
  split; [exact H0|]. split; [exact H2|]. split; [reflexivity|].
  exact (equal_samples_equal_weights eig_descending three_samples [1; 1; 1] 0 2
           eq_refl three_samples_descending_result H0 H2 eq_refl).
Defined.

(** ** The size of the weights *)

(** X15.  Lines 68 and 76.  When the column that is scaled into the
    weights is a unit vector and no sample is zero, the squares of the
    weights, each multiplied by the sum of squares of its sample, add up
    to [aasum]: the sum of [aa(i) * h(i) * h(i)] is [aasum]. *)
Theorem weights_normalised (eig : Arma.mat -> Arma.vec * Arma.mat)
    (w : world) (h u : Arma.vec) :
  fst (scaleproc eig w) = Some h ->
  selected_column eig w = Some u ->
  Arma.dot u u = 1 ->
  (forall i, (i < nn_of w)%nat -> 0 < nth i (aa_of w) 0) ->
  Arma.dot (aa_of w) (Arma.schur_raw h h) = aasum_of w.
Proof.
  intros Hh Hu Hunit Hpos.
  rewrite scaleproc_run in Hh. simpl fst in Hh.
  rewrite result_of_selected, Hu in Hh.
  destruct (slices_ok _ _ _); [|discriminate].
  apply weights_spec in Hh. destruct Hh as (Hlu & Hlh & Hnth).
  rewrite aa_of_length in *.
  assert (HA : 0 <= aasum_of w) by (apply accu_nonneg, aa_of_nonneg).
  rewrite dot_rsum by (rewrite schur_raw_length, aa_of_length; congruence).
  rewrite aa_of_length.
  rewrite (rsum_ext _ _ (fun i => aasum_of w * (nth i u 0 * nth i u 0))).
  - rewrite rsum_scal. rewrite dot_rsum in Hunit by reflexivity.
    rewrite Hlu in Hunit. rewrite Hunit. ring.
  - intros i Hi. rewrite schur_raw_nth by reflexivity.
    rewrite Hnth by assumption. specialize (Hpos i Hi).
    set (a := nth i (aa_of w) 0) in *.
    rewrite <- Rsqr_def, <- Rsqr_abs, Rsqr_def.
    assert (Hs : sqrt (aasum_of w / a) * sqrt (aasum_of w / a) = aasum_of w / a).
    { apply sqrt_sqrt. apply Rmult_le_pos; [assumption|].
      apply Rlt_le, Rinv_0_lt_compat, Hpos. }
    transitivity (a * (sqrt (aasum_of w / a) * sqrt (aasum_of w / a))
                  * (nth i u 0 * nth i u 0)); [ring|].
    rewrite Hs. field. lra.
Qed.

Lemma weights_normalised_witness :
  exists h u,
    fst (scaleproc eig_identity two_samples) = Some h /\
    selected_column eig_identity two_samples = Some u /\
    Arma.dot u u = 1 /\
    (forall i, (i < nn_of two_samples)%nat -> 0 < nth i (aa_of two_samples) 0) /\
    Arma.dot (aa_of two_samples) (Arma.schur_raw h h) = aasum_of two_samples.
Proof.
  assert (Hu : selected_column eig_identity two_samples = Some [0; 1]).
  { unfold selected_column, branch_of, feature_rich_basis, kk_of, nn_of. simpl.
    reflexivity. }
  assert (Hpos : forall i, (i < nn_of two_samples)%nat ->
                           0 < nth i (aa_of two_samples) 0).
  { unfold nn_of. simpl. intros i Hi.
    destruct i as [|[|i]]; [rcompute; lra | rcompute; lra | lia]. }
  assert (Hunit : Arma.dot [0; 1] [0; 1] = 1) by (rcompute; lra).
  destruct (scaleproc_returns_weights eig_identity two_samples) as (h & Hh & _).
  - reflexivity.
  - unfold kk_of; simpl; lia.
  - exact two_samples_vary.
  - right. split; [unfold kk_of, nn_of; simpl; lia | apply eig_identity_wf].
  - exists h, [0; 1].
    split; [exact Hh|]. split; [exact Hu|]. split; [exact Hunit|].
    split; [exact Hpos|].
    exact (weights_normalised eig_identity two_samples h [0; 1] Hh Hu Hunit Hpos).
Defined.

Lemma sqr_le_dot (u : Arma.vec) (i : nat) :
  nth i u 0 * nth i u 0 <= Arma.dot u u.
Proof.
  destruct (Nat.lt_ge_cases i (length u)) as [Hi|Hi].
  - rewrite dot_self.
    assert (H : nth i (map (fun x => x * x) u) 0 = nth i u 0 * nth i u 0)
      by exact (nth_map_in (fun x => x * x) u 0 0 i Hi).
    rewrite <- H. apply accu_ge_nth.
    + apply Forall_forall. intros y Hy. apply in_map_iff in Hy.
      destruct Hy as (x & <- & _). nra.
    + now rewrite length_map.
  - rewrite nth_overflow by assumption. rewrite Rmult_0_l. apply dot_self_nonneg.
Qed.

(** X16.  Lines 68 and 76.  When the column that is scaled into the
    weights is a unit vector, no weight is larger than its scale factor:
    [h(i) <= sqrt(aasum/aa(i))]. *)
Theorem weights_upper_bound (eig : Arma.mat -> Arma.vec * Arma.mat)
    (w : world) (h u : Arma.vec) :
  fst (scaleproc eig w) = Some h ->
  selected_column eig w = Some u ->
  Arma.dot u u = 1 ->
  forall i, (i < nn_of w)%nat ->
    0 <= nth i h 0 <= sqrt (aasum_of w / nth i (aa_of w) 0).
Proof.
  intros Hh Hu Hunit i Hi.
  rewrite scaleproc_run in Hh. simpl fst in Hh.
  rewrite result_of_selected, Hu in Hh.
  destruct (slices_ok _ _ _); [|discriminate].
  apply weights_spec in Hh. destruct Hh as (_ & _ & Hnth).
  rewrite aa_of_length in Hnth. rewrite Hnth by assumption.
  split; [apply Rabs_pos|].
  rewrite Rabs_mult, (Rabs_pos_eq (sqrt _)) by apply sqrt_pos.
  pose proof (sqrt_pos (aasum_of w / nth i (aa_of w) 0)) as Hs.
  pose proof (sqr_le_dot u i) as Hsq. rewrite Hunit in Hsq.
  assert (Rabs (nth i u 0) <= 1).
  { pose proof (Rabs_pos (nth i u 0)) as Hp.
    assert (Rabs (nth i u 0) * Rabs (nth i u 0) <= 1)
      by (now rewrite <- Rabs_mult, Rabs_pos_eq by nra).
    nra. }
  nra.
Qed.

Lemma weights_upper_bound_witness :
  exists h u,
    fst (scaleproc eig_identity two_samples) = Some h /\
    selected_column eig_identity two_samples = Some u /\
    Arma.dot u u = 1 /\
    0 <= nth 1 h 0
    <= sqrt (aasum_of two_samples / nth 1 (aa_of two_samples) 0).
Proof.
  assert (Hu : selected_column eig_identity two_samples = Some [0; 1]).
  { unfold selected_column, branch_of, feature_rich_basis, kk_of, nn_of. simpl.
    reflexivity. }
  assert (Hunit : Arma.dot [0; 1] [0; 1] = 1) by (rcompute; lra).
  assert (Hi : (1 < nn_of two_samples)%nat) by (unfold nn_of; simpl; lia).
  destruct (scaleproc_returns_weights eig_identity two_samples) as (h & Hh & _).
  - reflexivity.
  - unfold kk_of; simpl; lia.
  - exact two_samples_vary.
  - right. split; [unfold kk_of, nn_of; simpl; lia | apply eig_identity_wf].
  - exists h, [0; 1].
    split; [exact Hh|]. split; [exact Hu|]. split; [exact Hunit|].
    exact (weights_upper_bound eig_identity two_samples h [0; 1] Hh Hu Hunit 1%nat Hi).
Defined.
